(** * A versioned, Merkleized AVL+ tree (iavl): shallow embedding and
      verification of its specification.

    The development follows the TypeScript sources:
    - [util.ts]   : [sha256], [numberToBuffer], [numberfromBuffer];
    - [store.ts]  : the [Store] class over three LMDB tables;
    - [node.ts]   : the [Branch] and [Leaf] classes and [fromCompact];
    - [tree.ts]   : the [Tree] facade;
    - [ics23.ts]  : neighbour search for non-existence proofs.

    JavaScript numbers are integers of [Z] here, a [Buffer] is the list of
    its bytes, [undefined] is [None]. *)

From Stdlib Require Import String ZArith List Sorted Bool Lia.
Import ListNotations.
Open Scope Z_scope.

(** ** Buffers *)

(** A Node.js [Buffer]: its bytes, each one in [0, 256). *)
Definition Buffer : Type := list Z.

(** [a.compare(b)]: bytewise lexicographic order, a proper prefix sorts
    first; the result is [-1], [0] or [1]. *)
Fixpoint Buffer_compare (a b : Buffer) : Z :=
  match a, b with
  | [], [] => 0
  | [], _ :: _ => -1
  | _ :: _, [] => 1
  | x :: a', y :: b' =>
      if x <? y then -1
      else if y <? x then 1
      else Buffer_compare a' b'
  end.

(** [Buffer.concat]. *)
Definition Buffer_concat (data : list Buffer) : Buffer := concat data.

(** [buffer.slice(from, to)] and [buffer.slice(from)]. *)
Definition Buffer_slice (b : Buffer) (from to : nat) : Buffer :=
  firstn (to - from) (skipn from b).

Definition Buffer_slice_from (b : Buffer) (from : nat) : Buffer :=
  skipn from b.

(** [numberToBuffer(num)]: the hexadecimal digits of [num], left-padded to
    eight, read as bytes.  For [0 <= num < 2^32], the range of versions,
    these are the four big-endian bytes of [num]; the embedding is that
    formula. *)
Definition numberToBuffer (num : Z) : Buffer :=
  [ (num / 16777216) mod 256; (num / 65536) mod 256;
    (num / 256) mod 256; num mod 256 ].

(** [numberfromBuffer(buffer)]: [parseInt] of the hexadecimal digits. *)
Definition numberfromBuffer (buffer : Buffer) : Z :=
  fold_left (fun acc x => acc * 256 + x) buffer 0.

(** The comparison of JavaScript numbers used as LMDB keys, as a three-way
    result. *)
Definition number_compare (a b : Z) : Z :=
  if a <? b then -1 else if b <? a then 1 else 0.

(** ** An ordered key/value table (one LMDB sub-database)

    Entries are kept in key order, one per key, the way a cursor yields
    them. *)
Section Table.
Context {K V : Type}.
Variable cmp : K -> K -> Z.

Definition Table : Type := list (K * V).

(** [db.putSync(key, value)]. *)
Fixpoint putSync (key : K) (value : V) (t : Table) : Table :=
  match t with
  | [] => [(key, value)]
  | (k', v') :: t' =>
      if cmp key k' <? 0 then (key, value) :: t
      else if cmp key k' =? 0 then (key, value) :: t'
      else (k', v') :: putSync key value t'
  end.

(** [db.removeSync(key)]. *)
Definition removeSync (key : K) (t : Table) : Table :=
  filter (fun e => negb (cmp key (fst e) =? 0)) t.

(** [db.get(key)]. *)
Fixpoint get (key : K) (t : Table) : option V :=
  match t with
  | [] => None
  | (k', v') :: t' => if cmp key k' =? 0 then Some v' else get key t'
  end.

(** [db.getKeys({ start, end })]: the keys [k] with [start <= k < end],
    ascending. *)
Definition getKeys (start end_ : K) (t : Table) : list K :=
  map fst (filter (fun e => (0 <=? cmp (fst e) start) && (cmp (fst e) end_ <? 0)) t).

(** [db.getKeys({ start, limit: 1, reverse: true })]: the largest key
    [k <= start], if any. *)
Definition getKeys_reverse1 (start : K) (t : Table) : list K :=
  match rev (filter (fun e => cmp (fst e) start <=? 0) t) with
  | [] => []
  | e :: _ => [fst e]
  end.

(** [db.getKeys({ limit: 1, reverse: true })]: the largest key, if any. *)
Definition getKeys_last1 (t : Table) : list K :=
  match rev t with
  | [] => []
  | e :: _ => [fst e]
  end.
End Table.

(** ** Compact nodes ([node.ts], end of file) *)

Inductive CompactNode : Type :=
| CompactLeaf (key value : Buffer) (version : Z)
| CompactBranch (key : Buffer) (version : Z) (leftHeight rightHeight : Z)
    (leftHash rightHash : option Buffer).

(** ** The store ([store.ts]) *)

(** A transaction object: the [commit] and [revert] continuations of the
    pending promise; they carry no data of their own. *)
Inductive Transaction : Type := mkTransaction.

Record Store : Type := mkStore {
  version : Z;
  versionDB : list (Z * Buffer);
  nodeDB : list (Buffer * CompactNode);
  orphanDB : list (Buffer * bool);
  transactions : list Transaction
}.

Definition set_version (s : Store) (v : Z) : Store :=
  mkStore v (versionDB s) (nodeDB s) (orphanDB s) (transactions s).
Definition set_versionDB (s : Store) (d : list (Z * Buffer)) : Store :=
  mkStore (version s) d (nodeDB s) (orphanDB s) (transactions s).
Definition set_nodeDB (s : Store) (d : list (Buffer * CompactNode)) : Store :=
  mkStore (version s) (versionDB s) d (orphanDB s) (transactions s).
Definition set_orphanDB (s : Store) (d : list (Buffer * bool)) : Store :=
  mkStore (version s) (versionDB s) (nodeDB s) d (transactions s).
Definition set_transactions (s : Store) (l : list Transaction) : Store :=
  mkStore (version s) (versionDB s) (nodeDB s) (orphanDB s) l.

(** [getLatestVersion] and the constructor: a store over an empty
    directory. *)
Definition getLatestVersion (vdb : list (Z * Buffer)) : Z :=
  match getKeys_last1 vdb with
  | v :: _ => v
  | [] => 0
  end.

Definition new_Store : Store := mkStore (getLatestVersion []) [] [] [] [].

(** [transaction(action)], up to the call of the action: the version grows
    when no transaction is open. *)
Definition transaction_enter (s : Store) : Store :=
  match transactions s with
  | [] => set_version s (version s + 1)
  | _ :: _ => s
  end.

(** [transaction(action)] for an action given as a store transformer. *)
Definition transaction (action : Store -> Store) (s : Store) : Store :=
  action (transaction_enter s).

(** [startTransaction()]: the action pushes the pending promise. *)
Definition startTransaction (s : Store) : Store :=
  transaction (fun s' => set_transactions s' (mkTransaction :: transactions s')) s.

(** [commitTransaction()]; [None] is the thrown error. *)
Definition commitTransaction (s : Store) : option Store :=
  match transactions s with
  | [] => None
  | _ :: rest => Some (set_transactions s rest)
  end.

(** [revertTransaction()], as far as the store object goes: the stack and
    the version counter.  (The rollback of the tables is LMDB's.) *)
Definition revertTransaction (s : Store) : option Store :=
  match transactions s with
  | [] => None
  | _ :: rest =>
      let s' := set_transactions s rest in
      Some (match rest with
            | [] => set_version s' (version s' - 1)
            | _ :: _ => s'
            end)
  end.

(** [putVersion(version, rootHash?)]. *)
Definition putVersion (v : Z) (rootHash : option Buffer) (s : Store) : Store :=
  set_versionDB s
    (putSync number_compare v
       (match rootHash with Some h => h | None => [] end) (versionDB s)).

(** [getVersion(version)]: a zero-length entry reads as absent. *)
Definition getVersion (v : Z) (s : Store) : option Buffer :=
  match get number_compare v (versionDB s) with
  | Some [] => None
  | Some h => Some h
  | None => None
  end.

(** The key of an orphan record. *)
Definition orphanKey (toVersion fromVersion : Z) (hash : Buffer) : Buffer :=
  Buffer_concat [numberToBuffer toVersion; numberToBuffer fromVersion; hash].

(** [putOrphan(hash, fromVersion, toVersion?)].  [toVersion || version - 1]
    replaces an absent and a zero [toVersion] alike. *)
Definition putOrphan (hash : Buffer) (fromVersion : Z) (toVersion : option Z)
    (s : Store) : Store :=
  let toVersion :=
    match toVersion with
    | Some t => if t =? 0 then version s - 1 else t
    | None => version s - 1
    end in
  if toVersion <? fromVersion
  then set_nodeDB s (removeSync Buffer_compare hash (nodeDB s))
  else set_orphanDB s
         (putSync Buffer_compare (orphanKey toVersion fromVersion hash) true
            (orphanDB s)).

(** The highest version lower than [fromVersion], or [0]. *)
Definition previousVersion (fromVersion : Z) (s : Store) : Z :=
  fold_left (fun _ v => v)
    (getKeys_reverse1 number_compare (fromVersion - 1) (versionDB s)) 0.

(** One turn of the loop over orphan keys in [prune]. *)
Definition prune_orphan (previous : Z) (s : Store) (key : Buffer) : Store :=
  let _fromVersion := numberfromBuffer (Buffer_slice key 4 8) in
  let hash := Buffer_slice_from key 8 in
  let s := set_orphanDB s (removeSync Buffer_compare key (orphanDB s)) in
  if previous <? _fromVersion
  then set_nodeDB s (removeSync Buffer_compare hash (nodeDB s))
  else putOrphan hash _fromVersion (Some previous) s.

(** The orphan keys the loop of [prune] visits: those between
    [numberToBuffer(fromVersion - 1)] and [numberToBuffer(toVersion + 1)]
    as the loop starts (a key the loop writes is never greater than the
    one being visited). *)
Definition prune_range (toVersion fromVersion : Z) (s : Store) : list Buffer :=
  getKeys Buffer_compare (numberToBuffer (fromVersion - 1))
    (numberToBuffer (toVersion + 1)) (orphanDB s).

(** [prune(toVersion, fromVersion)]. *)
Definition prune (toVersion fromVersion : Z) (s : Store) : Store :=
  let previous := previousVersion fromVersion s in
  let s := fold_left (prune_orphan previous)
             (prune_range toVersion fromVersion s) s in
  fold_left (fun s v => set_versionDB s (removeSync number_compare v (versionDB s)))
    (getKeys number_compare fromVersion (toVersion + 1) (versionDB s)) s.

(** [putNode(node)], for a node given by its hash and compact form, and
    [nodeDB.get(hash)]. *)
Definition putNode (hash : Buffer) (compact : CompactNode) (s : Store) : Store :=
  set_nodeDB s (putSync Buffer_compare hash compact (nodeDB s)).

Definition nodeDB_get (hash : Buffer) (s : Store) : option CompactNode :=
  get Buffer_compare hash (nodeDB s).

(** ** Results of fallible code *)

(** What a call can throw: an [Error] of the code with its message, or the
    [TypeError] of the runtime on an [undefined] value. *)
Inductive Exception : Type :=
| Error (message : string)
| TypeError.

Inductive Result (A : Type) : Type :=
| Ok (a : A)
| Throw (e : Exception).
Arguments Ok {A} a.
Arguments Throw {A} e.

Definition bind {A B : Type} (m : Result A) (f : A -> Result B) : Result B :=
  match m with
  | Ok a => f a
  | Throw e => Throw e
  end.

Notation "x <- m ;; k" := (bind m (fun x => k))
  (at level 61, m at next level, right associativity).
Notation "' p <- m ;; k" := (bind m (fun x => let p := x in k))
  (at level 61, p pattern, m at next level, right associativity).

(** [x!] on an optional value that is then used as an object. *)
Definition defined {A : Type} (o : option A) : Result A :=
  match o with
  | Some a => Ok a
  | None => Throw TypeError
  end.

Definition is_ok {A : Type} (r : Result A) : bool :=
  match r with Ok _ => true | Throw _ => false end.

(** ** Nodes ([node.ts]) *)

Record LeafData : Type := mkLeaf {
  leaf_key : Buffer;
  leaf_value : Buffer;
  leaf_version : option Z;
  leaf_hash : option Buffer;
  leaf_isDirty : bool
}.

Record BranchData : Type := mkBranch {
  branch_key : Buffer;
  branch_version : option Z;
  leftHeight : Z;
  rightHeight : Z;
  leftHash : option Buffer;
  rightHash : option Buffer;
  branch_hash : option Buffer;
  branch_isDirty : bool
}.

(** A node, and the weak reference a branch holds to a subtree.  The
    reference is [Cached n] when the private field ([_left], [_right])
    holds the node [n]; [Stored n] when only the hash field is there and
    [n] is the node [store.getNode] materialises for that hash; [Unset]
    when there is neither (a branch under construction, or a hash the
    nodes table does not have).  The nodes table is content addressed, so
    the subtree stands for the lookup. *)
Inductive Node : Type :=
| Leaf (d : LeafData)
| Branch (d : BranchData) (_left _right : Ref)
with Ref : Type :=
| Unset
| Stored (n : Node)
| Cached (n : Node).

Definition isSome {A : Type} (o : option A) : bool :=
  match o with Some _ => true | None => false end.

(** The constructors: [isDirty = !hash]. *)
Definition new_Leaf (key value : Buffer) (version : option Z)
    (hash : option Buffer) : Node :=
  Leaf (mkLeaf key value version hash (negb (isSome hash))).

(** The reference a fresh branch has to the subtree under [hash], with the
    lookup of the store given as [resolve]. *)
Definition weak_ref (resolve : Buffer -> option Node) (hash : option Buffer) : Ref :=
  match hash with
  | Some h => match resolve h with Some n => Stored n | None => Unset end
  | None => Unset
  end.

Definition new_Branch (resolve : Buffer -> option Node) (key : Buffer)
    (version : option Z) (leftHeight rightHeight : Z)
    (leftHash rightHash hash : option Buffer) : Node :=
  Branch (mkBranch key version leftHeight rightHeight leftHash rightHash hash
            (negb (isSome hash)))
    (weak_ref resolve leftHash) (weak_ref resolve rightHash).

(** [fromCompact(store, compact, hash)]; the store is there for the
    lookups of the children. *)
Definition fromCompact (resolve : Buffer -> option Node)
    (compact : option CompactNode) (hash : option Buffer) : option Node :=
  match compact with
  | None => None
  | Some (CompactLeaf key value version) =>
      Some (new_Leaf key value (Some version) hash)
  | Some (CompactBranch key version lh rh leftHash rightHash) =>
      Some (new_Branch resolve key (Some version) lh rh leftHash rightHash hash)
  end.

(** The fields of the [Node] interface. *)
Definition node_key (n : Node) : Buffer :=
  match n with Leaf d => leaf_key d | Branch d _ _ => branch_key d end.

Definition node_hash (n : Node) : option Buffer :=
  match n with Leaf d => leaf_hash d | Branch d _ _ => branch_hash d end.

Definition node_version (n : Node) : option Z :=
  match n with Leaf d => leaf_version d | Branch d _ _ => branch_version d end.

Definition node_isDirty (n : Node) : bool :=
  match n with Leaf d => leaf_isDirty d | Branch d _ _ => branch_isDirty d end.

Definition node_height (n : Node) : Z :=
  match n with
  | Leaf _ => 1
  | Branch d _ _ => 1 + Z.max (leftHeight d) (rightHeight d)
  end.

Definition balanceFactor (d : BranchData) : Z := leftHeight d - rightHeight d.

(** The getters [left] and [right]: the cached node, or the one looked
    up.  (The cache a read leaves behind holds a clean node straight from
    the store; the embedding leaves the reference as it was.) *)
Definition deref (r : Ref) : option Node :=
  match r with
  | Unset => None
  | Stored n => Some n
  | Cached n => Some n
  end.

(** [x <-* r ;; k]: [k] on the node the getter returns for [r]; a
    missing node is used as an object and throws. *)
Notation "x <-* r ;; k" :=
  (match r with
   | Unset => Throw TypeError
   | Stored x => k
   | Cached x => k
   end)
  (at level 61, r at next level, right associativity).

(** [a !== b] on optional hashes. *)
Definition Buffer_eqb (a b : Buffer) : bool := Buffer_compare a b =? 0.

Definition hash_differs (a b : option Buffer) : bool :=
  match a, b with
  | None, None => false
  | Some x, Some y => negb (Buffer_eqb x y)
  | _, _ => true
  end.

(** The setters [left] and [right] of a branch [this]. *)
Definition set_left (this node : Node) : Node :=
  match this with
  | Branch d _ _right =>
      Branch (mkBranch (branch_key d) (branch_version d)
                (node_height node) (rightHeight d)
                None (rightHash d) (branch_hash d)
                (branch_isDirty d || node_isDirty node
                 || hash_differs (leftHash d) (node_hash node)))
        (Cached node) _right
  | Leaf _ => this
  end.

Definition set_right (this node : Node) : Node :=
  match this with
  | Branch d _left _ =>
      Branch (mkBranch (branch_key d) (branch_version d)
                (leftHeight d) (node_height node)
                (leftHash d) None (branch_hash d)
                (branch_isDirty d || node_isDirty node
                 || hash_differs (rightHash d) (node_hash node)))
        _left (Cached node)
  | Leaf _ => this
  end.

(** [leftRotation()].  The cast [as Branch] is unchecked in the source; on
    anything but a branch the embedding stops with [TypeError]. *)
Definition leftRotation (this : Node) : Result Node :=
  match this with
  | Branch d _left _right =>
      match deref _right with
      | Some (Branch rd r_left r_right as root) =>
          let this' :=
            match r_left with
            | Cached n => set_right this n
            | _ =>
                Branch (mkBranch (branch_key d) (branch_version d)
                          (leftHeight d) (leftHeight rd)
                          (leftHash d) (leftHash rd) (branch_hash d) true)
                  _left r_left
            end in
          Ok (set_left root this')
      | _ => Throw TypeError
      end
  | Leaf _ => Throw TypeError
  end.

(** [rightRotation()]. *)
Definition rightRotation (this : Node) : Result Node :=
  match this with
  | Branch d _left _right =>
      match deref _left with
      | Some (Branch rd r_left r_right as root) =>
          let this' :=
            match r_right with
            | Cached n => set_left this n
            | _ =>
                Branch (mkBranch (branch_key d) (branch_version d)
                          (rightHeight rd) (rightHeight d)
                          (rightHash rd) (rightHash d) (branch_hash d) true)
                  r_right _right
            end in
          Ok (set_right root this')
      | _ => Throw TypeError
      end
  | Leaf _ => Throw TypeError
  end.

(** [balance()]. *)
Definition balance (this : Node) : Result Node :=
  match this with
  | Leaf _ => Throw TypeError
  | Branch d _left _right =>
      if balanceFactor d =? 2 then
        match deref _left with
        | Some (Branch bd _ _ as branch) =>
            this' <- (if balanceFactor bd <? 0
                      then (rotated <- leftRotation branch ;;
                            Ok (set_left this rotated))
                      else Ok this) ;;
            rightRotation this'
        | _ => Throw TypeError
        end
      else if balanceFactor d =? -2 then
        match deref _right with
        | Some (Branch bd _ _ as branch) =>
            this' <- (if 0 <? balanceFactor bd
                      then (rotated <- rightRotation branch ;;
                            Ok (set_right this rotated))
                      else Ok this) ;;
            leftRotation this'
        | _ => Throw TypeError
        end
      else Ok this
  end.

(** [new Branch(this.store, key)]: nothing but the key. *)
Definition new_Branch_key (key : Buffer) : Node :=
  new_Branch (fun _ => None) key None 0 0 None None None.

(** [Leaf.insert] and [Branch.insert]. *)
Fixpoint insert (this : Node) (key value : Buffer) : Result Node :=
  match this with
  | Leaf d =>
      let c := Buffer_compare key (leaf_key d) in
      if c =? -1 then
        let newBranch := new_Branch_key (leaf_key d) in
        let newBranch := set_left newBranch (new_Leaf key value None None) in
        Ok (set_right newBranch this)
      else if c =? 1 then
        let newBranch := new_Branch_key key in
        let newBranch := set_left newBranch this in
        Ok (set_right newBranch (new_Leaf key value None None))
      else
        Ok (Leaf (mkLeaf (leaf_key d) value (leaf_version d) (leaf_hash d) true))
  | Branch d _left _right =>
      this' <- (if Buffer_compare key (branch_key d) =? -1
                then (left_ <-* _left ;;
                      left_' <- insert left_ key value ;;
                      Ok (set_left this left_'))
                else (right_ <-* _right ;;
                      right_' <- insert right_ key value ;;
                      Ok (set_right this right_'))) ;;
      balance this'
  end.

(** [leftmost()]. *)
Fixpoint leftmost (this : Node) : Result Node :=
  match this with
  | Leaf _ => Ok this
  | Branch _ _left _ => left_ <-* _left ;; leftmost left_
  end.

(** [find(key)]: the leaf, if any. *)
Fixpoint find (this : Node) (key : Buffer) : Result (option LeafData) :=
  match this with
  | Leaf d => Ok (if Buffer_compare key (leaf_key d) =? 0 then Some d else None)
  | Branch d _left _right =>
      if Buffer_compare key (branch_key d) <? 0
      then (left_ <-* _left ;; find left_ key)
      else (right_ <-* _right ;; find right_ key)
  end.

(** [findPath(key, path)]: the nodes from the leaf up to this one, pushed
    onto [path]. *)
Fixpoint findPath (this : Node) (key : Buffer) (path : list Node)
    : Result (list Node) :=
  match this with
  | Leaf _ => Ok (path ++ [this])
  | Branch d _left _right =>
      path' <- (if Buffer_compare key (branch_key d) <? 0
                then (left_ <-* _left ;; findPath left_ key path)
                else (right_ <-* _right ;; findPath right_ key path)) ;;
      Ok (path' ++ [this])
  end.

(** [store.putOrphan(this.hash!, this.version!)]. *)
Definition putOrphan_node (hash : option Buffer) (version : option Z) (s : Store)
    : Result Store :=
  h <- defined hash ;;
  v <- defined version ;;
  Ok (putOrphan h v None s).

(** [this.key = key] on a branch. *)
Definition set_key (this : Node) (key : Buffer) : Node :=
  match this with
  | Branch d l r =>
      Branch (mkBranch key (branch_version d) (leftHeight d) (rightHeight d)
                (leftHash d) (rightHash d) (branch_hash d) (branch_isDirty d)) l r
  | Leaf _ => this
  end.

(** [Leaf.remove] and [Branch.remove]: the new root of the subtree, if
    any is left_, and the store after the orphans were recorded. *)
Fixpoint remove (this : Node) (key : Buffer) (s : Store)
    : Result (option Node * Store) :=
  match this with
  | Leaf d =>
      if Buffer_compare key (leaf_key d) =? 0
      then (s' <- putOrphan_node (leaf_hash d) (leaf_version d) s ;;
            Ok (None, s'))
      else Ok (Some this, s)
  | Branch d _left _right =>
      let comparison := Buffer_compare key (branch_key d) in
      if comparison <? 0 then
        child <-* _left ;;
        '(left_, s1) <- remove child key s ;;
        match left_ with
        | Some left_ =>
            b <- balance (set_left this left_) ;;
            Ok (Some b, s1)
        | None =>
            s2 <- putOrphan_node (branch_hash d) (branch_version d) s1 ;;
            right_ <-* _right ;;
            Ok (Some right_, s2)
        end
      else
        child <-* _right ;;
        '(right_, s1) <- remove child key s ;;
        match right_ with
        | Some right_ =>
            let this' := set_right this right_ in
            this' <- (if comparison <? 1
                      then (m <- leftmost right_ ;; Ok (set_key this' (node_key m)))
                      else Ok this') ;;
            b <- balance this' ;;
            Ok (Some b, s1)
        | None =>
            s2 <- putOrphan_node (branch_hash d) (branch_version d) s1 ;;
            left_ <-* _left ;;
            Ok (Some left_, s2)
        end
  end.

(** [compact()]: the compact form of a node that has its version. *)
Definition compact (this : Node) : option CompactNode :=
  match this with
  | Leaf d =>
      match leaf_version d with
      | Some v => Some (CompactLeaf (leaf_key d) (leaf_value d) v)
      | None => None
      end
  | Branch d _ _ =>
      match branch_version d with
      | Some v =>
          Some (CompactBranch (branch_key d) v (leftHeight d) (rightHeight d)
                  (leftHash d) (rightHash d))
      | None => None
      end
  end.

Definition node_leftHash (n : Node) : option Buffer :=
  match n with Leaf _ => None | Branch d _ _ => leftHash d end.

Definition node_rightHash (n : Node) : option Buffer :=
  match n with Leaf _ => None | Branch d _ _ => rightHash d end.

(** The node [store.getNode(hash)] builds for a node persisted under
    [hash]: the constructor run on the compact form and the hash, every
    subtree behind its hash again. *)
Fixpoint materialize (n : Node) : Node :=
  match n with
  | Leaf d =>
      new_Leaf (leaf_key d) (leaf_value d) (leaf_version d) (leaf_hash d)
  | Branch d _left _right =>
      Branch (mkBranch (branch_key d) (branch_version d)
                (leftHeight d) (rightHeight d) (leftHash d) (rightHash d)
                (branch_hash d) (negb (isSome (branch_hash d))))
        (match _left with
         | Unset => Unset
         | Stored c => Stored (materialize c)
         | Cached c => Stored (materialize c)
         end)
        (match _right with
         | Unset => Unset
         | Stored c => Stored (materialize c)
         | Cached c => Stored (materialize c)
         end)
  end.

(** ** Hashing and persisting ([util.ts], [node.ts]) *)

Section Hashing.
(** SHA-256, the digest of [crypto]. *)
Variable digest : Buffer -> Buffer.

(** [sha256(...data)]. *)
Definition sha256 (data : list Buffer) : Buffer :=
  digest (Buffer_concat data).

(** [this.hash && store.putOrphan(this.hash, this.version!)]. *)
Definition orphan_previous (hash : option Buffer) (version : option Z)
    (s : Store) : Result Store :=
  match hash with
  | Some _ => putOrphan_node hash version s
  | None => Ok s
  end.

(** [persist(version = this.store.version)]: the hash returned, the node
    as it is afterwards, and the store. *)
Fixpoint persist (this : Node) (version_arg : option Z) (s : Store)
    : Result (option Buffer * Node * Store) :=
  let v := match version_arg with Some v => v | None => version s end in
  match this with
  | Leaf d =>
      if leaf_isDirty d then
        s1 <- orphan_previous (leaf_hash d) (leaf_version d) s ;;
        let hash := sha256 [numberToBuffer v; leaf_key d; leaf_value d] in
        Ok (Some hash,
            Leaf (mkLeaf (leaf_key d) (leaf_value d) (Some v) (Some hash) false),
            putNode hash (CompactLeaf (leaf_key d) (leaf_value d) v) s1)
      else Ok (leaf_hash d, this, s)
  | Branch d _left _right =>
      '(lh, _left', s1) <-
        match _left with
        | Cached c =>
            '(h, c', s') <- persist c None s ;; Ok (h, Cached c', s')
        | _ => Ok (leftHash d, _left, s)
        end ;;
      '(rh, _right', s2) <-
        match _right with
        | Cached c =>
            '(h, c', s') <- persist c None s1 ;; Ok (h, Cached c', s')
        | _ => Ok (rightHash d, _right, s1)
        end ;;
      if branch_isDirty d then
        s3 <- orphan_previous (branch_hash d) (branch_version d) s2 ;;
        l <- defined lh ;;
        r <- defined rh ;;
        let hash := sha256 [numberToBuffer v; l; r] in
        Ok (Some hash,
            Branch (mkBranch (branch_key d) (Some v) (leftHeight d)
                      (rightHeight d) lh rh (Some hash) false) _left' _right',
            putNode hash
              (CompactBranch (branch_key d) v (leftHeight d) (rightHeight d)
                 lh rh) s3)
      else
        Ok (branch_hash d,
            Branch (mkBranch (branch_key d) (branch_version d) (leftHeight d)
                      (rightHeight d) lh rh (branch_hash d) false)
              _left' _right',
            s2)
  end.
End Hashing.

(** ** Proofs ([proof.ts]) *)

Definition ProofLeaf : Type := (Buffer * Buffer * Buffer)%type.
Definition ProofBranch : Type := (Buffer * option Buffer * option Buffer)%type.
Definition Proof : Type := (ProofLeaf * list ProofBranch)%type.

(** ** The tree facade ([tree.ts]) *)

(** A [Tree]: its store, the cached [rootHash], and the tree persisted
    under that hash, which is what the [root] getter materialises. *)
Record Tree : Type := mkTree {
  store : Store;
  rootHash : option Buffer;
  persisted : option Node
}.

(** [new Tree(dbDir)] on an empty directory. *)
Definition new_Tree : Tree := mkTree new_Store (getVersion (version new_Store) new_Store) None.

(** The getter [root]: [rootHash && store.getNode(rootHash)]. *)
Definition root (t : Tree) : option Node :=
  match rootHash t with
  | Some _ => option_map materialize (persisted t)
  | None => None
  end.

Definition Tree_version (t : Tree) : Z := version (store t).

Definition option_bind {A B : Type} (o : option A) (f : A -> option B) : option B :=
  match o with Some a => f a | None => None end.

Section Facade.
Variable digest : Buffer -> Buffer.

(** The values of the user and the codec of [msgpackr]; [falsy v] is
    JavaScript's [!v]. *)
Variable T : Type.
Variable pack : T -> Buffer.
Variable unpack : Buffer -> T.
Variable falsy : T -> bool.

(** [insert(key, value)]. *)
Definition Tree_insert (key : Buffer) (value : T) (t : Tree) : Result Tree :=
  if falsy value then Throw (Error "The value cannot be a falsy value.")
  else
    let packedValue := pack value in
    let s := transaction_enter (store t) in
    node <- match root t with
            | Some r => insert r key packedValue
            | None => Ok (new_Leaf key packedValue None None)
            end ;;
    '(_, node', s1) <- persist digest node None s ;;
    let s2 := putVersion (version s1) (node_hash node') s1 in
    Ok (mkTree s2 (node_hash node') (Some node')).

(** [remove(key)]. *)
Definition Tree_remove (key : Buffer) (t : Tree) : Result Tree :=
  let s := transaction_enter (store t) in
  '(node, s1) <- match root t with
                 | Some r => remove r key s
                 | None => Ok (None, s)
                 end ;;
  '(node', s2) <- match node with
                  | Some r =>
                      '(_, r', s') <- persist digest r None s1 ;;
                      Ok (Some r', s')
                  | None => Ok (None, s1)
                  end ;;
  let hash := option_bind node' node_hash in
  let s3 := putVersion (version s2) hash s2 in
  Ok (mkTree s3 hash node').

(** [get(key)]. *)
Definition Tree_get (key : Buffer) (t : Tree) : Result (option T) :=
  leaf <- match root t with
          | Some r => find r key
          | None => Ok None
          end ;;
  Ok (option_map (fun d => unpack (leaf_value d)) leaf).

(** [has(key)]. *)
Definition Tree_has (key : Buffer) (t : Tree) : Result bool :=
  leaf <- match root t with
          | Some r => find r key
          | None => Ok None
          end ;;
  Ok (isSome leaf).

(** [startTransaction()] and [commitTransaction()]. *)
Definition Tree_startTransaction (t : Tree) : Result Tree :=
  Ok (mkTree (startTransaction (store t)) (rootHash t) (persisted t)).

Definition Tree_commitTransaction (t : Tree) : Result Tree :=
  match commitTransaction (store t) with
  | Some s => Ok (mkTree s (rootHash t) (persisted t))
  | None => Throw (Error "Trying to commit but no transaction was startet.")
  end.

(** One entry of the branch list of [getProof]. *)
Definition proof_branch (key : Buffer) (branch : Node) : Result ProofBranch :=
  v <- defined (node_version branch) ;;
  Ok (if Buffer_compare key (node_key branch) <? 0
      then (numberToBuffer v, None, node_rightHash branch)
      else (numberToBuffer v, node_leftHash branch, None)).

Fixpoint map_result {A B : Type} (f : A -> Result B) (l : list A)
    : Result (list B) :=
  match l with
  | [] => Ok []
  | a :: l' => b <- f a ;; bs <- map_result f l' ;; Ok (b :: bs)
  end.

(** [getProof(key)]. *)
Definition getProof (key : Buffer) (t : Tree) : Result Proof :=
  path <- match root t with
          | Some r => p <- findPath r key [] ;; Ok (Some p)
          | None => Ok None
          end ;;
  match path with
  | Some (Leaf d :: path') =>
      v <- defined (leaf_version d) ;;
      branches <- map_result (proof_branch key) path' ;;
      Ok ((numberToBuffer v, key, leaf_value d), branches)
  | _ => Throw (Error "Key does not exist.")
  end.

(** The loop of [verifyProof]. *)
Fixpoint verify_branches (branches : list ProofBranch) (hash : Buffer)
    : Result Buffer :=
  match branches with
  | [] => Ok hash
  | (v, l, r) :: rest =>
      match l, r with
      | None, None => Throw (Error "The provided proof is not valid.")
      | Some l, _ => verify_branches rest (sha256 digest [v; l; hash])
      | None, Some r => verify_branches rest (sha256 digest [v; hash; r])
      end
  end.

(** [verifyProof(proof, key, value)]. *)
Definition verifyProof (proof : Proof) (key : Buffer) (value : T) (t : Tree)
    : Result unit :=
  let '((_version, _key, _value), branches) := proof in
  if negb (Buffer_compare _key key =? 0)
  then Throw (Error "Keys do not match.")
  else if negb (Buffer_compare _value (pack value) =? 0)
  then Throw (Error "Values do not match.")
  else
    hash <- verify_branches branches (sha256 digest [_version; _key; _value]) ;;
    match rootHash t with
    | Some rh =>
        if Buffer_compare rh hash =? 0 then Ok tt
        else Throw (Error "Calculated root hash does not match.")
    | None => Throw (Error "Calculated root hash does not match.")
    end.

(** Operations of a session, and their run from a tree. *)
Inductive Op : Type :=
| OpInsert (key : Buffer) (value : T)
| OpRemove (key : Buffer)
| OpStartTransaction
| OpCommitTransaction.

Definition apply_op (op : Op) (t : Tree) : Result Tree :=
  match op with
  | OpInsert key value => Tree_insert key value t
  | OpRemove key => Tree_remove key t
  | OpStartTransaction => Tree_startTransaction t
  | OpCommitTransaction => Tree_commitTransaction t
  end.

Fixpoint run (ops : list Op) (t : Tree) : Result Tree :=
  match ops with
  | [] => Ok t
  | op :: rest => t' <- apply_op op t ;; run rest t'
  end.

(** The sequences no call of which throws: no falsy value is inserted
    and no commit comes without an open transaction ([depth] counts the
    open ones). *)
Fixpoint accepted (depth : nat) (ops : list Op) : bool :=
  match ops with
  | [] => true
  | OpInsert _ value :: rest => negb (falsy value) && accepted depth rest
  | OpRemove _ :: rest => accepted depth rest
  | OpStartTransaction :: rest => accepted (S depth) rest
  | OpCommitTransaction :: rest =>
      match depth with
      | O => false
      | S depth' => accepted depth' rest
      end
  end.
End Facade.

Arguments OpInsert {T} key value.
Arguments OpRemove {T} key.
Arguments OpStartTransaction {T}.
Arguments OpCommitTransaction {T}.

(** ** Neighbours for non-existence proofs ([ics23.ts]) *)

(** [findLeftNeighbor(key, node)] on a node. *)
Fixpoint findLeftNeighbor (key : Buffer) (node : Node) : option Node :=
  match node with
  | Leaf _ => None
  | Branch d _left _right =>
      if Buffer_compare key (branch_key d) =? 1 then
        match
          match _right with
          | Unset => None
          | Stored c => findLeftNeighbor key c
          | Cached c => findLeftNeighbor key c
          end
        with
        | Some n => Some n
        | None => Some node
        end
      else
        match _left with
        | Unset => None
        | Stored c => findLeftNeighbor key c
        | Cached c => findLeftNeighbor key c
        end
  end.

(** [findRightNeighbor(key, node)] on a node. *)
Fixpoint findRightNeighbor (key : Buffer) (node : Node) : option Node :=
  match node with
  | Leaf _ => None
  | Branch d _left _right =>
      if Buffer_compare key (branch_key d) =? -1 then
        match
          match _left with
          | Unset => None
          | Stored c => findRightNeighbor key c
          | Cached c => findRightNeighbor key c
          end
        with
        | Some n => Some n
        | None => Some node
        end
      else
        match _right with
        | Unset => None
        | Stored c => findRightNeighbor key c
        | Cached c => findRightNeighbor key c
        end
  end.

(** An ICS23 existence proof: key, value, leaf prefix, and the prefix and
    suffix of each inner step. *)
Record ExistenceProof : Type := mkExistenceProof {
  ep_key : Buffer;
  ep_value : Buffer;
  ep_leaf_prefix : Buffer;
  ep_path : list (Buffer * Buffer)
}.

Record NonExistenceProof : Type := mkNonExistenceProof {
  nep_key : Buffer;
  nep_left : option ExistenceProof;
  nep_right : option ExistenceProof
}.

Section Ics23.
(** [getExistenceProof(tree, key)]. *)
Definition getExistenceProof (t : Tree) (key : Buffer) : Result ExistenceProof :=
  '((v, _, value), branches) <- getProof key t ;;
  Ok (mkExistenceProof key value v
        (map (fun '(v, leftHash, rightHash) =>
                (match leftHash with
                 | Some l => Buffer_concat [v; l]
                 | None => v
                 end,
                 match rightHash with
                 | Some r => r
                 | None => []
                 end)) branches)).

Definition existence_of (t : Tree) (n : option Node)
    : Result (option ExistenceProof) :=
  match n with
  | Some n => p <- getExistenceProof t (node_key n) ;; Ok (Some p)
  | None => Ok None
  end.

(** [getNonExistenceProof(tree, key)]. *)
Definition getNonExistenceProof (t : Tree) (key : Buffer)
    : Result NonExistenceProof :=
  has <- Tree_has key t ;;
  if has : bool then Throw (Error "Key exists.")
  else
    let left_ := option_bind (root t) (findLeftNeighbor key) in
    let right_ := option_bind (root t) (findRightNeighbor key) in
    l <- existence_of t left_ ;;
    r <- existence_of t right_ ;;
    Ok (mkNonExistenceProof key l r).
End Ics23.

(** ** Sessions of store transactions *)

(** The calls that move the transaction stack of a store; [TxSync] is
    [transaction(action)] for an action that leaves the version counter
    and the stack alone. *)
Inductive TxOp : Type :=
| TxStart
| TxCommit
| TxRevert
| TxSync.

Definition tx_apply (op : TxOp) (s : Store) : option Store :=
  match op with
  | TxStart => Some (startTransaction s)
  | TxCommit => commitTransaction s
  | TxRevert => revertTransaction s
  | TxSync => Some (transaction (fun s' => s') s)
  end.

Fixpoint tx_run (ops : list TxOp) (s : Store) : option Store :=
  match ops with
  | [] => Some s
  | op :: rest =>
      match tx_apply op s with
      | Some s' => tx_run rest s'
      | None => None
      end
  end.

(** The depth of the stack after [ops] run from [depth] open transactions,
    provided it never falls below one: [ops] is then made of inner calls
    only. *)
Fixpoint inner_depth (depth : nat) (ops : list TxOp) : option nat :=
  match depth with
  | O => None
  | S below =>
      match ops with
      | [] => Some depth
      | TxStart :: rest => inner_depth (S depth) rest
      | TxSync :: rest => inner_depth depth rest
      | TxCommit :: rest => inner_depth below rest
      | TxRevert :: rest => inner_depth below rest
      end
  end.

(** ** Predicates on nodes in memory *)

(** No node in memory is dirty: this one and every cached node below. *)
Fixpoint all_clean (n : Node) : bool :=
  match n with
  | Leaf d => negb (leaf_isDirty d)
  | Branch d _left _right =>
      negb (branch_isDirty d)
      && match _left with Cached c => all_clean c | _ => true end
      && match _right with Cached c => all_clean c | _ => true end
  end.

(** The hash a branch records for a child is the hash of the cached
    child. *)
Definition recorded (hash : option Buffer) (r : Ref) : Prop :=
  match r with
  | Cached c => hash = node_hash c
  | _ => True
  end.

(** A node as [persist] leaves it: clean, with the hashes of the cached
    children recorded, all the way down. *)
Fixpoint settled (n : Node) : Prop :=
  match n with
  | Leaf d => leaf_isDirty d = false
  | Branch d _left _right =>
      branch_isDirty d = false
      /\ recorded (leftHash d) _left /\ recorded (rightHash d) _right
      /\ match _left with Cached c => settled c | _ => True end
      /\ match _right with Cached c => settled c | _ => True end
  end.

(** ** The shape of a tree

    What the balance and the order of a tree depend on: keys, values and
    the recorded heights, without hashes, versions, dirty flags and the
    state of the references. *)
Inductive Skel : Type :=
| SLeaf (key value : Buffer)
| SBranch (key : Buffer) (lh rh : Z) (l r : Skel).

(** The shape of a node; [None] when a reference below leads nowhere. *)
Fixpoint skel (n : Node) : option Skel :=
  match n with
  | Leaf d => Some (SLeaf (leaf_key d) (leaf_value d))
  | Branch d _left _right =>
      match
        match _left with
        | Unset => None
        | Stored c => skel c
        | Cached c => skel c
        end,
        match _right with
        | Unset => None
        | Stored c => skel c
        | Cached c => skel c
        end
      with
      | Some l, Some r =>
          Some (SBranch (branch_key d) (leftHeight d) (rightHeight d) l r)
      | _, _ => None
      end
  end.

Definition sheight (t : Skel) : Z :=
  match t with
  | SLeaf _ _ => 1
  | SBranch _ lh rh _ _ => 1 + Z.max lh rh
  end.

(** The operations of [node.ts] on shapes. *)
Definition srotL (t : Skel) : Skel :=
  match t with
  | SBranch k lh rh a (SBranch k2 lh2 rh2 b c) =>
      SBranch k2 (1 + Z.max lh (sheight b)) rh2 (SBranch k lh (sheight b) a b) c
  | _ => t
  end.

Definition srotR (t : Skel) : Skel :=
  match t with
  | SBranch k lh rh (SBranch k2 lh2 rh2 a b) c =>
      SBranch k2 lh2 (1 + Z.max (sheight b) rh) a (SBranch k (sheight b) rh b c)
  | _ => t
  end.

Definition sbalance (t : Skel) : Skel :=
  match t with
  | SLeaf _ _ => t
  | SBranch k lh rh l r =>
      if lh - rh =? 2 then
        match l with
        | SBranch _ llh lrh _ _ =>
            srotR (if llh - lrh <? 0
                   then SBranch k (sheight (srotL l)) rh (srotL l) r
                   else t)
        | SLeaf _ _ => t
        end
      else if lh - rh =? -2 then
        match r with
        | SBranch _ rlh rrh _ _ =>
            srotL (if 0 <? rlh - rrh
                   then SBranch k lh (sheight (srotR r)) l (srotR r)
                   else t)
        | SLeaf _ _ => t
        end
      else t
  end.

Fixpoint sinsert (t : Skel) (key value : Buffer) : Skel :=
  match t with
  | SLeaf k0 v0 =>
      let c := Buffer_compare key k0 in
      if c =? -1 then SBranch k0 1 1 (SLeaf key value) t
      else if c =? 1 then SBranch key 1 1 t (SLeaf key value)
      else SLeaf k0 value
  | SBranch k lh rh l r =>
      if Buffer_compare key k =? -1
      then let l' := sinsert l key value in
           sbalance (SBranch k (sheight l') rh l' r)
      else let r' := sinsert r key value in
           sbalance (SBranch k lh (sheight r') l r')
  end.

Fixpoint sleftkey (t : Skel) : Buffer :=
  match t with
  | SLeaf k _ => k
  | SBranch _ _ _ l _ => sleftkey l
  end.

Fixpoint sremove (t : Skel) (key : Buffer) : option Skel :=
  match t with
  | SLeaf k0 _ => if Buffer_compare key k0 =? 0 then None else Some t
  | SBranch k lh rh l r =>
      let c := Buffer_compare key k in
      if c <? 0 then
        match sremove l key with
        | Some l' => Some (sbalance (SBranch k (sheight l') rh l' r))
        | None => Some r
        end
      else
        match sremove r key with
        | Some r' =>
            Some (sbalance (SBranch (if c <? 1 then sleftkey r' else k)
                              lh (sheight r') l r'))
        | None => Some l
        end
  end.

Fixpoint sfind (t : Skel) (key : Buffer) : option Buffer :=
  match t with
  | SLeaf k0 v0 => if Buffer_compare key k0 =? 0 then Some v0 else None
  | SBranch k _ _ l r =>
      if Buffer_compare key k <? 0 then sfind l key else sfind r key
  end.

(** The keys of the leaves, left to right. *)
Fixpoint skeys (t : Skel) : list Buffer :=
  match t with
  | SLeaf k _ => [k]
  | SBranch _ _ _ l r => skeys l ++ skeys r
  end.

(** The recorded heights are the heights, and no branch leans by more
    than one. *)
Fixpoint avl (t : Skel) : Prop :=
  match t with
  | SLeaf _ _ => True
  | SBranch _ lh rh l r =>
      lh = sheight l /\ rh = sheight r /\ -1 <= lh - rh <= 1 /\ avl l /\ avl r
  end.

(** The keys on the left are below the key of the branch, those on the
    right are not, and the key is that of the leftmost leaf on the right. *)
Fixpoint bst (t : Skel) : Prop :=
  match t with
  | SLeaf _ _ => True
  | SBranch k _ _ l r =>
      Forall (fun x => Buffer_compare x k = -1) (skeys l)
      /\ Forall (fun x => Buffer_compare k x <= 0) (skeys r)
      /\ sleftkey r = k /\ bst l /\ bst r
  end.

(** ** Hash consistency of nodes *)

Definition ref_hash (r : Ref) : option Buffer := option_bind (deref r) node_hash.

Definition ref_isDirty (r : Ref) : bool :=
  match deref r with
  | Some c => node_isDirty c
  | None => true
  end.

(** The hashes a branch records are those of its children, all the way
    down: the node can be looked up again from its compact form. *)
Fixpoint sealed (n : Node) : Prop :=
  match n with
  | Leaf _ => True
  | Branch d _left _right =>
      leftHash d = ref_hash _left /\ rightHash d = ref_hash _right
      /\ match _left with
         | Unset => False
         | Stored c => sealed c
         | Cached c => sealed c
         end
      /\ match _right with
         | Unset => False
         | Stored c => sealed c
         | Cached c => sealed c
         end
  end.

Section Consistency.
Variable digest : Buffer -> Buffer.

(** A node at work in memory.  Every reference leads to a node; a child
    behind its hash is clean, sealed, and has the hash the branch records; a cached
    child has the recorded hash when one is recorded; a node with a hash
    has a version; and a clean node has the hash of its version and
    content, computed for a branch from the hashes of clean children. *)
Fixpoint working (n : Node) : Prop :=
  match n with
  | Leaf d =>
      (leaf_hash d = None \/ leaf_version d <> None)
      /\ (leaf_isDirty d = false ->
          exists v,
            leaf_version d = Some v
            /\ leaf_hash d
               = Some (sha256 digest [numberToBuffer v; leaf_key d; leaf_value d]))
  | Branch d _left _right =>
      match _left with
      | Unset => False
      | Stored c =>
          leftHash d = node_hash c /\ node_isDirty c = false /\ working c
          /\ sealed c
      | Cached c => (leftHash d = None \/ leftHash d = node_hash c) /\ working c
      end
      /\ match _right with
         | Unset => False
         | Stored c =>
             rightHash d = node_hash c /\ node_isDirty c = false /\ working c
             /\ sealed c
         | Cached c => (rightHash d = None \/ rightHash d = node_hash c) /\ working c
         end
      /\ (branch_hash d = None \/ branch_version d <> None)
      /\ (branch_isDirty d = false ->
          exists v hl hr,
            branch_version d = Some v
            /\ ref_hash _left = Some hl /\ ref_hash _right = Some hr
            /\ branch_hash d = Some (sha256 digest [numberToBuffer v; hl; hr])
            /\ ref_isDirty _left = false /\ ref_isDirty _right = false)
  end.

(** A node as it is in the store: at work and clean. *)
Definition merkle (n : Node) : Prop := working n /\ node_isDirty n = false.
End Consistency.

(** ** Properties of all branches of a tree *)

(** [P] holds of every branch that can be reached from [n]. *)
Fixpoint every_branch (P : BranchData -> Ref -> Ref -> Prop) (n : Node) : Prop :=
  match n with
  | Leaf _ => True
  | Branch d _left _right =>
      P d _left _right
      /\ match _left with
         | Unset => True
         | Stored c => every_branch P c
         | Cached c => every_branch P c
         end
      /\ match _right with
         | Unset => True
         | Stored c => every_branch P c
         | Cached c => every_branch P c
         end
  end.

(** The height of a tree, counted on the tree itself. *)
Fixpoint true_height (n : Node) : Z :=
  match n with
  | Leaf _ => 1
  | Branch _ _left _right =>
      1 + Z.max
            match _left with
            | Unset => 0
            | Stored c => true_height c
            | Cached c => true_height c
            end
            match _right with
            | Unset => 0
            | Stored c => true_height c
            | Cached c => true_height c
            end
  end.

Definition ref_height (r : Ref) : Z :=
  match r with
  | Unset => 0
  | Stored c => true_height c
  | Cached c => true_height c
  end.

(** The keys of the leaves of a tree, left to right. *)
Fixpoint leaf_keys (n : Node) : list Buffer :=
  match n with
  | Leaf d => [leaf_key d]
  | Branch _ _left _right =>
      match _left with
      | Unset => []
      | Stored c => leaf_keys c
      | Cached c => leaf_keys c
      end
      ++ match _right with
         | Unset => []
         | Stored c => leaf_keys c
         | Cached c => leaf_keys c
         end
  end.

(** The AVL condition on a branch: the recorded heights are the heights
    of the subtrees and differ by one at most. *)
Definition balanced_branch (d : BranchData) (l r : Ref) : Prop :=
  leftHeight d = ref_height l /\ rightHeight d = ref_height r
  /\ Z.abs (leftHeight d - rightHeight d) <= 1.

(** The key of a branch is the key of the leftmost leaf of its right
    subtree, the smallest key there; the keys on the left are smaller. *)
Definition split_branch (d : BranchData) (l r : Ref) : Prop :=
  (exists c m,
      deref r = Some c /\ leftmost c = Ok (Leaf m)
      /\ leaf_key m = branch_key d
      /\ Forall (fun x => Buffer_compare (branch_key d) x <= 0) (leaf_keys c))
  /\ (exists c,
         deref l = Some c
         /\ Forall (fun x => Buffer_compare x (branch_key d) = -1) (leaf_keys c)).

(** ** The state of a tree between two calls *)

Section TreeState.
Variable digest : Buffer -> Buffer.
Variable T : Type.

(** A tree as the store holds it. *)
Definition stored_tree (n : Node) : Prop :=
  merkle digest n /\ sealed n /\ exists t, skel n = Some t /\ avl t /\ bst t.

Definition Tree_ok (t : Tree) : Prop :=
  match persisted t with
  | Some n => rootHash t = node_hash n /\ stored_tree n
  | None => rootHash t = None
  end.

(** The packed value under a key. *)
Definition Tree_lookup (t : Tree) (key : Buffer) : option Buffer :=
  match persisted t with
  | Some n => option_bind (skel n) (fun sk => sfind sk key)
  | None => None
  end.

(** What the calls of [ops] leave under [key], from [before]: the value of
    the most recent insert for [key], unless a remove of [key] came
    later. *)
Fixpoint last_write (ops : list (Op T)) (key : Buffer) (before : option T)
    : option T :=
  match ops with
  | [] => before
  | OpInsert k v :: rest =>
      last_write rest key (if Buffer_eqb key k then Some v else before)
  | OpRemove k :: rest =>
      last_write rest key (if Buffer_eqb key k then None else before)
  | _ :: rest => last_write rest key before
  end.
End TreeState.

(** The session of a store: what node and orphan writes leave alone. *)
Definition same_session (s s' : Store) : Prop :=
  version s' = version s /\ transactions s' = transactions s
  /\ versionDB s' = versionDB s.

(** ** Instances for examples

    A digest that is injective (the identity), and a codec for binary
    values in the manner of MessagePack's [bin 8]: a tag, the length,
    the bytes.  A [Buffer] is never falsy. *)
Definition demo_digest (b : Buffer) : Buffer := b.
Definition demo_pack (v : Buffer) : Buffer := 196 :: Z.of_nat (length v) :: v.
Definition demo_unpack (b : Buffer) : Buffer := skipn 2 b.
Definition demo_falsy (v : Buffer) : bool := false.

Definition demo_ops : list (Op Buffer) :=
  [ OpInsert [97] [49]; OpInsert [98] [50]; OpInsert [99] [51];
    OpInsert [122] [50; 54]; OpInsert [121] [50; 53]; OpInsert [120] [50; 52];
    OpRemove [99]; OpStartTransaction; OpInsert [100] [52];
    OpCommitTransaction; OpRemove [113] ].

(** A node straight from the store: every subtree is behind its hash. *)
Fixpoint fresh (n : Node) : Prop :=
  match n with
  | Leaf _ => True
  | Branch _ (Stored a) (Stored b) => fresh a /\ fresh b
  | Branch _ _ _ => False
  end.


(** ** Orphan records, for the statement about [prune] *)

(** The version numbers [numberToBuffer] writes on four bytes. *)
Definition u32 (n : Z) : Prop := 0 <= n < 4294967296.

(** A key of the orphan table as [putOrphan] writes it, for a node born
    at version [1] or later. *)
Definition orphan_record (key : Buffer) (toVersion fromVersion : Z)
    (hash : Buffer) : Prop :=
  u32 toVersion /\ 1 <= fromVersion < 4294967296
  /\ key = orphanKey toVersion fromVersion hash.

(** The orphan table of [s] holds the record
    [(toVersion, fromVersion, hash)]. *)
Definition orphaned (s : Store) (toVersion fromVersion : Z) (hash : Buffer)
    : Prop :=
  u32 toVersion /\ 1 <= fromVersion < 4294967296
  /\ In (orphanKey toVersion fromVersion hash) (map fst (orphanDB s)).

(** Every key of the orphan table is the key of an orphan record. *)
Definition orphans_wf (keys : list Buffer) : Prop :=
  Forall (fun k => exists t f h, orphan_record k t f h) keys.


(** A session that leaves a gap in the versions table: the transaction
    that is opened and committed at once takes version [2] and writes
    nothing. *)
Definition gap_ops : list (Op Buffer) :=
  [ OpInsert [97] [49]; OpStartTransaction; OpCommitTransaction;
    OpInsert [97] [50]; OpInsert [98] [51] ].

Definition gap_store : Store :=
  match run demo_digest Buffer demo_pack demo_falsy gap_ops new_Tree with
  | Ok t => store t
  | Throw _ => new_Store
  end.

(** The hash of the leaf [("a", "1")] of version [1] under [demo_digest]. *)
Definition gap_leaf : Buffer := [0; 0; 0; 1; 97; 196; 1; 49].

(** ** Child slots *)

(** The shape behind a child slot. *)
Definition ref_skel (r : Ref) : option Skel :=
  match r with
  | Unset => None
  | Stored c => skel c
  | Cached c => skel c
  end.

(** A child slot at work: a child read from the store carries the hash
    its parent records; a child made in this call may not be hashed yet. *)
Definition ref_ok (digest : Buffer -> Buffer) (h : option Buffer) (r : Ref) : Prop :=
  match r with
  | Unset => False
  | Stored c =>
      h = node_hash c /\ node_isDirty c = false /\ working digest c /\ sealed c
  | Cached c => (h = None \/ h = node_hash c) /\ working digest c
  end.

(** A child slot whose node is sealed. *)
Definition ref_sealed (r : Ref) : Prop :=
  match r with
  | Unset => False
  | Stored c => sealed c
  | Cached c => sealed c
  end.

(** What [persist] achieves on a node at work. *)
Definition persists (digest : Buffer -> Buffer) (this : Node) : Prop :=
  forall v s,
    exists h n' s',
      persist digest this v s = Ok (Some h, n', s')
      /\ merkle digest n' /\ sealed n' /\ node_hash n' = Some h
      /\ skel n' = skel this
      /\ (node_isDirty this = false -> node_hash n' = node_hash this).


(** The tree [demo_ops] leave. *)
Definition demo_tree : Tree :=
  match run demo_digest Buffer demo_pack demo_falsy demo_ops new_Tree with
  | Ok t => t
  | Throw _ => new_Tree
  end.

(** ** Reading nodes and walking a tree ([store.ts], [tree.ts]) *)

(** [getNode(hash)]: [fromCompact(this, this.nodeDB.get(hash), hash)];
    [resolve] stands for the lookups the new node makes for its children
    when they are asked for. *)
Definition getNode (resolve : Buffer -> option Node) (hash : Buffer) (s : Store)
    : option Node :=
  fromCompact resolve (nodeDB_get hash s) (Some hash).

(** [inOrderTraversal(node)]: the nodes the generator yields, in order.
    A child that is not there is skipped ([if (node.left)]). *)
Fixpoint inOrderTraversal (node : Node) : list Node :=
  match node with
  | Leaf _ => [node]
  | Branch _ _left _right =>
      match _left with
      | Unset => []
      | Stored c => inOrderTraversal c
      | Cached c => inOrderTraversal c
      end
      ++ [node]
      ++ match _right with
         | Unset => []
         | Stored c => inOrderTraversal c
         | Cached c => inOrderTraversal c
         end
  end.

(** [tree.inOrderTraversal()], from the root; nothing on an empty tree. *)
Definition Tree_inOrderTraversal (t : Tree) : list Node :=
  match root t with
  | Some r => inOrderTraversal r
  | None => []
  end.

(** [node instanceof Leaf]. *)
Definition is_Leaf (n : Node) : bool :=
  match n with Leaf _ => true | Branch _ _ _ => false end.

(** The keys an in-order walk of a shape meets, branches included. *)
Fixpoint sinorder (t : Skel) : list Buffer :=
  match t with
  | SLeaf k _ => [k]
  | SBranch k _ _ l r => sinorder l ++ [k] ++ sinorder r
  end.

(** The keys of the nodes [findLeftNeighbor] and [findRightNeighbor]
    return, on shapes. *)
Fixpoint sleftN (t : Skel) (key : Buffer) : option Buffer :=
  match t with
  | SLeaf _ _ => None
  | SBranch k _ _ l r =>
      if Buffer_compare key k =? 1 then
        match sleftN r key with
        | Some b => Some b
        | None => Some k
        end
      else sleftN l key
  end.

Fixpoint srightN (t : Skel) (key : Buffer) : option Buffer :=
  match t with
  | SLeaf _ _ => None
  | SBranch k _ _ l r =>
      if Buffer_compare key k =? -1 then
        match srightN l key with
        | Some b => Some b
        | None => Some k
        end
      else srightN r key
  end.

(** ** Counting versions *)

(** The calls of [ops] that find no transaction open, [depth] being open
    at the start: the ones [store.transaction] gives a new version. *)
Fixpoint outer_calls {T : Type} (depth : nat) (ops : list (Op T)) : Z :=
  match ops with
  | [] => 0
  | OpInsert _ _ :: rest =>
      (match depth with O => 1 | S _ => 0 end) + outer_calls depth rest
  | OpRemove _ :: rest =>
      (match depth with O => 1 | S _ => 0 end) + outer_calls depth rest
  | OpStartTransaction :: rest =>
      (match depth with O => 1 | S _ => 0 end) + outer_calls (S depth) rest
  | OpCommitTransaction :: rest => outer_calls (pred depth) rest
  end.

(** The versions table in key order, with no version above the counter
    of the store. *)
Definition versions_ok (s : Store) : Prop :=
  StronglySorted Z.lt (map fst (versionDB s))
  /\ Forall (fun v => v <= version s) (map fst (versionDB s)).

(** A digest for examples that never returns the empty buffer. *)
Definition tag_digest (b : Buffer) : Buffer := 0 :: b.

(** A branch entry of a proof that names one sibling: a version of four
    bytes and either the left hash or the right one. *)
Definition one_sibling (b : ProofBranch) : Prop :=
  let '(v, l, r) := b in
  length v = 4%nat /\ ((l = None /\ r <> None) \/ (l <> None /\ r = None)).

(** The digest an ICS23 existence proof leads to: the leaf is hashed as
    prefix, key, value, and every step as prefix, child, suffix. *)
Definition existence_root (digest : Buffer -> Buffer) (e : ExistenceProof)
    : Buffer :=
  fold_left (fun h step => digest (fst step ++ h ++ snd step)) (ep_path e)
    (digest (ep_leaf_prefix e ++ ep_key e ++ ep_value e)).

(** ** Chunks of a snapshot ([chunk.ts]) *)

(** A [Chunk]: its [size] and its [packedNodes]. *)
Record Chunk : Type := mkChunk {
  chunk_size : Z;
  packedNodes : list Buffer
}.

(** [new Chunk(store, packedNodes)]: [size] starts at [0]. *)
Definition new_Chunk (packedNodes : list Buffer) : Chunk := mkChunk 0 packedNodes.

Section ChunkCodec.
Variable digest : Buffer -> Buffer.

(** The codec of [msgpackr] on compact nodes; [unpackNode] gives [None]
    on bytes that are no compact node. *)
Variable packNode : CompactNode -> Buffer.
Variable unpackNode : Buffer -> option CompactNode.

(** [addNode(node, maxSize)], for a node given by its compact form.  The
    string on the left is the string the code throws. *)
Definition addNode (c : CompactNode) (maxSize : Z) (this : Chunk)
    : string + bool * Chunk :=
  let packedNode := packNode c in
  let len := Z.of_nat (length packedNode) in
  if maxSize <? len
  then inl "Node size is larger than the maximum chunk size."%string
  else if maxSize <? chunk_size this + len
  then inr (false, this)
  else inr (true, mkChunk (chunk_size this + len)
                    (packedNodes this ++ [packedNode])).

(** One turn of the loop of [restoreNodes]:
    [fromCompact(store, unpack(packedNode))] and
    [node.persist(node.version!)]. *)
Definition restoreNode (resolve : Buffer -> option Node) (s : Store)
    (packedNode : Buffer) : Result Store :=
  node <- defined (fromCompact resolve (unpackNode packedNode) None) ;;
  '(_, _, s') <- persist digest node (node_version node) s ;;
  Ok s'.

(** [restoreNodes()]. *)
Fixpoint restoreNodes (resolve : Buffer -> option Node) (packed : list Buffer)
    (s : Store) : Result Store :=
  match packed with
  | [] => Ok s
  | packedNode :: rest =>
      s' <- restoreNode resolve s packedNode ;;
      restoreNodes resolve rest s'
  end.
End ChunkCodec.

(** The bytes of the packed nodes of a chunk, in all. *)
Definition packed_bytes (packed : list Buffer) : Z :=
  fold_right (fun b n => Z.of_nat (length b) + n) 0 packed.

(** The entry of the nodes table for a node: its hash and compact form. *)
Definition node_entry (n : Node) : option (Buffer * CompactNode) :=
  match node_hash n, compact n with
  | Some h, Some c => Some (h, c)
  | _, _ => None
  end.

(** A codec for the compact forms of the nodes of the tree [pair_tree]
    of two keys, defined below: a tag,
    the version, the heights, then key and value or hashes, each after
    its length; the decoder looks the bytes up among those forms. *)
Definition demo_packNode (c : CompactNode) : Buffer :=
  let sized (b : Buffer) := Z.of_nat (length b) :: b in
  let optional (o : option Buffer) :=
    match o with Some b => 1 :: sized b | None => [0] end in
  match c with
  | CompactLeaf key value version =>
      0 :: numberToBuffer version ++ sized key ++ sized value
  | CompactBranch key version lh rh leftHash rightHash =>
      1 :: numberToBuffer version ++ [lh; rh] ++ sized key
        ++ optional leftHash ++ optional rightHash
  end.

Definition pair_ops : list (Op Buffer) := [OpInsert [97] [49]; OpInsert [98] [50]].

Definition pair_tree : Tree :=
  match run demo_digest Buffer demo_pack demo_falsy pair_ops new_Tree with
  | Ok t => t
  | Throw _ => new_Tree
  end.

Definition demo_nodes : list CompactNode :=
  flat_map (fun n => match compact n with Some c => [c] | None => [] end)
    (Tree_inOrderTraversal pair_tree).

Definition demo_unpackNode (b : Buffer) : option CompactNode :=
  List.find (fun c => Buffer_eqb (demo_packNode c) b) demo_nodes.

(** ** Versions of nodes and orphans *)

(** Every node of the tree that has a version was persisted at version
    [1] or later. *)
Fixpoint born (n : Node) : Prop :=
  match n with
  | Leaf d =>
      match leaf_version d with Some f => 1 <= f | None => True end
  | Branch d _left _right =>
      match branch_version d with Some f => 1 <= f | None => True end
      /\ match _left with
         | Unset => True
         | Stored c => born c
         | Cached c => born c
         end
      /\ match _right with
         | Unset => True
         | Stored c => born c
         | Cached c => born c
         end
  end.

(** Every key of the orphan table is the key of an orphan record whose
    node lived from [fromVersion] to [toVersion], both before [v]. *)
Definition orphans_past (v : Z) (keys : list Buffer) : Prop :=
  Forall (fun k => exists t f h, orphan_record k t f h /\ f <= t < v) keys.

(** The tree and the orphan table between two calls: the nodes were
    persisted at version [1] or later, the orphans record lives that ended
    before the current version, and an open transaction has its
    version. *)
Definition Tree_past (t : Tree) : Prop :=
  match persisted t with Some n => born n | None => True end
  /\ orphans_past (version (store t)) (map fst (orphanDB (store t)))
  /\ 0 <= version (store t)
  /\ (transactions (store t) <> [] -> 1 <= version (store t)).

(** No node of the tree has a version above [v]. *)
Fixpoint aged (v : Z) (n : Node) : Prop :=
  match n with
  | Leaf d =>
      match leaf_version d with Some f => f <= v | None => True end
  | Branch d _left _right =>
      match branch_version d with Some f => f <= v | None => True end
      /\ match _left with
         | Unset => True
         | Stored c => aged v c
         | Cached c => aged v c
         end
      /\ match _right with
         | Unset => True
         | Stored c => aged v c
         | Cached c => aged v c
         end
  end.

(** Every hash of the nodes table of [s] is still one of [s']. *)
Definition nodes_kept (s s' : Store) : Prop :=
  forall hash, In hash (map fst (nodeDB s)) -> In hash (map fst (nodeDB s')).

(** The nodes of the persisted tree are no younger than the store. *)
Definition Tree_aged (t : Tree) : Prop :=
  match persisted t with
  | Some n => aged (version (store t)) n
  | None => True
  end.

(** The hash of a node is the digest of its version and content: key and
    value for a leaf, the hashes of the two children, which the branch
    records, for a branch. *)
Definition hashed (digest : Buffer -> Buffer) (n : Node) : Prop :=
  match n with
  | Leaf d =>
      exists v,
        leaf_version d = Some v
        /\ leaf_hash d
           = Some (sha256 digest [numberToBuffer v; leaf_key d; leaf_value d])
  | Branch d _left _right =>
      exists v cl cr hl hr,
        branch_version d = Some v
        /\ deref _left = Some cl /\ deref _right = Some cr
        /\ node_hash cl = Some hl /\ node_hash cr = Some hr
        /\ leftHash d = Some hl /\ rightHash d = Some hr
        /\ branch_hash d = Some (sha256 digest [numberToBuffer v; hl; hr])
  end.

(* ================================================================= *)
(** * Verification *)

(** Arithmetic stays folded under [simpl]. *)
#[local] Arguments Z.add : simpl never.
#[local] Arguments Z.sub : simpl never.
#[local] Arguments Z.mul : simpl never.
#[local] Arguments Z.max : simpl never.
#[local] Arguments Z.opp : simpl never.
#[local] Arguments Z.div : simpl never.
#[local] Arguments Z.modulo : simpl never.
#[local] Arguments sbalance : simpl never.
#[local] Arguments numberToBuffer : simpl never.
#[local] Arguments balance : simpl never.

(** ** The version counter *)

Lemma inner_run (ops : list TxOp) :
  forall (depth : nat) (s : Store) (final : nat),
    length (transactions s) = depth ->
    inner_depth depth ops = Some final ->
    exists s', tx_run ops s = Some s' /\ version s' = version s
               /\ length (transactions s') = final.
Proof.
  induction ops as [|op rest IH]; intros depth s final Hlen Hin.
  - destruct depth; simpl in Hin; [discriminate|].
    injection Hin as <-. exists s. auto.
  - destruct depth as [|below]; simpl in Hin; [discriminate|].
    destruct s as [v vdb ndb odb txs]; simpl in Hlen.
    destruct txs as [|tx txs]; simpl in Hlen; [discriminate|].
    injection Hlen as Hlen.
    assert (Hstep : forall st d,
               length (transactions st) = d -> version st = v ->
               inner_depth d rest = Some final ->
               exists s', tx_run rest st = Some s' /\ version s' = v
                          /\ length (transactions s') = final).
    { intros st d Hd Hv Hr. destruct (IH d st final Hd Hr) as (s' & H1 & H2 & H3).
      exists s'. rewrite <- Hv. auto. }
    destruct op; simpl.
    + apply (Hstep _ (S (S below))); [simpl; lia|reflexivity|exact Hin].
    + apply (Hstep _ below); [simpl; lia|reflexivity|exact Hin].
    + destruct below as [|below']; [simpl in Hin; destruct rest; discriminate|].
      destruct txs as [|tx' txs]; simpl in Hlen; [discriminate|].
      apply (Hstep _ (S below')); [simpl; lia|reflexivity|exact Hin].
    + apply (Hstep _ (S below)); [simpl; lia|reflexivity|exact Hin].
Qed.

(** C6.  From a store with no open transaction: a synchronous top-level
    transaction leaves the version at the previous one plus one; after
    [startTransaction] and any run of inner starts, commits, reverts and
    synchronous transactions the counter is still the previous version
    plus one, the outermost commit keeps it there, and the outermost
    revert brings it back to the previous version. *)
Theorem version_monotonicity (s : Store) (body : list TxOp) :
  transactions s = [] ->
  inner_depth 1 body = Some 1%nat ->
  version (transaction (fun s' => s') s) = version s + 1
  /\ exists s1,
       tx_run body (startTransaction s) = Some s1
       /\ version s1 = version s + 1
       /\ (exists s2, commitTransaction s1 = Some s2
                      /\ version s2 = version s + 1 /\ transactions s2 = [])
       /\ (exists s2, revertTransaction s1 = Some s2
                      /\ version s2 = version s /\ transactions s2 = []).
Proof.
  intros Hs Hbody.
  assert (Hstart : version (startTransaction s) = version s + 1
                   /\ length (transactions (startTransaction s)) = 1%nat).
  { unfold startTransaction, transaction, transaction_enter.
    destruct s; simpl in *; subst; simpl; auto. }
  destruct Hstart as [Hv Hl].
  split.
  - unfold transaction, transaction_enter. rewrite Hs. reflexivity.
  - destruct (inner_run body 1 (startTransaction s) 1 Hl Hbody) as (s1 & Hrun & Hv1 & Hl1).
    exists s1. split; [exact Hrun|]. split; [lia|].
    destruct s1 as [v vdb ndb odb txs]. simpl in *.
    destruct txs as [|tx [|tx' txs]]; simpl in Hl1; try discriminate.
    split.
    + eexists. unfold commitTransaction. simpl. split; [reflexivity|]. simpl. split; [lia|reflexivity].
    + eexists. unfold revertTransaction. simpl. split; [reflexivity|]. simpl. split; [lia|reflexivity].
Qed.

Lemma version_monotonicity_witness :
  let s := new_Store in
  let body := [TxStart; TxSync; TxRevert; TxStart; TxCommit] in
  version (transaction (fun s' => s') s) = version s + 1
  /\ exists s1,
       tx_run body (startTransaction s) = Some s1
       /\ version s1 = version s + 1
       /\ (exists s2, commitTransaction s1 = Some s2
                      /\ version s2 = version s + 1 /\ transactions s2 = [])
       /\ (exists s2, revertTransaction s1 = Some s2
                      /\ version s2 = version s /\ transactions s2 = []).
Proof.
  intros s body.
  apply (version_monotonicity s body); reflexivity.
Defined.

(** ** Induction on nodes through their references *)

Section NodeInduction.
Variable P : Node -> Prop.
Hypothesis P_Leaf : forall d, P (Leaf d).
Hypothesis P_Branch :
  forall d l r,
    (forall c, deref l = Some c -> P c) ->
    (forall c, deref r = Some c -> P c) ->
    P (Branch d l r).

Lemma Node_induction : forall n, P n.
Proof.
  fix IH 1. intros [d | d l r].
  - apply P_Leaf.
  - apply P_Branch; intros c H.
    + destruct l as [|n|n]; simpl in H; try discriminate;
        injection H as <-; apply IH.
    + destruct r as [|n|n]; simpl in H; try discriminate;
        injection H as <-; apply IH.
Qed.
End NodeInduction.

(** ** Persisting *)

Section PersistFacts.
Variable digest : Buffer -> Buffer.

Lemma persist_all_clean (this : Node) :
  forall v s,
    all_clean this = true ->
    exists this',
      persist digest this v s = Ok (node_hash this, this', s)
      /\ all_clean this' = true.
Proof.
  induction this as [d | d l r IHl IHr] using Node_induction; intros v s Hc.
  - simpl in *. apply negb_true_iff in Hc. rewrite Hc.
    exists (Leaf d). split; [reflexivity|]. simpl. rewrite Hc. reflexivity.
  - simpl in Hc. apply andb_true_iff in Hc as [Hc Hr].
    apply andb_true_iff in Hc as [Hd Hl]. apply negb_true_iff in Hd.
    assert (HL : exists l' lh,
               match l with
               | Cached c =>
                   '(h, c', s') <- persist digest c None s ;; Ok (h, Cached c', s')
               | _ => Ok (leftHash d, l, s)
               end = Ok (lh, l', s)
               /\ match l' with Cached c => all_clean c | _ => true end = true).
    { destruct l as [|c|c]; try (eexists _, _; split; [reflexivity|exact Hl]).
      destruct (IHl c eq_refl None s Hl) as (c' & Hp & Hc').
      rewrite Hp. simpl. eauto. }
    destruct HL as (l' & lh & HL & HlC).
    assert (HR : exists r' rh,
               match r with
               | Cached c =>
                   '(h, c', s') <- persist digest c None s ;; Ok (h, Cached c', s')
               | _ => Ok (rightHash d, r, s)
               end = Ok (rh, r', s)
               /\ match r' with Cached c => all_clean c | _ => true end = true).
    { destruct r as [|c|c]; try (eexists _, _; split; [reflexivity|exact Hr]).
      destruct (IHr c eq_refl None s Hr) as (c' & Hp & Hc').
      rewrite Hp. simpl. eauto. }
    destruct HR as (r' & rh & HR & HrC).
    simpl. rewrite HL. simpl. rewrite HR. simpl. rewrite Hd.
    eexists. split; [reflexivity|]. simpl. rewrite HlC, HrC. reflexivity.
Qed.

Lemma persist_settles (this : Node) :
  forall v s h this' s',
    persist digest this v s = Ok (h, this', s') ->
    settled this' /\ h = node_hash this'.
Proof.
  induction this as [d | d l r IHl IHr] using Node_induction;
    intros v s h this' s' Hp.
  - simpl in Hp. destruct (leaf_isDirty d) eqn:Hd.
    + destruct (orphan_previous (leaf_hash d) (leaf_version d) s); simpl in Hp;
        [|discriminate].
      injection Hp as <- <- <-. simpl. auto.
    + injection Hp as <- <- <-. simpl. auto.
  - simpl in Hp.
    destruct (match l with
              | Cached c =>
                  '(h, c', s') <- persist digest c None s ;; Ok (h, Cached c', s')
              | _ => Ok (leftHash d, l, s)
              end) as [[[lh l'] s1]|] eqn:HL; simpl in Hp; [|discriminate].
    assert (HLs : recorded lh l' /\ match l' with Cached c => settled c | _ => True end).
    { destruct l as [|c|c]; try (injection HL as <- <- <-; simpl; auto).
      destruct (persist digest c None s) as [[[h0 c0] s0]|] eqn:Hc; simpl in HL;
        [|discriminate].
      injection HL as <- <- <-. simpl.
      destruct (IHl c eq_refl _ _ _ _ _ Hc). auto. }
    destruct (match r with
              | Cached c =>
                  '(h, c', s') <- persist digest c None s1 ;; Ok (h, Cached c', s')
              | _ => Ok (rightHash d, r, s1)
              end) as [[[rh r'] s2]|] eqn:HR; simpl in Hp; [|discriminate].
    assert (HRs : recorded rh r' /\ match r' with Cached c => settled c | _ => True end).
    { destruct r as [|c|c]; try (injection HR as <- <- <-; simpl; auto).
      destruct (persist digest c None s1) as [[[h0 c0] s0]|] eqn:Hc; simpl in HR;
        [|discriminate].
      injection HR as <- <- <-. simpl.
      destruct (IHr c eq_refl _ _ _ _ _ Hc). auto. }
    destruct HLs, HRs.
    destruct (branch_isDirty d).
    + destruct (orphan_previous (branch_hash d) (branch_version d) s2);
        simpl in Hp; [|discriminate].
      destruct lh as [lh|]; simpl in Hp; [|discriminate].
      destruct rh as [rh|]; simpl in Hp; [|discriminate].
      injection Hp as <- <- <-. simpl. auto 10.
    + injection Hp as <- <- <-. simpl. auto 10.
Qed.

Lemma persist_settled (this : Node) :
  forall v s, settled this -> persist digest this v s = Ok (node_hash this, this, s).
Proof.
  induction this as [d | d l r IHl IHr] using Node_induction; intros v s Hs.
  - simpl in *. rewrite Hs. reflexivity.
  - simpl in Hs. destruct Hs as (Hd & Hl & Hr & Hsl & Hsr).
    simpl.
    assert (HL : match l with
                 | Cached c =>
                     '(h, c', s') <- persist digest c None s ;; Ok (h, Cached c', s')
                 | _ => Ok (leftHash d, l, s)
                 end = Ok (leftHash d, l, s)).
    { destruct l as [|c|c]; try reflexivity.
      rewrite (IHl c eq_refl None s Hsl). simpl. simpl in Hl. rewrite Hl. reflexivity. }
    rewrite HL. simpl.
    assert (HR : match r with
                 | Cached c =>
                     '(h, c', s') <- persist digest c None s ;; Ok (h, Cached c', s')
                 | _ => Ok (rightHash d, r, s)
                 end = Ok (rightHash d, r, s)).
    { destruct r as [|c|c]; try reflexivity.
      rewrite (IHr c eq_refl None s Hsr). simpl. simpl in Hr. rewrite Hr. reflexivity. }
    rewrite HR. simpl. rewrite Hd. destruct d; simpl in *. subst. reflexivity.
Qed.
End PersistFacts.

(** C10.  A node built by [fromCompact] with a hash is clean; [persist] on
    a node none of whose nodes in memory is dirty returns the node's hash
    and leaves the store (nodes, orphans and all) as it was; and a
    [persist] right after a [persist] returns the same hash and changes
    neither the node nor the store. *)
Theorem persist_idempotent (digest : Buffer -> Buffer) (this : Node)
    (v v' : option Z) (s : Store) :
  (forall resolve compact hash n,
      fromCompact resolve (Some compact) (Some hash) = Some n ->
      node_isDirty n = false)
  /\ (all_clean this = true ->
      exists this', persist digest this v s = Ok (node_hash this, this', s))
  /\ (forall h this1 s1,
         persist digest this v s = Ok (h, this1, s1) ->
         all_clean this1 = true
         /\ persist digest this1 v' s1 = Ok (h, this1, s1)).
Proof.
  split; [|split].
  - intros resolve [k val ver | k ver lh rh lhash rhash] hash n H;
      simpl in H; injection H as <-; reflexivity.
  - intros Hc. destruct (persist_all_clean digest this v s Hc) as (this' & Hp & _).
    eauto.
  - intros h this1 s1 Hp.
    destruct (persist_settles digest this v s h this1 s1 Hp) as [Hs ->].
    split.
    + clear Hp. induction this1 as [d | d l r IHl IHr] using Node_induction.
      * simpl in *. rewrite Hs. reflexivity.
      * simpl in Hs. destruct Hs as (Hd & _ & _ & Hsl & Hsr). simpl. rewrite Hd. simpl.
        apply andb_true_iff. split.
        -- destruct l as [|c|c]; auto.
        -- destruct r as [|c|c]; auto.
    + apply persist_settled. exact Hs.
Qed.

Lemma persist_idempotent_witness :
  exists h this1 s1,
    persist demo_digest (new_Leaf [97] [196; 1; 49] None None) None new_Store
    = Ok (h, this1, s1)
    /\ all_clean this1 = true
    /\ persist demo_digest this1 None s1 = Ok (h, this1, s1).
Proof.
  destruct (persist demo_digest (new_Leaf [97] [196; 1; 49] None None) None new_Store)
    as [[[h this1] s1] | e] eqn:E; [|vm_compute in E; discriminate].
  exists h, this1, s1. split; [reflexivity|].
  exact (proj2 (proj2 (persist_idempotent demo_digest
                         (new_Leaf [97] [196; 1; 49] None None) None None new_Store))
           h this1 s1 E).
Defined.

(** ** The order of keys *)

Lemma Buffer_compare_spec (a : Buffer) :
  forall b,
    (Buffer_compare a b = -1 /\ Buffer_compare b a = 1 /\ a <> b)
    \/ (Buffer_compare a b = 0 /\ a = b)
    \/ (Buffer_compare a b = 1 /\ Buffer_compare b a = -1 /\ a <> b).
Proof.
  induction a as [|x a IH]; intros [|y b]; simpl.
  - right; left; auto.
  - left; repeat split; congruence.
  - right; right; repeat split; congruence.
  - destruct (Z.ltb_spec x y), (Z.ltb_spec y x); try lia.
    + left; repeat split; auto. intros E; injection E; lia.
    + right; right; repeat split; auto. intros E; injection E; lia.
    + assert (x = y) by lia. subst y.
      destruct (IH b) as [(H1 & H2 & H3) | [(H1 & H2) | (H1 & H2 & H3)]].
      * left; repeat split; congruence.
      * right; left; split; congruence.
      * right; right; repeat split; congruence.
Qed.

Lemma Buffer_compare_refl (a : Buffer) : Buffer_compare a a = 0.
Proof.
  destruct (Buffer_compare_spec a a) as [(_ & _ & H) | [(H & _) | (_ & _ & H)]];
    congruence.
Qed.

Lemma Buffer_compare_lt_trans (a : Buffer) :
  forall b c,
    Buffer_compare a b = -1 -> Buffer_compare b c = -1 ->
    Buffer_compare a c = -1.
Proof.
  induction a as [|x a IH]; intros [|y b] [|z c]; simpl; try congruence.
  destruct (Z.ltb_spec x y), (Z.ltb_spec y x), (Z.ltb_spec y z),
    (Z.ltb_spec z y), (Z.ltb_spec x z), (Z.ltb_spec z x);
    try lia; try congruence.
  apply IH.
Qed.

Lemma Buffer_compare_le_lt_trans (a b c : Buffer) :
  Buffer_compare a b <= 0 -> Buffer_compare b c = -1 -> Buffer_compare a c = -1.
Proof.
  intros H1 H2.
  destruct (Buffer_compare_spec a b) as [(H & _) | [(_ & ->) | (H & _)]];
    [|assumption|lia].
  eapply Buffer_compare_lt_trans; eassumption.
Qed.

Lemma Buffer_compare_lt_le_trans (a b c : Buffer) :
  Buffer_compare a b = -1 -> Buffer_compare b c <= 0 -> Buffer_compare a c = -1.
Proof.
  intros H1 H2.
  destruct (Buffer_compare_spec b c) as [(H & _) | [(_ & <-) | (H & _)]];
    [|assumption|lia].
  eapply Buffer_compare_lt_trans; eassumption.
Qed.

Lemma Buffer_compare_le_trans (a b c : Buffer) :
  Buffer_compare a b <= 0 -> Buffer_compare b c <= 0 -> Buffer_compare a c <= 0.
Proof.
  intros H1 H2.
  destruct (Buffer_compare_spec a b) as [(H & _) | [(_ & ->) | (H & _)]];
    [|assumption|lia].
  rewrite (Buffer_compare_lt_le_trans a b c H H2). lia.
Qed.

(** ** Balance of shapes *)

Lemma avl_height_pos (t : Skel) : avl t -> 1 <= sheight t.
Proof.
  induction t as [|k lh rh l IHl r IHr]; simpl; [lia|].
  intros (-> & -> & _ & Al & Ar). specialize (IHl Al). lia.
Qed.

Lemma avl_balance (k : Buffer) (lh rh : Z) (l r : Skel) :
  lh = sheight l -> rh = sheight r -> avl l -> avl r -> -2 <= lh - rh <= 2 ->
  avl (sbalance (SBranch k lh rh l r))
  /\ Z.max lh rh <= sheight (sbalance (SBranch k lh rh l r)) <= 1 + Z.max lh rh
  /\ (-1 <= lh - rh <= 1 ->
      sbalance (SBranch k lh rh l r) = SBranch k lh rh l r).
Proof.
  intros Hl Hr Al Ar Hb.
  pose proof (avl_height_pos l Al) as Pl.
  pose proof (avl_height_pos r Ar) as Pr.
  unfold sbalance.
  destruct (Z.eqb_spec (lh - rh) 2) as [E2|N2].
  - destruct l as [|k2 llh lrh a b]; [simpl in *; lia|].
    simpl in Al. destruct Al as (Ha & Hb' & Hab & Aa & Ab).
    pose proof (avl_height_pos a Aa). pose proof (avl_height_pos b Ab).
    destruct (Z.ltb_spec (llh - lrh) 0) as [Lt|Ge].
    + destruct b as [|k3 blh brh b1 b2]; [simpl in *; lia|].
      simpl in Ab. destruct Ab as (Hb1 & Hb2 & Hb12 & Ab1 & Ab2).
      pose proof (avl_height_pos b1 Ab1). pose proof (avl_height_pos b2 Ab2).
      simpl in *. repeat split; auto; try lia.
    + simpl in *. repeat split; auto; try lia.
  - destruct (Z.eqb_spec (lh - rh) (-2)) as [E2|N2'].
    + destruct r as [|k2 rlh rrh a b]; [simpl in *; lia|].
      simpl in Ar. destruct Ar as (Ha & Hb' & Hab & Aa & Ab).
      pose proof (avl_height_pos a Aa). pose proof (avl_height_pos b Ab).
      destruct (Z.ltb_spec 0 (rlh - rrh)) as [Lt|Ge].
      * destruct a as [|k3 alh arh a1 a2]; [simpl in *; lia|].
        simpl in Aa. destruct Aa as (Ha1 & Ha2 & Ha12 & Aa1 & Aa2).
        pose proof (avl_height_pos a1 Aa1). pose proof (avl_height_pos a2 Aa2).
        simpl in *. repeat split; auto; try lia.
      * simpl in *. repeat split; auto; try lia.
    + simpl. repeat split; auto; try lia.
Qed.

Ltac balanced_height B1 B2 B3 :=
  split; [exact B1|];
  match type of B3 with
  | (-1 <= ?bf <= 1 -> _) =>
      destruct (Z.eq_dec bf 2); [simpl in *; lia|];
      destruct (Z.eq_dec bf (-2)); [simpl in *; lia|];
      rewrite B3 by lia; simpl in *; lia
  end.

Lemma avl_sinsert (key value : Buffer) (t : Skel) :
  avl t ->
  avl (sinsert t key value)
  /\ sheight t <= sheight (sinsert t key value) <= sheight t + 1.
Proof.
  induction t as [k0 v0 | k lh rh l IHl r IHr]; intros A.
  - simpl. destruct (_ =? -1); [|destruct (_ =? 1)]; simpl; repeat split; lia.
  - simpl in A. destruct A as (Hl & Hr & Hb & Al & Ar).
    specialize (IHl Al). specialize (IHr Ar).
    destruct IHl as (Al' & Hl'), IHr as (Ar' & Hr').
    simpl. destruct (_ =? -1).
    + edestruct (avl_balance k (sheight (sinsert l key value)) rh
                   (sinsert l key value) r) as (B1 & B2 & B3); auto; try lia.
      balanced_height B1 B2 B3.
    + edestruct (avl_balance k lh (sheight (sinsert r key value)) l
                   (sinsert r key value)) as (B1 & B2 & B3); auto; try lia.
      balanced_height B1 B2 B3.
Qed.

Lemma sremove_None (key : Buffer) (t : Skel) :
  sremove t key = None -> exists k v, t = SLeaf k v /\ Buffer_compare key k = 0.
Proof.
  destruct t as [k0 v0 | k lh rh l r]; simpl.
  - destruct (Z.eqb_spec (Buffer_compare key k0) 0); [eauto|discriminate].
  - destruct (_ <? 0); [destruct (sremove l key)|destruct (sremove r key)];
      discriminate.
Qed.

Lemma avl_sremove (key : Buffer) (t : Skel) :
  forall t',
    avl t -> sremove t key = Some t' ->
    avl t' /\ sheight t - 1 <= sheight t' <= sheight t.
Proof.
  induction t as [k0 v0 | k lh rh l IHl r IHr]; intros t' A H.
  - simpl in H. destruct (_ =? 0); [discriminate|]. injection H as <-.
    simpl. split; [exact I|lia].
  - simpl in A. destruct A as (Hl & Hr & Hb & Al & Ar).
    pose proof (avl_height_pos l Al). pose proof (avl_height_pos r Ar).
    simpl in H. destruct (_ <? 0).
    + destruct (sremove l key) as [l'|] eqn:El.
      * injection H as <-. destruct (IHl l' Al eq_refl) as (Al' & Hl').
        edestruct (avl_balance k (sheight l') rh l' r) as (B1 & B2 & B3);
          auto; try lia.
        balanced_height B1 B2 B3.
      * injection H as <-. apply sremove_None in El as (k1 & v1 & -> & _).
        simpl in *. split; [exact Ar|lia].
    + destruct (sremove r key) as [r'|] eqn:Er.
      * injection H as <-. destruct (IHr r' Ar eq_refl) as (Ar' & Hr').
        edestruct (avl_balance (if Buffer_compare key k <? 1 then sleftkey r' else k)
                     lh (sheight r') l r') as (B1 & B2 & B3); auto; try lia.
        balanced_height B1 B2 B3.
      * injection H as <-. apply sremove_None in Er as (k1 & v1 & -> & _).
        simpl in *. split; [exact Al|lia].
Qed.

(** ** Order of shapes *)

Ltac cmp a b :=
  let H1 := fresh "C" in
  let H2 := fresh "C'" in
  let H3 := fresh "N" in
  destruct (Buffer_compare_spec a b) as [(H1 & H2 & H3) | [(H1 & H3) | (H1 & H2 & H3)]];
  rewrite ?H1, ?H2 in *.

Ltac order :=
  solve
    [ subst; congruence
    | match goal with
      | H1 : Buffer_compare ?a ?b = -1, H2 : Buffer_compare ?b ?c = -1 |- _ =>
          pose proof (Buffer_compare_lt_trans _ _ _ H1 H2); congruence
      end ].

Lemma skeys_nonempty (t : Skel) : skeys t <> [].
Proof.
  induction t as [|k lh rh l IHl r IHr]; simpl; [discriminate|].
  destruct (skeys l); [congruence|discriminate].
Qed.

Lemma sleftkey_hd (t : Skel) : forall d, sleftkey t = hd d (skeys t).
Proof.
  induction t as [|k lh rh l IHl r IHr]; intros d; simpl; [reflexivity|].
  rewrite (IHl d). pose proof (skeys_nonempty l). destruct (skeys l); [congruence|reflexivity].
Qed.

Lemma sleftkey_in (t : Skel) : In (sleftkey t) (skeys t).
Proof.
  induction t as [|k lh rh l IHl r IHr]; simpl; [auto|].
  apply in_or_app. auto.
Qed.

Lemma skeys_srotL (t : Skel) : skeys (srotL t) = skeys t.
Proof.
  destruct t as [|k lh rh a [|k2 lh2 rh2 b c]]; simpl; auto.
  symmetry. apply app_assoc.
Qed.

Lemma skeys_srotR (t : Skel) : skeys (srotR t) = skeys t.
Proof.
  destruct t as [|k lh rh [|k2 lh2 rh2 a b] c]; simpl; auto.
  apply app_assoc.
Qed.

Lemma skeys_sbalance (t : Skel) : skeys (sbalance t) = skeys t.
Proof.
  destruct t as [|k lh rh l r]; [reflexivity|]. unfold sbalance.
  destruct (_ =? 2).
  - destruct l as [|k2 llh lrh a b]; [reflexivity|].
    destruct (_ <? 0); rewrite skeys_srotR; [|reflexivity].
    cbn [skeys]. rewrite skeys_srotL. reflexivity.
  - destruct (_ =? -2); [|reflexivity].
    destruct r as [|k2 rlh rrh a b]; [reflexivity|].
    destruct (0 <? _); rewrite skeys_srotL; [|reflexivity].
    cbn [skeys]. rewrite skeys_srotR. reflexivity.
Qed.

Lemma sleftkey_sbalance (t : Skel) : sleftkey (sbalance t) = sleftkey t.
Proof. rewrite !(sleftkey_hd _ []), skeys_sbalance. reflexivity. Qed.

Lemma bst_min (t : Skel) :
  bst t -> Forall (fun x => Buffer_compare (sleftkey t) x <= 0) (skeys t).
Proof.
  induction t as [k v|k lh rh l IHl r IHr]; simpl.
  - intros _. constructor; [|constructor]. rewrite Buffer_compare_refl. lia.
  - intros (Hl & Hr & Hk & Bl & Br). apply Forall_app. split; [auto|].
    pose proof (sleftkey_in l) as Hin.
    rewrite Forall_forall in Hl. specialize (Hl _ Hin).
    eapply Forall_impl; [|exact Hr]. intros x Hx. simpl in Hx.
    rewrite (Buffer_compare_lt_le_trans _ _ _ Hl Hx). lia.
Qed.

Lemma bst_srotL (t : Skel) : bst t -> bst (srotL t).
Proof.
  destruct t as [|k lh rh a [|k2 lh2 rh2 b c]]; simpl; auto.
  intros (Ha & Hbc & Hk & Ba & Hb & Hc & Hk2 & Bb & Bc).
  apply Forall_app in Hbc as [Hb' Hc'].
  assert (Hkk2 : Buffer_compare k k2 = -1).
  { rewrite Forall_forall in Hb. apply Hb. rewrite <- Hk. apply sleftkey_in. }
  repeat split; auto.
  apply Forall_app. split; [|exact Hb].
  eapply Forall_impl; [|exact Ha]. intros x Hx. simpl in Hx.
  eapply Buffer_compare_lt_trans; eassumption.
Qed.

Lemma bst_srotR (t : Skel) : bst t -> bst (srotR t).
Proof.
  destruct t as [|k lh rh [|k2 lh2 rh2 a b] c]; simpl; auto.
  intros (Hab & Hc & Hk & (Ha & Hb & Hk2 & Ba & Bb) & Bc).
  apply Forall_app in Hab as [Ha' Hb'].
  assert (Hk2k : Buffer_compare k2 k = -1).
  { rewrite Forall_forall in Hb'. apply Hb'. rewrite <- Hk2. apply sleftkey_in. }
  repeat split; auto.
  apply Forall_app. split; [exact Hb|].
  eapply Forall_impl; [|exact Hc]. intros x Hx. simpl in Hx.
  rewrite (Buffer_compare_lt_le_trans _ _ _ Hk2k Hx). lia.
Qed.

Lemma bst_sbalance (t : Skel) : bst t -> bst (sbalance t).
Proof.
  destruct t as [|k lh rh l r]; [auto|]. unfold sbalance. intros B.
  destruct (_ =? 2).
  - destruct l as [|k2 llh lrh a b]; [exact B|].
    destruct (_ <? 0); apply bst_srotR; [|exact B].
    destruct B as (Hl & Hr & Hk & Bl & Br).
    split; [rewrite skeys_srotL; exact Hl|]. repeat split; auto.
    apply bst_srotL. exact Bl.
  - destruct (_ =? -2); [|exact B].
    destruct r as [|k2 rlh rrh a b]; [exact B|].
    destruct (0 <? _); apply bst_srotL; [|exact B].
    destruct B as (Hl & Hr & Hk & Bl & Br).
    split; [exact Hl|]. split; [rewrite skeys_srotR; exact Hr|].
    split; [|split; [exact Bl|apply bst_srotR; exact Br]].
    rewrite !(sleftkey_hd _ []), skeys_srotR in *. exact Hk.
Qed.

Lemma skeys_sinsert (key value : Buffer) (t : Skel) :
  forall x, In x (skeys (sinsert t key value)) <-> x = key \/ In x (skeys t).
Proof.
  induction t as [k0 v0|k lh rh l IHl r IHr]; intros x; simpl.
  - cmp key k0; simpl; intuition congruence.
  - destruct (_ =? -1); rewrite skeys_sbalance; simpl; rewrite !in_app_iff;
      [rewrite IHl|rewrite IHr]; tauto.
Qed.

Lemma sleftkey_sinsert (key value : Buffer) (t : Skel) :
  bst t ->
  sleftkey (sinsert t key value)
  = if Buffer_compare key (sleftkey t) =? -1 then key else sleftkey t.
Proof.
  induction t as [k0 v0|k lh rh l IHl r IHr]; simpl.
  - intros _. cmp key k0; reflexivity.
  - intros (Hl & Hr & Hk & Bl & Br).
    destruct (Buffer_compare key k =? -1) eqn:E; rewrite sleftkey_sbalance; simpl.
    + exact (IHl Bl).
    + pose proof (sleftkey_in l) as Hin.
      rewrite Forall_forall in Hl. specialize (Hl _ Hin).
      cmp key k; try discriminate.
      * subst k. cmp key (sleftkey l); try reflexivity; try discriminate; congruence.
      * cmp key (sleftkey l); try reflexivity.
        pose proof (Buffer_compare_lt_trans _ _ _ C0 Hl). congruence.
Qed.

Lemma bst_sinsert (key value : Buffer) (t : Skel) :
  bst t -> bst (sinsert t key value).
Proof.
  induction t as [k0 v0|k lh rh l IHl r IHr]; simpl.
  - intros _. cmp key k0; simpl; auto.
    + repeat split; auto. constructor; [|constructor].
      rewrite Buffer_compare_refl. lia.
    + repeat split; auto. constructor; [|constructor].
      rewrite Buffer_compare_refl. lia.
  - intros (Hl & Hr & Hk & Bl & Br).
    destruct (Buffer_compare key k =? -1) eqn:E; apply bst_sbalance; simpl.
    + repeat split; auto.
      apply Forall_forall. intros x Hx. apply skeys_sinsert in Hx as [->|Hx].
      * apply Z.eqb_eq. exact E.
      * rewrite Forall_forall in Hl. auto.
    + assert (Hkey : Buffer_compare k key <= 0).
      { cmp key k; try discriminate; try lia. rewrite <- N, Buffer_compare_refl. lia. }
      repeat split; auto.
      * apply Forall_forall. intros x Hx. apply skeys_sinsert in Hx as [->|Hx].
        -- exact Hkey.
        -- rewrite Forall_forall in Hr. auto.
      * rewrite (sleftkey_sinsert _ _ _ Br), Hk.
        cmp key k; try reflexivity; try discriminate; lia.
Qed.

Lemma skeys_sremove (key : Buffer) (t : Skel) :
  forall t' x, sremove t key = Some t' -> In x (skeys t') -> In x (skeys t).
Proof.
  induction t as [k0 v0|k lh rh l IHl r IHr]; intros t' x H Hx; simpl in H.
  - destruct (_ =? 0); [discriminate|]. injection H as <-. exact Hx.
  - simpl. apply in_or_app. destruct (_ <? 0).
    + destruct (sremove l key) as [l'|]; injection H as <-.
      * rewrite skeys_sbalance in Hx. simpl in Hx.
        apply in_app_or in Hx as [Hx|Hx]; eauto.
      * auto.
    + destruct (sremove r key) as [r'|]; injection H as <-.
      * rewrite skeys_sbalance in Hx. simpl in Hx.
        apply in_app_or in Hx as [Hx|Hx]; eauto.
      * auto.
Qed.

Lemma sleftkey_sremove (key : Buffer) (t : Skel) :
  forall t',
    bst t -> sremove t key = Some t' ->
    Buffer_compare (sleftkey t) key = -1 ->
    sleftkey t' = sleftkey t.
Proof.
  induction t as [k0 v0|k lh rh l IHl r IHr]; intros t' B H Hlt; simpl in H.
  - destruct (_ =? 0); [discriminate|]. injection H as <-. reflexivity.
  - simpl in *. destruct B as (Hl & Hr & Hk & Bl & Br). destruct (_ <? 0).
    + destruct (sremove l key) as [l'|] eqn:El; injection H as <-.
      * rewrite sleftkey_sbalance. simpl. eauto.
      * apply sremove_None in El as (k1 & v1 & -> & E). simpl in Hlt.
        cmp key k1; congruence.
    + destruct (sremove r key) as [r'|]; injection H as <-.
      * rewrite sleftkey_sbalance. reflexivity.
      * reflexivity.
Qed.

Lemma bst_sremove (key : Buffer) (t : Skel) :
  forall t', bst t -> sremove t key = Some t' -> bst t'.
Proof.
  induction t as [k0 v0|k lh rh l IHl r IHr]; intros t' B H; simpl in H.
  - destruct (_ =? 0); [discriminate|]. injection H as <-. exact I.
  - simpl in B. destruct B as (Hl & Hr & Hk & Bl & Br).
    destruct (Buffer_compare key k <? 0) eqn:E.
    + destruct (sremove l key) as [l'|] eqn:El; injection H as <-; [|exact Br].
      apply bst_sbalance. simpl. repeat split; eauto.
      apply Forall_forall. intros x Hx.
      rewrite Forall_forall in Hl. apply Hl. eapply skeys_sremove; eassumption.
    + destruct (sremove r key) as [r'|] eqn:Er; injection H as <-; [|exact Bl].
      apply bst_sbalance. simpl.
      assert (Br' : bst r') by eauto.
      assert (Hsub : forall x, In x (skeys r') -> Buffer_compare k x <= 0).
      { intros x Hx. rewrite Forall_forall in Hr. apply Hr.
        eapply skeys_sremove; eassumption. }
      destruct (Buffer_compare key k <? 1) eqn:E1.
      * repeat split; auto.
        -- eapply Forall_impl; [|exact Hl]. intros x Hx. simpl in Hx.
           eapply Buffer_compare_lt_le_trans; [exact Hx|].
           apply Hsub. apply sleftkey_in.
        -- apply bst_min. exact Br'.
      * repeat split; auto.
        -- apply Forall_forall. exact Hsub.
        -- rewrite <- Hk. eapply sleftkey_sremove; [exact Br|exact Er|].
           rewrite Hk. cmp key k; try reflexivity; discriminate.
Qed.

(** ** Lookup in shapes *)

Lemma sfind_in (t : Skel) (x v : Buffer) : sfind t x = Some v -> In x (skeys t).
Proof.
  induction t as [k0 v0|k lh rh l IHl r IHr]; simpl.
  - cmp x k0; try discriminate. auto.
  - intros H. apply in_or_app. destruct (_ <? 0); auto.
Qed.

Lemma sfind_below (t : Skel) (x k : Buffer) :
  Forall (fun y => Buffer_compare k y <= 0) (skeys t) ->
  Buffer_compare x k = -1 -> sfind t x = None.
Proof.
  intros Hall Hx. destruct (sfind t x) eqn:E; [|reflexivity].
  apply sfind_in in E. rewrite Forall_forall in Hall. specialize (Hall _ E).
  cmp x k; try discriminate; lia.
Qed.

Lemma sfind_above (t : Skel) (x k : Buffer) :
  Forall (fun y => Buffer_compare y k = -1) (skeys t) ->
  Buffer_compare k x <= 0 -> sfind t x = None.
Proof.
  intros Hall Hx. destruct (sfind t x) eqn:E; [|reflexivity].
  apply sfind_in in E. rewrite Forall_forall in Hall. specialize (Hall _ E).
  cmp k x; try lia; try congruence.
Qed.

Lemma sfind_srotL (t : Skel) (x : Buffer) : bst t -> sfind (srotL t) x = sfind t x.
Proof.
  destruct t as [|k lh rh a [|k2 lh2 rh2 b c]]; simpl; auto.
  intros (Ha & Hbc & Hk & Ba & Hb & Hc & Hk2 & Bb & Bc).
  assert (Hkk2 : Buffer_compare k k2 = -1).
  { rewrite Forall_forall in Hb. apply Hb. rewrite <- Hk. apply sleftkey_in. }
  cmp x k2; simpl; try reflexivity; cmp x k; simpl; try reflexivity; order.
Qed.

Lemma sfind_srotR (t : Skel) (x : Buffer) : bst t -> sfind (srotR t) x = sfind t x.
Proof.
  destruct t as [|k lh rh [|k2 lh2 rh2 a b] c]; simpl; auto.
  intros (Hab & Hc & Hk & (Ha & Hb & Hk2 & Ba & Bb) & Bc).
  apply Forall_app in Hab as [Ha' Hb'].
  assert (Hk2k : Buffer_compare k2 k = -1).
  { rewrite Forall_forall in Hb'. apply Hb'. rewrite <- Hk2. apply sleftkey_in. }
  cmp x k2; simpl; cmp x k; simpl; try reflexivity; order.
Qed.

Lemma sfind_sbalance (t : Skel) (x : Buffer) :
  bst t -> sfind (sbalance t) x = sfind t x.
Proof.
  destruct t as [|k lh rh l r]; [auto|]. unfold sbalance. intros B.
  destruct (_ =? 2).
  - destruct l as [|k2 llh lrh a b]; [reflexivity|].
    destruct (_ <? 0); [|apply sfind_srotR; exact B].
    destruct B as (Hl & Hr & Hk & Bl & Br).
    rewrite sfind_srotR.
    + cbn [sfind]. rewrite sfind_srotL by exact Bl. reflexivity.
    + split; [rewrite skeys_srotL; exact Hl|]. repeat split; auto.
      apply bst_srotL. exact Bl.
  - destruct (_ =? -2); [|reflexivity].
    destruct r as [|k2 rlh rrh a b]; [reflexivity|].
    destruct (0 <? _); [|apply sfind_srotL; exact B].
    destruct B as (Hl & Hr & Hk & Bl & Br).
    rewrite sfind_srotL.
    + cbn [sfind]. rewrite sfind_srotR by exact Br. reflexivity.
    + split; [exact Hl|]. split; [rewrite skeys_srotR; exact Hr|].
      split; [|split; [exact Bl|apply bst_srotR; exact Br]].
      rewrite !(sleftkey_hd _ []), skeys_srotR in *. exact Hk.
Qed.

Lemma sfind_sinsert (key value x : Buffer) (t : Skel) :
  bst t ->
  sfind (sinsert t key value) x
  = if Buffer_compare x key =? 0 then Some value else sfind t x.
Proof.
  induction t as [k0 v0|k lh rh l IHl r IHr]; intros B.
  - simpl. cmp key k0; simpl; cmp x k0; simpl; cmp x key; simpl;
      try reflexivity; order.
  - pose proof (bst_sinsert key value _ B) as B'.
    simpl in B. destruct B as (Hl & Hr & Hk & Bl & Br).
    simpl. simpl in B'. destruct (Buffer_compare key k =? -1) eqn:E.
    + rewrite sfind_sbalance.
      * simpl. rewrite (IHl Bl). apply Z.eqb_eq in E.
        cmp x k; simpl; try reflexivity; cmp x key; simpl; try reflexivity; order.
      * simpl. repeat split; auto; [|apply bst_sinsert; exact Bl].
        apply Forall_forall. intros y Hy. apply skeys_sinsert in Hy as [->|Hy].
        -- apply Z.eqb_eq. exact E.
        -- rewrite Forall_forall in Hl. auto.
    + assert (Hkey : Buffer_compare k key <= 0).
      { cmp key k; try discriminate; try lia. rewrite <- N, Buffer_compare_refl. lia. }
      rewrite sfind_sbalance.
      * simpl. rewrite (IHr Br).
        cmp x k; simpl; try reflexivity; cmp x key; simpl; try reflexivity.
        subst x. cmp k key; try lia; order.
      * simpl. repeat split; auto; [| |apply bst_sinsert; exact Br].
        -- apply Forall_forall. intros y Hy. apply skeys_sinsert in Hy as [->|Hy].
           ++ exact Hkey.
           ++ rewrite Forall_forall in Hr. auto.
        -- rewrite (sleftkey_sinsert _ _ _ Br), Hk.
           cmp key k; try reflexivity; try discriminate; lia.
Qed.

Lemma sfind_sremove (key x : Buffer) (t : Skel) :
  forall t',
    bst t -> sremove t key = Some t' ->
    sfind t' x = if Buffer_compare x key =? 0 then None else sfind t x.
Proof.
  induction t as [k0 v0|k lh rh l IHl r IHr]; intros t' B H.
  - simpl in H. cmp key k0; try discriminate; injection H as <-; simpl;
      cmp x k0; simpl; cmp x key; simpl; try reflexivity; order.
  - pose proof (bst_sremove key _ t' B H) as B'.
    simpl in B. destruct B as (Hl & Hr & Hk & Bl & Br).
    simpl in H. destruct (Buffer_compare key k <? 0) eqn:E.
    + assert (Ek : Buffer_compare key k = -1) by (cmp key k; try discriminate; reflexivity).
      destruct (sremove l key) as [l'|] eqn:El; injection H as <-.
      * rewrite sfind_sbalance.
        -- simpl. rewrite (IHl l' Bl eq_refl).
           cmp x k; simpl; try reflexivity; cmp x key; simpl; try reflexivity; order.
        -- simpl. repeat split; eauto using bst_sremove.
           apply Forall_forall. intros y Hy. rewrite Forall_forall in Hl.
           apply Hl. eapply skeys_sremove; eassumption.
      * apply sremove_None in El as (k1 & v1 & -> & E1).
        assert (key = k1) by (cmp key k1; try discriminate; auto). subst k1.
        simpl. destruct (Buffer_compare x k <? 0) eqn:Exk.
        -- rewrite (sfind_below r x k Hr)
             by (cmp x k; try discriminate; reflexivity).
           destruct (Buffer_compare x key =? 0); reflexivity.
        -- cmp x key; simpl; try reflexivity.
           subst x. rewrite Ek in Exk. discriminate.
    + assert (Ek : Buffer_compare k key <= 0).
      { cmp key k; try discriminate; try lia. rewrite <- N, Buffer_compare_refl. lia. }
      destruct (sremove r key) as [r'|] eqn:Er; injection H as <-.
      * assert (Br' : bst r') by eauto using bst_sremove.
        assert (Hsub : Forall (fun y => Buffer_compare k y <= 0) (skeys r')).
        { apply Forall_forall. intros y Hy. rewrite Forall_forall in Hr. apply Hr.
          eapply skeys_sremove; eassumption. }
        pose proof (IHr r' Br eq_refl) as IH.
        destruct (Buffer_compare key k <? 1) eqn:E1.
        -- assert (key = k) by (cmp key k; try discriminate; auto). subst key.
           rewrite sfind_sbalance.
           ++ simpl. destruct (Buffer_compare x (sleftkey r') <? 0) eqn:Ex.
              ** assert (Cx : Buffer_compare x (sleftkey r') = -1)
                   by (cmp x (sleftkey r'); try discriminate; reflexivity).
                 assert (Fr' : sfind r' x = None)
                   by (eapply sfind_below; [apply bst_min; exact Br'|exact Cx]).
                 rewrite Fr' in IH.
                 cmp x k; simpl in *.
                 --- reflexivity.
                 --- eapply sfind_above; [exact Hl|].
                     rewrite N, Buffer_compare_refl. lia.
                 --- rewrite <- IH. eapply sfind_above; [exact Hl|]. lia.
              ** rewrite IH.
                 assert (Hkx : Buffer_compare k x <= 0).
                 { eapply Buffer_compare_le_trans.
                   - rewrite Forall_forall in Hsub. apply Hsub. apply sleftkey_in.
                   - cmp x (sleftkey r'); try discriminate; try lia.
                     rewrite N, Buffer_compare_refl. lia. }
                 cmp x k; simpl; try reflexivity. lia.
           ++ simpl. repeat split; auto; [|apply bst_min; exact Br'].
              eapply Forall_impl; [|exact Hl]. intros y Hy. simpl in Hy.
              eapply Buffer_compare_lt_le_trans; [exact Hy|].
              rewrite Forall_forall in Hsub. apply Hsub. apply sleftkey_in.
        -- assert (Hgt : Buffer_compare k key = -1)
             by (cmp key k; try discriminate; reflexivity).
           rewrite sfind_sbalance.
           ++ simpl. rewrite IH.
              cmp x k; simpl; try reflexivity; cmp x key; simpl; try reflexivity; order.
           ++ simpl. repeat split; auto.
              rewrite <- Hk. eapply sleftkey_sremove; [exact Br|exact Er|].
              rewrite Hk. exact Hgt.
      * apply sremove_None in Er as (k1 & v1 & -> & E1).
        assert (key = k1) by (cmp key k1; try discriminate; auto). subst k1.
        simpl in Hk. subst k. simpl.
        cmp x key; simpl; try reflexivity.
        -- eapply sfind_above; [exact Hl|]. rewrite N, Buffer_compare_refl. lia.
        -- eapply sfind_above; [exact Hl|]. lia.
Qed.

(** ** Nodes and their shapes *)

Lemma skel_Branch (d : BranchData) (l r : Ref) :
  skel (Branch d l r)
  = match ref_skel l, ref_skel r with
    | Some tl, Some tr =>
        Some (SBranch (branch_key d) (leftHeight d) (rightHeight d) tl tr)
    | _, _ => None
    end.
Proof. destruct l, r; reflexivity. Qed.

Lemma skel_Branch_inv (d : BranchData) (l r : Ref) (t : Skel) :
  skel (Branch d l r) = Some t ->
  exists tl tr,
    ref_skel l = Some tl /\ ref_skel r = Some tr
    /\ t = SBranch (branch_key d) (leftHeight d) (rightHeight d) tl tr.
Proof.
  rewrite skel_Branch. destruct (ref_skel l) as [tl|]; [|discriminate].
  destruct (ref_skel r) as [tr|]; [|discriminate].
  intros H. injection H as <-. eauto.
Qed.

Lemma ref_skel_deref (r : Ref) (t : Skel) :
  ref_skel r = Some t -> exists c, deref r = Some c /\ skel c = Some t.
Proof. destruct r as [|c|c]; simpl; [discriminate|eauto|eauto]. Qed.

Lemma skel_height (n : Node) (t : Skel) :
  skel n = Some t -> node_height n = sheight t.
Proof.
  destruct n as [d|d l r].
  - simpl. intros H. injection H as <-. reflexivity.
  - intros H. apply skel_Branch_inv in H as (tl & tr & _ & _ & ->). reflexivity.
Qed.

Lemma skel_is_branch (n : Node) (k : Buffer) (lh rh : Z) (tl tr : Skel) :
  skel n = Some (SBranch k lh rh tl tr) ->
  exists d l r,
    n = Branch d l r /\ branch_key d = k /\ leftHeight d = lh /\ rightHeight d = rh
    /\ ref_skel l = Some tl /\ ref_skel r = Some tr.
Proof.
  destruct n as [d|d l r]; [discriminate|].
  intros H. apply skel_Branch_inv in H as (tl' & tr' & Hl & Hr & E).
  injection E as -> -> -> -> ->. exists d, l, r. auto 10.
Qed.

Lemma skel_set_left (this node : Node) k lh rh tl tr tl' :
  skel this = Some (SBranch k lh rh tl tr) -> skel node = Some tl' ->
  skel (set_left this node) = Some (SBranch k (sheight tl') rh tl' tr).
Proof.
  intros H Hn. apply skel_is_branch in H as (d & l & r & -> & <- & <- & <- & Hl & Hr).
  unfold set_left. rewrite skel_Branch. simpl. rewrite Hn, Hr.
  rewrite (skel_height _ _ Hn). reflexivity.
Qed.

Lemma skel_set_right (this node : Node) k lh rh tl tr tr' :
  skel this = Some (SBranch k lh rh tl tr) -> skel node = Some tr' ->
  skel (set_right this node) = Some (SBranch k lh (sheight tr') tl tr').
Proof.
  intros H Hn. apply skel_is_branch in H as (d & l & r & -> & <- & <- & <- & Hl & Hr).
  unfold set_right. rewrite skel_Branch. simpl. rewrite Hn, Hl.
  rewrite (skel_height _ _ Hn). reflexivity.
Qed.

Lemma skel_leftRotation (this : Node) k lh rh a k2 lh2 rh2 b c :
  skel this = Some (SBranch k lh rh a (SBranch k2 lh2 rh2 b c)) ->
  lh2 = sheight b ->
  exists n,
    leftRotation this = Ok n
    /\ skel n = Some (srotL (SBranch k lh rh a (SBranch k2 lh2 rh2 b c))).
Proof.
  intros H Hb. apply skel_is_branch in H as (d & l & r & -> & <- & <- & <- & Hl & Hr).
  apply ref_skel_deref in Hr as (root & Hroot & Sroot).
  pose proof Sroot as Sroot'.
  apply skel_is_branch in Sroot' as (rd & rl & rr & -> & <- & <- & <- & Hrl & Hrr).
  unfold leftRotation. rewrite Hroot. eexists. split; [reflexivity|].
  assert (Hthis : skel match rl with
                       | Cached n => set_right (Branch d l r) n
                       | _ => Branch (mkBranch (branch_key d) (branch_version d)
                                        (leftHeight d) (leftHeight rd) (leftHash d)
                                        (leftHash rd) (branch_hash d) true) l rl
                       end
                  = Some (SBranch (branch_key d) (leftHeight d) (sheight b) a b)).
  { destruct rl as [|n|n]; simpl in Hrl; try discriminate.
    - rewrite skel_Branch. simpl. rewrite Hl, Hrl, Hb. reflexivity.
    - unfold set_right. rewrite skel_Branch. simpl. rewrite Hl, Hrl.
      rewrite (skel_height _ _ Hrl). reflexivity. }
  rewrite (skel_set_left _ _ _ _ _ _ _ _ Sroot Hthis). reflexivity.
Qed.

Lemma skel_rightRotation (this : Node) k lh rh k2 lh2 rh2 a b c :
  skel this = Some (SBranch k lh rh (SBranch k2 lh2 rh2 a b) c) ->
  rh2 = sheight b ->
  exists n,
    rightRotation this = Ok n
    /\ skel n = Some (srotR (SBranch k lh rh (SBranch k2 lh2 rh2 a b) c)).
Proof.
  intros H Hb. apply skel_is_branch in H as (d & l & r & -> & <- & <- & <- & Hl & Hr).
  apply ref_skel_deref in Hl as (root & Hroot & Sroot).
  pose proof Sroot as Sroot'.
  apply skel_is_branch in Sroot' as (rd & rl & rr & -> & <- & <- & <- & Hrl & Hrr).
  unfold rightRotation. rewrite Hroot. eexists. split; [reflexivity|].
  assert (Hthis : skel match rr with
                       | Cached n => set_left (Branch d l r) n
                       | _ => Branch (mkBranch (branch_key d) (branch_version d)
                                        (rightHeight rd) (rightHeight d) (rightHash rd)
                                        (rightHash d) (branch_hash d) true) rr r
                       end
                  = Some (SBranch (branch_key d) (sheight b) (rightHeight d) b c)).
  { destruct rr as [|n|n]; simpl in Hrr; try discriminate.
    - rewrite skel_Branch. simpl. rewrite Hr, Hrr, Hb. reflexivity.
    - unfold set_left. rewrite skel_Branch. simpl. rewrite Hr, Hrr.
      rewrite (skel_height _ _ Hrr). reflexivity. }
  rewrite (skel_set_right _ _ _ _ _ _ _ _ Sroot Hthis). reflexivity.
Qed.

Lemma skel_balance (this : Node) k lh rh l r :
  skel this = Some (SBranch k lh rh l r) ->
  lh = sheight l -> rh = sheight r -> avl l -> avl r -> -2 <= lh - rh <= 2 ->
  exists n,
    balance this = Ok n /\ skel n = Some (sbalance (SBranch k lh rh l r)).
Proof.
  intros H Hl Hr Al Ar Hb.
  pose proof (avl_height_pos l Al) as Pl. pose proof (avl_height_pos r Ar) as Pr.
  pose proof H as H'.
  apply skel_is_branch in H' as (d & l0 & r0 & -> & Ek & Elh & Erh & Sl & Sr).
  unfold balance, sbalance, balanceFactor. rewrite Elh, Erh.
  destruct (Z.eqb_spec (lh - rh) 2) as [E2|N2].
  - destruct l as [|k2 llh lrh a b]; [simpl in *; lia|].
    apply ref_skel_deref in Sl as (branch & Hbranch & Sbranch).
    pose proof Sbranch as Sb'.
    apply skel_is_branch in Sb' as (bd & bl & br & -> & _ & Ellh & Elrh & _ & _).
    rewrite Hbranch. unfold balanceFactor. rewrite Ellh, Elrh.
    simpl in Al. destruct Al as (Ha & Hb' & Hab & Aa & Ab).
    destruct (Z.ltb_spec (llh - lrh) 0) as [Lt|Ge].
    + pose proof (avl_height_pos a Aa).
      destruct b as [|k3 blh brh b1 b2]; [simpl in *; lia|].
      simpl in Ab. destruct Ab as (Hb1 & Hb2 & _).
      destruct (skel_leftRotation _ _ _ _ _ _ _ _ _ _ Sbranch Hb1)
        as (rotated & Hrot & Srot).
      rewrite Hrot. simpl bind.
      pose proof (skel_set_left _ _ _ _ _ _ _ _ H Srot) as Sthis.
      simpl srotL in Sthis.
      eapply skel_rightRotation in Sthis as (n & Hn & Sn); [|exact Hb2].
      exists n. split; [exact Hn|]. exact Sn.
    + simpl bind. eapply skel_rightRotation in H as (n & Hn & Sn); [|exact Hb'].
      exists n. split; [exact Hn|exact Sn].
  - destruct (Z.eqb_spec (lh - rh) (-2)) as [E2|N2'].
    + destruct r as [|k2 rlh rrh a b]; [simpl in *; lia|].
      apply ref_skel_deref in Sr as (branch & Hbranch & Sbranch).
      pose proof Sbranch as Sb'.
      apply skel_is_branch in Sb' as (bd & bl & br & -> & _ & Erlh & Errh & _ & _).
      rewrite Hbranch. unfold balanceFactor. rewrite Erlh, Errh.
      simpl in Ar. destruct Ar as (Ha & Hb' & Hab & Aa & Ab).
      destruct (Z.ltb_spec 0 (rlh - rrh)) as [Lt|Ge].
      * pose proof (avl_height_pos b Ab).
        destruct a as [|k3 alh arh a1 a2]; [simpl in *; lia|].
        simpl in Aa. destruct Aa as (Ha1 & Ha2 & _).
        destruct (skel_rightRotation _ _ _ _ _ _ _ _ _ _ Sbranch Ha2)
          as (rotated & Hrot & Srot).
        rewrite Hrot. simpl bind.
        pose proof (skel_set_right _ _ _ _ _ _ _ _ H Srot) as Sthis.
        simpl srotR in Sthis.
        eapply skel_leftRotation in Sthis as (n & Hn & Sn); [|exact Ha1].
        exists n. split; [exact Hn|]. exact Sn.
      * simpl bind. eapply skel_leftRotation in H as (n & Hn & Sn); [|exact Ha].
        exists n. split; [exact Hn|exact Sn].
    + eexists. split; [reflexivity|exact H].
Qed.

Lemma skel_insert (key value : Buffer) (this : Node) :
  forall t,
    skel this = Some t -> avl t ->
    exists n, insert this key value = Ok n /\ skel n = Some (sinsert t key value).
Proof.
  induction this as [d|d l r IHl IHr] using Node_induction; intros t H A.
  - simpl in H. injection H as <-. simpl.
    destruct (_ =? -1); [|destruct (_ =? 1)]; eexists; split; reflexivity.
  - pose proof H as H'.
    apply skel_Branch_inv in H' as (tl & tr & Sl & Sr & ->).
    simpl in A. destruct A as (Hl & Hr & Hb & Al & Ar).
    simpl. destruct (Buffer_compare key (branch_key d) =? -1).
    + apply ref_skel_deref in Sl as (c & Hc & Sc).
      destruct (IHl c Hc tl Sc Al) as (c' & Hins & Sc').
      destruct (avl_sinsert key value tl Al) as (Al' & Hh).
      pose proof (skel_set_left _ _ _ _ _ _ _ _ H Sc') as Sthis.
      eapply skel_balance in Sthis as (n & Hn & Sn); auto; try lia.
      exists n. split; [|exact Sn].
      destruct l as [|x|x]; simpl in Hc; try discriminate; injection Hc as ->;
        rewrite Hins; simpl; exact Hn.
    + apply ref_skel_deref in Sr as (c & Hc & Sc).
      destruct (IHr c Hc tr Sc Ar) as (c' & Hins & Sc').
      destruct (avl_sinsert key value tr Ar) as (Ar' & Hh).
      pose proof (skel_set_right _ _ _ _ _ _ _ _ H Sc') as Sthis.
      eapply skel_balance in Sthis as (n & Hn & Sn); auto; try lia.
      exists n. split; [|exact Sn].
      destruct r as [|x|x]; simpl in Hc; try discriminate; injection Hc as ->;
        rewrite Hins; simpl; exact Hn.
Qed.

Lemma skel_leftmost (this : Node) :
  forall t,
    skel this = Some t ->
    exists m, leftmost this = Ok m /\ node_key m = sleftkey t
              /\ exists d, m = Leaf d.
Proof.
  induction this as [d|d l r IHl IHr] using Node_induction; intros t H.
  - simpl in H. injection H as <-. exists (Leaf d). simpl. eauto.
  - apply skel_Branch_inv in H as (tl & tr & Sl & Sr & ->).
    apply ref_skel_deref in Sl as (c & Hc & Sc).
    destruct (IHl c Hc tl Sc) as (m & Hm & Hk & Hd).
    exists m. simpl. split; [|auto].
    destruct l as [|x|x]; simpl in Hc; try discriminate; injection Hc as ->;
      exact Hm.
Qed.

Lemma skel_find (key : Buffer) (this : Node) :
  forall t,
    skel this = Some t ->
    exists leaf,
      find this key = Ok leaf /\ option_map leaf_value leaf = sfind t key
      /\ (forall d, leaf = Some d -> Buffer_compare key (leaf_key d) = 0).
Proof.
  induction this as [d|d l r IHl IHr] using Node_induction; intros t H.
  - simpl in H. injection H as <-. simpl.
    destruct (Z.eqb_spec (Buffer_compare key (leaf_key d)) 0); eexists;
      (split; [reflexivity|split; [reflexivity|]]); intros d' E; [|discriminate].
    injection E as <-. assumption.
  - apply skel_Branch_inv in H as (tl & tr & Sl & Sr & ->).
    simpl. destruct (_ <? 0).
    + apply ref_skel_deref in Sl as (c & Hc & Sc).
      destruct (IHl c Hc tl Sc) as (leaf & Hf & Hv).
      exists leaf. split; [|exact Hv].
      destruct l as [|x|x]; simpl in Hc; try discriminate; injection Hc as ->;
        exact Hf.
    + apply ref_skel_deref in Sr as (c & Hc & Sc).
      destruct (IHr c Hc tr Sc) as (leaf & Hf & Hv).
      exists leaf. split; [|exact Hv].
      destruct r as [|x|x]; simpl in Hc; try discriminate; injection Hc as ->;
        exact Hf.
Qed.

(** ** Hash consistency is kept *)

Lemma Buffer_eqb_eq (a b : Buffer) : Buffer_eqb a b = true -> a = b.
Proof.
  unfold Buffer_eqb. intros H. apply Z.eqb_eq in H.
  destruct (Buffer_compare_spec a b) as [(C & _) | [(_ & E) | (C & _)]];
    [congruence|exact E|congruence].
Qed.

Lemma hash_differs_false (a b : option Buffer) : hash_differs a b = false -> a = b.
Proof.
  destruct a as [x|], b as [y|]; simpl; try discriminate; auto.
  intros H. apply negb_false_iff in H. apply Buffer_eqb_eq in H. congruence.
Qed.

Lemma Ok_inj {A : Type} (a b : A) : Ok a = Ok b -> a = b.
Proof. intros H. injection H as H. exact H. Qed.

Lemma Ok_inj_Some {A : Type} (a b : A) : Some a = Some b -> a = b.
Proof. intros H. injection H as H. exact H. Qed.

Lemma leftRotation_eq d l r rd rl rr :
  deref r = Some (Branch rd rl rr) ->
  leftRotation (Branch d l r)
  = Ok (set_left (Branch rd rl rr)
          match rl with
          | Cached n => set_right (Branch d l r) n
          | _ => Branch (mkBranch (branch_key d) (branch_version d)
                           (leftHeight d) (leftHeight rd) (leftHash d)
                           (leftHash rd) (branch_hash d) true) l rl
          end).
Proof. intros H. unfold leftRotation. rewrite H. reflexivity. Qed.

Lemma rightRotation_eq d l r rd rl rr :
  deref l = Some (Branch rd rl rr) ->
  rightRotation (Branch d l r)
  = Ok (set_right (Branch rd rl rr)
          match rr with
          | Cached n => set_left (Branch d l r) n
          | _ => Branch (mkBranch (branch_key d) (branch_version d)
                           (rightHeight rd) (rightHeight d) (rightHash rd)
                           (rightHash d) (branch_hash d) true) rr r
          end).
Proof. intros H. unfold rightRotation. rewrite H. reflexivity. Qed.

Section WorkingFacts.
Variable digest : Buffer -> Buffer.

Lemma working_Branch (d : BranchData) (l r : Ref) :
  working digest (Branch d l r)
  <-> ref_ok digest (leftHash d) l /\ ref_ok digest (rightHash d) r
      /\ (branch_hash d = None \/ branch_version d <> None)
      /\ (branch_isDirty d = false ->
          exists v hl hr,
            branch_version d = Some v
            /\ ref_hash l = Some hl /\ ref_hash r = Some hr
            /\ branch_hash d = Some (sha256 digest [numberToBuffer v; hl; hr])
            /\ ref_isDirty l = false /\ ref_isDirty r = false).
Proof. destruct l, r; simpl; tauto. Qed.

Lemma ref_ok_working (h : option Buffer) (r : Ref) :
  ref_ok digest h r -> exists c, deref r = Some c /\ working digest c.
Proof.
  destruct r as [|c|c]; simpl; [tauto|intros (_ & _ & W & _)|intros (_ & W)]; eauto.
Qed.

Lemma ref_ok_hash (h : option Buffer) (r : Ref) :
  ref_ok digest h r -> h = None \/ h = ref_hash r.
Proof. destruct r as [|c|c]; simpl; [tauto|intros (E & _)|intros (E & _)]; auto. Qed.

Lemma working_clean_hash (n : Node) :
  working digest n -> node_isDirty n = false ->
  exists h v, node_hash n = Some h /\ node_version n = Some v.
Proof.
  destruct n as [d|d l r].
  - simpl. intros (_ & H) Hd. destruct (H Hd) as (v & Hv & Hh). eauto.
  - intros W Hd. apply working_Branch in W as (_ & _ & _ & H).
    destruct (H Hd) as (v & hl & hr & Hv & _ & _ & Hh & _). simpl. eauto.
Qed.

Lemma working_set_left (this node : Node) :
  working digest this -> working digest node -> working digest (set_left this node).
Proof.
  destruct this as [d|d l r]; [auto|]. intros W Wn.
  apply working_Branch in W as (Hl & Hr & Hv & Hc).
  unfold set_left. apply working_Branch. simpl.
  split; [auto|]. split; [exact Hr|]. split; [exact Hv|].
  intros Hd. apply orb_false_iff in Hd as [Hd Hdiff].
  apply orb_false_iff in Hd as [Hd Hnd].
  apply hash_differs_false in Hdiff.
  destruct (Hc Hd) as (v & hl & hr & Ev & Ehl & Ehr & Eh & Dl & Dr).
  destruct (working_clean_hash node Wn Hnd) as (h' & v' & Eh' & _).
  exists v, hl, hr. repeat split; auto.
  unfold ref_hash. simpl. rewrite <- Ehl.
  destruct (ref_ok_hash _ _ Hl) as [E|E]; congruence.
Qed.

Lemma working_set_right (this node : Node) :
  working digest this -> working digest node -> working digest (set_right this node).
Proof.
  destruct this as [d|d l r]; [auto|]. intros W Wn.
  apply working_Branch in W as (Hl & Hr & Hv & Hc).
  unfold set_right. apply working_Branch. simpl.
  split; [exact Hl|]. split; [auto|]. split; [exact Hv|].
  intros Hd. apply orb_false_iff in Hd as [Hd Hdiff].
  apply orb_false_iff in Hd as [Hd Hnd].
  apply hash_differs_false in Hdiff.
  destruct (Hc Hd) as (v & hl & hr & Ev & Ehl & Ehr & Eh & Dl & Dr).
  destruct (working_clean_hash node Wn Hnd) as (h' & v' & Eh' & _).
  exists v, hl, hr. repeat split; auto.
  unfold ref_hash. simpl. rewrite <- Ehr.
  destruct (ref_ok_hash _ _ Hr) as [E|E]; congruence.
Qed.

Lemma working_set_key (this : Node) (key : Buffer) :
  working digest this -> working digest (set_key this key).
Proof.
  destruct this as [d|d l r]; [auto|]. intros W.
  apply working_Branch in W. unfold set_key. apply working_Branch. exact W.
Qed.

Lemma working_leftRotation (this n : Node) :
  working digest this -> leftRotation this = Ok n -> working digest n.
Proof.
  destruct this as [d|d l r]; [discriminate|]. intros W H.
  pose proof W as W'. apply working_Branch in W' as (Hl & Hr & Hv & Hc).
  destruct (ref_ok_working _ _ Hr) as (root & Hroot & Wroot).
  destruct root as [rd|rd rl rr];
    [unfold leftRotation in H; rewrite Hroot in H; discriminate|].
  rewrite (leftRotation_eq _ _ _ _ _ _ Hroot) in H. apply Ok_inj in H. subst n.
  apply working_set_left; [exact Wroot|].
  pose proof Wroot as Wr'. apply working_Branch in Wr' as (Hrl & _).
  destruct rl as [|c|c].
  - destruct Hrl.
  - apply working_Branch. simpl.
    split; [exact Hl|]. split; [exact Hrl|]. split; [exact Hv|discriminate].
  - apply working_set_right; [exact W|]. destruct Hrl. assumption.
Qed.

Lemma working_rightRotation (this n : Node) :
  working digest this -> rightRotation this = Ok n -> working digest n.
Proof.
  destruct this as [d|d l r]; [discriminate|]. intros W H.
  pose proof W as W'. apply working_Branch in W' as (Hl & Hr & Hv & Hc).
  destruct (ref_ok_working _ _ Hl) as (root & Hroot & Wroot).
  destruct root as [rd|rd rl rr];
    [unfold rightRotation in H; rewrite Hroot in H; discriminate|].
  rewrite (rightRotation_eq _ _ _ _ _ _ Hroot) in H. apply Ok_inj in H. subst n.
  apply working_set_right; [exact Wroot|].
  pose proof Wroot as Wr'. apply working_Branch in Wr' as (_ & Hrr & _).
  destruct rr as [|c|c].
  - destruct Hrr.
  - apply working_Branch. simpl.
    split; [exact Hrr|]. split; [exact Hr|]. split; [exact Hv|discriminate].
  - apply working_set_left; [exact W|]. destruct Hrr. assumption.
Qed.

Lemma working_balance (this n : Node) :
  working digest this -> balance this = Ok n -> working digest n.
Proof.
  destruct this as [d|d l r]; [discriminate|]. intros W H.
  pose proof W as W'. apply working_Branch in W' as (Hl & Hr & Hv & Hc).
  unfold balance in H.
  destruct (balanceFactor d =? 2).
  - destruct (ref_ok_working _ _ Hl) as (branch & Hb & Wb). rewrite Hb in H.
    destruct branch as [bd|bd bl br]; [discriminate|].
    destruct (balanceFactor bd <? 0).
    + destruct (leftRotation (Branch bd bl br)) as [rotated|] eqn:Hrot;
        unfold bind in H; [|discriminate].
      eapply working_rightRotation; [|exact H].
      apply working_set_left; [exact W|].
      exact (working_leftRotation _ _ Wb Hrot).
    + unfold bind in H. exact (working_rightRotation _ _ W H).
  - destruct (balanceFactor d =? -2).
    + destruct (ref_ok_working _ _ Hr) as (branch & Hb & Wb). rewrite Hb in H.
      destruct branch as [bd|bd bl br]; [discriminate|].
      destruct (0 <? balanceFactor bd).
      * destruct (rightRotation (Branch bd bl br)) as [rotated|] eqn:Hrot;
          unfold bind in H; [|discriminate].
        eapply working_leftRotation; [|exact H].
        apply working_set_right; [exact W|].
        exact (working_rightRotation _ _ Wb Hrot).
      * unfold bind in H. exact (working_leftRotation _ _ W H).
    + injection H as <-. exact W.
Qed.
End WorkingFacts.

Section OperationFacts.
Variable digest : Buffer -> Buffer.

Lemma ref_ok_child (h : option Buffer) (r : Ref) (c : Node) :
  ref_ok digest h r -> deref r = Some c -> working digest c.
Proof.
  intros H E. destruct (ref_ok_working digest _ _ H) as (c' & E' & W). congruence.
Qed.

Lemma working_insert (key value : Buffer) (this : Node) :
  forall n,
    working digest this -> insert this key value = Ok n -> working digest n.
Proof.
  induction this as [d|d l r IHl IHr] using Node_induction; intros n W H.
  - simpl in H. simpl in W. destruct W as (Hv & Hc).
    destruct (_ =? -1); [|destruct (_ =? 1)]; apply Ok_inj in H; subst n.
    + apply working_Branch. simpl. repeat split; auto; discriminate.
    + apply working_Branch. simpl. repeat split; auto; discriminate.
    + simpl. split; [exact Hv|discriminate].
  - pose proof W as W'. apply working_Branch in W' as (Hl & Hr & _).
    simpl in H.
    destruct (Buffer_compare key (branch_key d) =? -1).
    + destruct (ref_ok_working digest _ _ Hl) as (c & Hc & Wc).
      assert (E : exists c', insert c key value = Ok c'
                             /\ balance (set_left (Branch d l r) c') = Ok n).
      { destruct l as [|x|x]; simpl in Hc; try discriminate;
          apply Ok_inj in Hc || injection Hc as Hc; subst x;
          destruct (insert c key value) as [c'|]; try discriminate;
          exists c'; split; auto. }
      destruct E as (c' & Hins & Hbal).
      eapply working_balance; [|exact Hbal].
      apply working_set_left; [exact W|]. eapply IHl; eassumption.
    + destruct (ref_ok_working digest _ _ Hr) as (c & Hc & Wc).
      assert (E : exists c', insert c key value = Ok c'
                             /\ balance (set_right (Branch d l r) c') = Ok n).
      { destruct r as [|x|x]; simpl in Hc; try discriminate;
          apply Ok_inj in Hc || injection Hc as Hc; subst x;
          destruct (insert c key value) as [c'|]; try discriminate;
          exists c'; split; auto. }
      destruct E as (c' & Hins & Hbal).
      eapply working_balance; [|exact Hbal].
      apply working_set_right; [exact W|]. eapply IHr; eassumption.
Qed.

Lemma skel_materialize (n : Node) : skel (materialize n) = skel n.
Proof.
  induction n as [d|d l r IHl IHr] using Node_induction; [reflexivity|].
  simpl materialize. rewrite !skel_Branch. simpl.
  assert (El : ref_skel match l with
                        | Unset => Unset
                        | Stored c => Stored (materialize c)
                        | Cached c => Stored (materialize c)
                        end = ref_skel l)
    by (destruct l as [|c|c]; simpl; auto).
  assert (Er : ref_skel match r with
                        | Unset => Unset
                        | Stored c => Stored (materialize c)
                        | Cached c => Stored (materialize c)
                        end = ref_skel r)
    by (destruct r as [|c|c]; simpl; auto).
  rewrite El, Er. reflexivity.
Qed.

Lemma node_hash_materialize (n : Node) : node_hash (materialize n) = node_hash n.
Proof. destruct n; reflexivity. Qed.

Lemma merkle_hash (n : Node) :
  merkle digest n -> exists h v, node_hash n = Some h /\ node_version n = Some v.
Proof. intros (W & D). apply (working_clean_hash digest n W D). Qed.

Lemma node_isDirty_materialize (n : Node) :
  merkle digest n -> node_isDirty (materialize n) = false.
Proof.
  intros M. destruct (merkle_hash n M) as (h & v & Hh & _).
  destruct n; simpl in *; rewrite Hh; reflexivity.
Qed.

Lemma merkle_children (d : BranchData) (l r : Ref) :
  merkle digest (Branch d l r) ->
  exists cl cr,
    deref l = Some cl /\ deref r = Some cr
    /\ merkle digest cl /\ merkle digest cr.
Proof.
  intros (W & D). apply working_Branch in W as (Hl & Hr & _ & Hc).
  simpl in D. destruct (Hc D) as (v & hl & hr & _ & _ & _ & _ & Dl & Dr).
  destruct (ref_ok_working digest _ _ Hl) as (cl & El & Wl).
  destruct (ref_ok_working digest _ _ Hr) as (cr & Er & Wr).
  unfold ref_isDirty in Dl, Dr. rewrite El in Dl. rewrite Er in Dr.
  exists cl, cr. repeat split; auto.
Qed.

Lemma sealed_children (d : BranchData) (l r : Ref) (cl cr : Node) :
  sealed (Branch d l r) -> deref l = Some cl -> deref r = Some cr ->
  leftHash d = node_hash cl /\ rightHash d = node_hash cr
  /\ sealed cl /\ sealed cr.
Proof.
  simpl. intros (Hl & Hr & Sl & Sr) El Er.
  unfold ref_hash in *. rewrite El in Hl. rewrite Er in Hr. simpl in *.
  destruct l as [|x|x], r as [|y|y]; simpl in *; try discriminate;
    injection El as ->; injection Er as ->; auto.
Qed.

Lemma materialize_stored (n : Node) :
  merkle digest n -> sealed n ->
  merkle digest (materialize n) /\ sealed (materialize n).
Proof.
  induction n as [d|d l r IHl IHr] using Node_induction; intros M S.
  - destruct (merkle_hash _ M) as (h & v & Hh & Hv). destruct M as (W & D).
    simpl in W, D, Hh, Hv. destruct W as (_ & W). destruct (W D) as (v' & Ev & Eh).
    unfold merkle. simpl. unfold new_Leaf. rewrite Hh. simpl.
    split; [|exact I]. split; [|reflexivity].
    split; [right; congruence|].
    intros _. exists v'. split; congruence.
  - destruct (merkle_children _ _ _ M) as (cl & cr & El & Er & Ml & Mr).
    destruct (sealed_children _ _ _ _ _ S El Er) as (Hl & Hr & Sl & Sr).
    destruct (IHl cl El Ml Sl) as (Ml' & Sl').
    destruct (IHr cr Er Mr Sr) as (Mr' & Sr').
    pose proof (node_isDirty_materialize _ M) as Dm.
    destruct M as (W & D). apply working_Branch in W as (_ & _ & Hv & Hc).
    simpl in D. destruct (Hc D) as (v & hl & hr & Ev & Ehl & Ehr & Eh & _ & _).
    unfold ref_hash in Ehl, Ehr. rewrite El in Ehl. rewrite Er in Ehr. simpl in *.
    assert (Rl : match l with
                 | Unset => Unset
                 | Stored c => Stored (materialize c)
                 | Cached c => Stored (materialize c)
                 end = Stored (materialize cl))
      by (destruct l as [|x|x]; simpl in El; try discriminate; injection El as ->; auto).
    assert (Rr : match r with
                 | Unset => Unset
                 | Stored c => Stored (materialize c)
                 | Cached c => Stored (materialize c)
                 end = Stored (materialize cr))
      by (destruct r as [|x|x]; simpl in Er; try discriminate; injection Er as ->; auto).
    rewrite Rl, Rr. rewrite Eh in *. simpl in *.
    destruct Ml' as (Wl' & Dl'), Mr' as (Wr' & Dr').
    split; [split; [|reflexivity]|].
    + simpl. rewrite !node_hash_materialize.
      split; [auto|]. split; [auto|]. split; [exact Hv|].
      intros _. exists v, hl, hr. unfold ref_hash, ref_isDirty. simpl.
      rewrite !node_hash_materialize. auto 10.
    + simpl. unfold ref_hash. simpl. rewrite !node_hash_materialize. auto.
Qed.
End OperationFacts.

Section PersistWorking.
Variable digest : Buffer -> Buffer.

Lemma persist_child (h : option Buffer) (r : Ref) (s : Store) :
  ref_ok digest h r ->
  (forall c, deref r = Some c -> working digest c -> persists digest c) ->
  exists rh r' s',
    match r with
    | Cached c => '(h', c', s') <- persist digest c None s ;; Ok (h', Cached c', s')
    | _ => Ok (h, r, s)
    end = Ok (Some rh, r', s')
    /\ ref_ok digest (Some rh) r' /\ ref_hash r' = Some rh
    /\ ref_isDirty r' = false /\ ref_sealed r'
    /\ ref_skel r' = ref_skel r
    /\ (ref_isDirty r = false -> ref_hash r' = ref_hash r).
Proof.
  intros Hok IH. destruct r as [|c|c]; simpl in Hok.
  - destruct Hok.
  - destruct Hok as (-> & D & W & S).
    destruct (working_clean_hash digest c W D) as (hc & vc & Hh & _).
    exists hc, (Stored c), s. rewrite Hh. unfold ref_hash, ref_isDirty. simpl.
    repeat split; auto.
  - destruct Hok as (_ & W).
    destruct (IH c eq_refl W None s) as (hc & c' & s' & Hp & (W' & D') & S' & Hh & Sk & Hd).
    exists hc, (Cached c'), s'. rewrite Hp. unfold ref_hash, ref_isDirty. simpl.
    repeat split; auto.
Qed.

Lemma persist_working (this : Node) : working digest this -> persists digest this.
Proof.
  induction this as [d|d l r IHl IHr] using Node_induction; intros W v s.
  - simpl in W. destruct W as (Hv & Hc). simpl.
    destruct (leaf_isDirty d) eqn:D.
    + assert (Ho : exists s1, orphan_previous (leaf_hash d) (leaf_version d) s = Ok s1).
      { unfold orphan_previous, putOrphan_node.
        destruct (leaf_hash d) as [h|]; [|eauto].
        destruct Hv as [Hv|Hv]; [discriminate|].
        destruct (leaf_version d) as [v0|]; [|congruence]. simpl. eauto. }
      destruct Ho as (s1 & Ho). rewrite Ho. simpl.
      eexists _, _, _. split; [reflexivity|].
      unfold merkle. simpl.
      split; [split; [split; [right; discriminate|]|reflexivity]|].
      * intros _. eexists. split; reflexivity.
      * repeat split; auto; discriminate.
    + destruct (Hc eq_refl) as (v0 & Ev & Eh).
      exists (sha256 digest [numberToBuffer v0; leaf_key d; leaf_value d]), (Leaf d), s.
      rewrite Eh. unfold merkle. simpl. repeat split; auto.
  - pose proof W as W'. apply working_Branch in W' as (Hl & Hr & Hv & Hc).
    destruct (persist_child _ _ s Hl (fun c Ec Wc => IHl c Ec Wc))
      as (lh & l' & s1 & Pl & Okl & Hhl & Dl & Sl & Skl & Kl).
    destruct (persist_child _ _ s1 Hr (fun c Ec Wc => IHr c Ec Wc))
      as (rh & r' & s2 & Pr & Okr & Hhr & Dr & Sr & Skr & Kr).
    cbn [persist]. rewrite Pl. cbn [bind]. rewrite Pr. cbn [bind].
    destruct (branch_isDirty d) eqn:D.
    + assert (Ho : exists s3, orphan_previous (branch_hash d) (branch_version d) s2 = Ok s3).
      { unfold orphan_previous, putOrphan_node.
        destruct (branch_hash d) as [h|]; [|eauto].
        destruct Hv as [Hv|Hv]; [discriminate|].
        destruct (branch_version d) as [v0|]; [|congruence]. simpl. eauto. }
      destruct Ho as (s3 & Ho). rewrite Ho. simpl.
      eexists _, _, _. split; [reflexivity|].
      split; [split; [|reflexivity]|].
      * apply working_Branch. simpl. split; [exact Okl|]. split; [exact Okr|].
        split; [right; discriminate|]. intros _.
        eexists _, lh, rh. repeat split; auto.
      * split.
        -- simpl. rewrite Hhl, Hhr. repeat split; auto.
        -- split; [reflexivity|]. split; [|intros E; congruence].
           rewrite !skel_Branch. simpl. rewrite Skl, Skr. reflexivity.
    + destruct (Hc eq_refl) as (v0 & hl & hr & Ev & Ehl & Ehr & Eh & Dl0 & Dr0).
      rewrite (Kl Dl0) in Hhl. rewrite (Kr Dr0) in Hhr.
      assert (hl = lh) by congruence. assert (hr = rh) by congruence. subst hl hr.
      exists (sha256 digest [numberToBuffer v0; lh; rh]). rewrite Eh.
      eexists _, _. split; [reflexivity|].
      split; [split; [|reflexivity]|].
      * apply working_Branch. simpl. split; [exact Okl|]. split; [exact Okr|].
        split; [right; congruence|]. intros _.
        exists v0, lh, rh. rewrite (Kl Dl0), (Kr Dr0). repeat split; auto.
      * split.
        -- simpl. rewrite (Kl Dl0), (Kr Dr0), Ehl, Ehr. repeat split; auto.
        -- split; [reflexivity|]. split; [|intros _; simpl; congruence].
           rewrite !skel_Branch. simpl. rewrite Skl, Skr. reflexivity.
Qed.
End PersistWorking.

(** ** Removal *)

Lemma remove_Branch (d : BranchData) (l r : Ref) (key : Buffer) (s : Store)
    (cl cr : Node) :
  deref l = Some cl -> deref r = Some cr ->
  remove (Branch d l r) key s
  = if Buffer_compare key (branch_key d) <? 0 then
      '(left_, s1) <- remove cl key s ;;
      match left_ with
      | Some left_ =>
          b <- balance (set_left (Branch d l r) left_) ;; Ok (Some b, s1)
      | None =>
          s2 <- putOrphan_node (branch_hash d) (branch_version d) s1 ;;
          Ok (Some cr, s2)
      end
    else
      '(right_, s1) <- remove cr key s ;;
      match right_ with
      | Some right_ =>
          this' <- (if Buffer_compare key (branch_key d) <? 1
                    then (m <- leftmost right_ ;;
                          Ok (set_key (set_right (Branch d l r) right_) (node_key m)))
                    else Ok (set_right (Branch d l r) right_)) ;;
          b <- balance this' ;; Ok (Some b, s1)
      | None =>
          s2 <- putOrphan_node (branch_hash d) (branch_version d) s1 ;;
          Ok (Some cl, s2)
      end.
Proof.
  intros El Er.
  destruct l as [|x|x], r as [|y|y]; simpl in El, Er; try discriminate;
    injection El as ->; injection Er as ->; cbn [remove];
    destruct (_ <? 0); try reflexivity;
    destruct (remove cl key s) as [[[n|] s1]|]; cbn [bind]; try reflexivity;
    destruct (putOrphan_node _ _ s1); reflexivity.
Qed.

Lemma skel_set_key (this : Node) (key : Buffer) k lh rh tl tr :
  skel this = Some (SBranch k lh rh tl tr) ->
  skel (set_key this key) = Some (SBranch key lh rh tl tr).
Proof.
  intros H. apply skel_is_branch in H as (d & l & r & -> & <- & <- & <- & Hl & Hr).
  unfold set_key. rewrite skel_Branch. simpl. rewrite Hl, Hr. reflexivity.
Qed.

Section RemoveFacts.
Variable digest : Buffer -> Buffer.

Lemma putOrphan_merkle (n : Node) (s : Store) :
  merkle digest n ->
  exists h v,
    node_hash n = Some h /\ node_version n = Some v
    /\ putOrphan_node (node_hash n) (node_version n) s = Ok (putOrphan h v None s).
Proof.
  intros M. destruct (merkle_hash digest n M) as (h & v & Hh & Hv).
  exists h, v. rewrite Hh, Hv. auto.
Qed.

Lemma remove_spec (key : Buffer) (this : Node) :
  forall t s,
    merkle digest this -> skel this = Some t -> avl t ->
    exists res s',
      remove this key s = Ok (res, s')
      /\ match sremove t key with
         | Some t' => exists n, res = Some n /\ skel n = Some t' /\ working digest n
         | None => res = None
         end.
Proof.
  induction this as [d|d l r IHl IHr] using Node_induction; intros t s M H A.
  - simpl in H. injection H as <-. simpl.
    destruct (Buffer_compare key (leaf_key d) =? 0).
    + destruct (putOrphan_merkle _ s M) as (h & v & _ & _ & E). simpl in E.
      rewrite E. simpl. eauto.
    + eexists _, _. split; [reflexivity|]. exists (Leaf d).
      destruct M. auto.
  - destruct (merkle_children digest _ _ _ M) as (cl & cr & El & Er & Ml & Mr).
    pose proof H as H'.
    apply skel_Branch_inv in H' as (tl & tr & Sl & Sr & ->).
    assert (Scl : skel cl = Some tl).
    { apply ref_skel_deref in Sl as (c & Hc & Sc). congruence. }
    assert (Scr : skel cr = Some tr).
    { apply ref_skel_deref in Sr as (c & Hc & Sc). congruence. }
    simpl in A. destruct A as (Hl & Hr & Hb & Al & Ar).
    pose proof (avl_height_pos tl Al). pose proof (avl_height_pos tr Ar).
    destruct (putOrphan_merkle _ s M) as (h & v & _ & _ & E). simpl in E.
    rewrite (remove_Branch _ _ _ _ _ _ _ El Er). cbn [sremove].
    destruct M as (W & D).
    destruct (Buffer_compare key (branch_key d) <? 0).
    + destruct (IHl cl El tl s Ml Scl Al) as (res & s1 & Hrem & Hres).
      rewrite Hrem. cbn [bind].
      destruct (sremove tl key) as [tl'|] eqn:Etl.
      * destruct Hres as (n & -> & Sn & Wn).
        destruct (avl_sremove key tl tl' Al Etl) as (Al' & Hh).
        pose proof (skel_set_left _ _ _ _ _ _ _ _ H Sn) as Sthis.
        pose proof Sthis as Sthis'.
        eapply skel_balance in Sthis' as (b & Hbal & Sb); auto; try lia.
        rewrite Hbal. cbn [bind]. eexists _, _. split; [reflexivity|].
        exists b. repeat split; auto.
        eapply working_balance; [|exact Hbal].
        apply working_set_left; assumption.
      * subst res.
        destruct (putOrphan_merkle (Branch d l r) s1 (conj W D))
          as (h1 & v1 & _ & _ & E1). simpl in E1. rewrite E1. cbn [bind].
        eexists _, _. split; [reflexivity|]. exists cr.
        destruct Mr. auto.
    + destruct (IHr cr Er tr s Mr Scr Ar) as (res & s1 & Hrem & Hres).
      rewrite Hrem. cbn [bind].
      destruct (sremove tr key) as [tr'|] eqn:Etr.
      * destruct Hres as (n & -> & Sn & Wn).
        destruct (avl_sremove key tr tr' Ar Etr) as (Ar' & Hh).
        pose proof (skel_set_right _ _ _ _ _ _ _ _ H Sn) as Sthis.
        assert (Wthis : working digest (set_right (Branch d l r) n))
          by (apply working_set_right; assumption).
        destruct (Buffer_compare key (branch_key d) <? 1).
        -- destruct (skel_leftmost n _ Sn) as (m & Hm & Hk & _).
           rewrite Hm. cbn [bind]. rewrite Hk.
           pose proof (skel_set_key _ (sleftkey tr') _ _ _ _ _ Sthis) as Sthis'.
           pose proof Sthis' as Sthis''.
           eapply skel_balance in Sthis'' as (b & Hbal & Sb); auto; try lia.
           rewrite Hbal. cbn [bind]. eexists _, _. split; [reflexivity|].
           exists b. repeat split; auto.
           eapply working_balance; [|exact Hbal].
           apply working_set_key. exact Wthis.
        -- cbn [bind]. pose proof Sthis as Sthis'.
           eapply skel_balance in Sthis' as (b & Hbal & Sb); auto; try lia.
           rewrite Hbal. cbn [bind]. eexists _, _. split; [reflexivity|].
           exists b. repeat split; auto.
           eapply working_balance; [|exact Hbal]. exact Wthis.
      * subst res.
        destruct (putOrphan_merkle (Branch d l r) s1 (conj W D))
          as (h1 & v1 & _ & _ & E1). simpl in E1. rewrite E1. cbn [bind].
        eexists _, _. split; [reflexivity|]. exists cl.
        destruct Ml. auto.
Qed.
End RemoveFacts.

(** ** What node operations leave of the store *)

Lemma same_session_refl (s : Store) : same_session s s.
Proof. unfold same_session. auto. Qed.

Lemma same_session_trans (s1 s2 s3 : Store) :
  same_session s1 s2 -> same_session s2 s3 -> same_session s1 s3.
Proof. unfold same_session. intros (A & B & C) (A' & B' & C'). repeat split; congruence. Qed.

Lemma putOrphan_session (h : Buffer) (f : Z) (t : option Z) (s : Store) :
  same_session s (putOrphan h f t s).
Proof.
  unfold putOrphan, same_session.
  destruct (_ <? f); simpl; auto.
Qed.

Lemma putNode_session (h : Buffer) (c : CompactNode) (s : Store) :
  same_session s (putNode h c s).
Proof. unfold putNode, same_session. simpl. auto. Qed.

Lemma putOrphan_node_session (h : option Buffer) (v : option Z) (s s' : Store) :
  putOrphan_node h v s = Ok s' -> same_session s s'.
Proof.
  unfold putOrphan_node. destruct h as [h|]; [|discriminate].
  destruct v as [v|]; [|discriminate]. simpl. intros E. injection E as <-.
  apply putOrphan_session.
Qed.

Lemma remove_session (key : Buffer) (this : Node) :
  forall s res s', remove this key s = Ok (res, s') -> same_session s s'.
Proof.
  induction this as [d|d l r IHl IHr] using Node_induction; intros s res s' H.
  - simpl in H. destruct (_ =? 0).
    + destruct (putOrphan_node _ _ s) as [s1|] eqn:E; [|discriminate].
      simpl in H. injection H as <- <-. eapply putOrphan_node_session; eassumption.
    + injection H as <- <-. apply same_session_refl.
  - cbn [remove] in H. destruct (_ <? 0).
    + destruct l as [|cl|cl]; [discriminate| |];
        (destruct (remove cl key s) as [[[x|] s1]|] eqn:Hrem; cbn [bind] in H;
         try discriminate; pose proof (IHl cl eq_refl _ _ _ Hrem) as F;
         [ destruct (balance _); cbn [bind] in H; [|discriminate];
           injection H as <- <-; exact F
         | destruct (putOrphan_node _ _ s1) as [s2|] eqn:E; cbn [bind] in H;
           [|discriminate];
           destruct r as [|cr|cr]; try discriminate; injection H as <- <-;
           (eapply same_session_trans;
            [exact F|eapply putOrphan_node_session; eassumption]) ]).
    + destruct r as [|cr|cr]; [discriminate| |];
        (destruct (remove cr key s) as [[[x|] s1]|] eqn:Hrem; cbn [bind] in H;
         try discriminate; pose proof (IHr cr eq_refl _ _ _ Hrem) as F;
         [ destruct (if _ <? 1 then _ else _); cbn [bind] in H; [|discriminate];
           destruct (balance _); cbn [bind] in H; [|discriminate];
           injection H as <- <-; exact F
         | destruct (putOrphan_node _ _ s1) as [s2|] eqn:E; cbn [bind] in H;
           [|discriminate];
           destruct l as [|cl|cl]; try discriminate; injection H as <- <-;
           (eapply same_session_trans;
            [exact F|eapply putOrphan_node_session; eassumption]) ]).
Qed.

Lemma persist_session (digest : Buffer -> Buffer) (this : Node) :
  forall v s h n s', persist digest this v s = Ok (h, n, s') -> same_session s s'.
Proof.
  induction this as [d|d l r IHl IHr] using Node_induction; intros v s h n s' H.
  - simpl in H. destruct (leaf_isDirty d).
    + unfold orphan_previous in H.
      destruct (leaf_hash d) as [h0|].
      * destruct (putOrphan_node _ _ s) as [s1|] eqn:E; cbn [bind] in H;
          [|discriminate].
        injection H as <- <- <-. eapply same_session_trans.
        -- eapply putOrphan_node_session; eassumption.
        -- apply putNode_session.
      * cbn [bind] in H. injection H as <- <- <-. apply putNode_session.
    + injection H as <- <- <-. apply same_session_refl.
  - cbn [persist] in H.
    destruct (match l with
              | Cached c =>
                  '(h, c', s') <- persist digest c None s ;; Ok (h, Cached c', s')
              | _ => Ok (leftHash d, l, s)
              end) as [[[lh l'] s1]|] eqn:HL; cbn [bind] in H; [|discriminate].
    assert (F1 : same_session s s1).
    { destruct l as [|c|c]; try (injection HL as <- <- <-; apply same_session_refl).
      destruct (persist digest c None s) as [[[h0 c0] s0]|] eqn:Hc; cbn [bind] in HL;
        [|discriminate].
      injection HL as <- <- <-. eapply (IHl c eq_refl). exact Hc. }
    destruct (match r with
              | Cached c =>
                  '(h, c', s') <- persist digest c None s1 ;; Ok (h, Cached c', s')
              | _ => Ok (rightHash d, r, s1)
              end) as [[[rh r'] s2]|] eqn:HR; cbn [bind] in H; [|discriminate].
    assert (F2 : same_session s1 s2).
    { destruct r as [|c|c]; try (injection HR as <- <- <-; apply same_session_refl).
      destruct (persist digest c None s1) as [[[h0 c0] s0]|] eqn:Hc; cbn [bind] in HR;
        [|discriminate].
      injection HR as <- <- <-. eapply (IHr c eq_refl). exact Hc. }
    destruct (branch_isDirty d).
    + assert (F3 : forall s3, orphan_previous (branch_hash d) (branch_version d) s2 = Ok s3 ->
                              same_session s2 s3).
      { unfold orphan_previous. destruct (branch_hash d).
        - intros s3 E. eapply putOrphan_node_session; eassumption.
        - intros s3 E. injection E as <-. apply same_session_refl. }
      destruct (orphan_previous _ _ s2) as [s3|]; cbn [bind] in H; [|discriminate].
      destruct lh as [lh|]; cbn [bind defined] in H; [|discriminate].
      destruct rh as [rh|]; cbn [bind defined] in H; [|discriminate].
      injection H as <- <- <-.
      eapply same_session_trans; [exact F1|].
      eapply same_session_trans; [exact F2|].
      eapply same_session_trans; [apply F3; reflexivity|].
      apply putNode_session.
    + injection H as <- <- <-. eapply same_session_trans; eassumption.
Qed.

(** ** The calls of the facade keep the tree *)

Section FacadeFacts.
Variable digest : Buffer -> Buffer.
Variable T : Type.
Variable pack : T -> Buffer.
Variable unpack : Buffer -> T.
Variable falsy : T -> bool.

Lemma root_ok (t : Tree) :
  Tree_ok digest t ->
  match persisted t with
  | Some n => root t = Some (materialize n)
  | None => root t = None
  end.
Proof.
  unfold Tree_ok, root. destruct (persisted t) as [n|].
  - intros (E & M & _). destruct (merkle_hash digest n M) as (h & _ & Hh & _).
    rewrite E, Hh. reflexivity.
  - intros ->. reflexivity.
Qed.

Lemma same_session_enter (s s' : Store) :
  same_session (transaction_enter s) s' ->
  transactions s' = transactions s
  /\ version s' = (match transactions s with [] => version s + 1 | _ => version s end).
Proof.
  unfold transaction_enter, same_session.
  destruct (transactions s) eqn:E; simpl; rewrite ?E; intros (A & B & C); auto.
Qed.

Lemma Tree_insert_ok (key : Buffer) (value : T) (t : Tree) :
  Tree_ok digest t -> falsy value = false ->
  exists t',
    Tree_insert digest T pack falsy key value t = Ok t'
    /\ Tree_ok digest t'
    /\ transactions (store t') = transactions (store t)
    /\ (forall x, Tree_lookup t' x
                  = if Buffer_eqb x key then Some (pack value) else Tree_lookup t x).
Proof.
  intros Hok Hf. pose proof (root_ok t Hok) as Hroot.
  unfold Tree_insert. rewrite Hf.
  assert (Hnode : exists node sk,
             match root t with
             | Some r => insert r key (pack value)
             | None => Ok (new_Leaf key (pack value) None None)
             end = Ok node
             /\ working digest node /\ skel node = Some sk /\ avl sk /\ bst sk
             /\ forall x, sfind sk x
                          = if Buffer_eqb x key then Some (pack value)
                            else Tree_lookup t x).
  { unfold Tree_ok, Tree_lookup in *. destruct (persisted t) as [n|].
    - destruct Hok as (_ & M & S & sk & Sk & A & B).
      rewrite Hroot.
      destruct (materialize_stored digest n M S) as ((Wm & _) & _).
      pose proof (skel_materialize n) as Skm. rewrite Sk in Skm.
      destruct (skel_insert key (pack value) _ _ Skm A) as (node & Hins & Snode).
      exists node, (sinsert sk key (pack value)). split; [exact Hins|].
      split; [eapply working_insert; eassumption|]. split; [exact Snode|].
      split; [apply avl_sinsert; exact A|]. split; [apply bst_sinsert; exact B|].
      intros x. rewrite Sk. simpl. apply sfind_sinsert. exact B.
    - rewrite Hroot. eexists _, _. split; [reflexivity|].
      split; [simpl; split; [auto|discriminate]|].
      split; [reflexivity|]. simpl. repeat split; auto. }
  destruct Hnode as (node & sk & -> & W & Sk & A & B & Hfind). cbn [bind].
  destruct (persist_working digest node W None (transaction_enter (store t)))
    as (h & node' & s1 & Hp & M' & S' & Hh & Sk' & _).
  rewrite Hp. cbn [bind]. eexists. split; [reflexivity|].
  pose proof (persist_session _ _ _ _ _ _ _ Hp) as F.
  apply same_session_enter in F as (Ftx & _).
  split; [|split].
  - unfold Tree_ok. simpl. split; [reflexivity|]. split; [exact M'|].
    split; [exact S'|]. exists sk. rewrite Sk'. auto.
  - simpl. exact Ftx.
  - intros x. unfold Tree_lookup at 1. simpl. rewrite Sk', Sk. simpl. apply Hfind.
Qed.

Lemma Tree_remove_ok (key : Buffer) (t : Tree) :
  Tree_ok digest t ->
  exists t',
    Tree_remove digest key t = Ok t'
    /\ Tree_ok digest t'
    /\ transactions (store t') = transactions (store t)
    /\ (forall x, Tree_lookup t' x
                  = if Buffer_eqb x key then None else Tree_lookup t x).
Proof.
  intros Hok. pose proof (root_ok t Hok) as Hroot.
  unfold Tree_remove.
  unfold Tree_ok in Hok. unfold Tree_lookup at 2.
  destruct (persisted t) as [n|].
  - destruct Hok as (_ & M & S & sk & Sk & A & B). rewrite Hroot.
    destruct (materialize_stored digest n M S) as (Mm & _).
    pose proof (skel_materialize n) as Skm. rewrite Sk in Skm.
    destruct (remove_spec digest key _ _ (transaction_enter (store t)) Mm Skm A)
      as (res & s1 & Hrem & Hres).
    rewrite Hrem. cbn [bind].
    pose proof (remove_session _ _ _ _ _ Hrem) as F1.
    destruct (sremove sk key) as [sk'|] eqn:Esk.
    + destruct Hres as (node & -> & Snode & Wnode).
      destruct (persist_working digest node Wnode None s1)
        as (h & node' & s2 & Hp & M' & S' & Hh & Sk' & _).
      rewrite Hp. cbn [bind]. eexists. split; [reflexivity|].
      pose proof (persist_session _ _ _ _ _ _ _ Hp) as F2.
      pose proof (same_session_trans _ _ _ F1 F2) as F.
      apply same_session_enter in F as (Ftx & _).
      split; [|split].
      * unfold Tree_ok. simpl. rewrite Hh. split; [reflexivity|].
        split; [exact M'|]. split; [exact S'|]. exists sk'. rewrite Sk'.
        split; [exact Snode|].
        split; [eapply avl_sremove; eassumption|eapply bst_sremove; eassumption].
      * simpl. exact Ftx.
      * intros x. unfold Tree_lookup. simpl. rewrite Sk', Snode, Sk. simpl.
        apply sfind_sremove; assumption.
    + subst res. cbn [bind]. eexists. split; [reflexivity|].
      apply same_session_enter in F1 as (Ftx & _).
      split; [|split].
      * unfold Tree_ok. simpl. reflexivity.
      * simpl. exact Ftx.
      * intros x. unfold Tree_lookup. simpl. rewrite Sk. simpl.
        apply sremove_None in Esk as (k1 & v1 & -> & E). simpl.
        unfold Buffer_eqb.
        cmp key k1; try discriminate. subst k1.
        destruct (Buffer_compare x key =? 0); reflexivity.
  - rewrite Hroot. cbn [bind]. eexists. split; [reflexivity|].
    split; [|split].
    + unfold Tree_ok. simpl. reflexivity.
    + simpl. unfold transaction_enter.
      destruct (transactions (store t)) eqn:E; simpl; auto.
    + intros x. unfold Tree_lookup. simpl. destruct (Buffer_eqb x key); reflexivity.
Qed.

Lemma run_ok (ops : list (Op T)) :
  forall t depth content,
    Tree_ok digest t ->
    length (transactions (store t)) = depth ->
    accepted T falsy depth ops = true ->
    (forall x, Tree_lookup t x = option_map pack (content x)) ->
    exists t',
      run digest T pack falsy ops t = Ok t'
      /\ Tree_ok digest t'
      /\ forall x, Tree_lookup t' x
                   = option_map pack (last_write T ops x (content x)).
Proof.
  induction ops as [|op rest IH]; intros t depth content Hok Hd Hacc Hc.
  - exists t. simpl. auto.
  - destruct op as [key value|key| |]; simpl in Hacc; cbn [run apply_op].
    + apply andb_true_iff in Hacc as [Hf Hacc]. apply negb_true_iff in Hf.
      destruct (Tree_insert_ok key value t Hok Hf) as (t1 & -> & Hok1 & Htx & Hl).
      cbn [bind].
      apply (IH t1 depth (fun x => if Buffer_eqb x key then Some value else content x));
        auto; [congruence|].
      intros x. rewrite Hl, Hc. destruct (Buffer_eqb x key); reflexivity.
    + destruct (Tree_remove_ok key t Hok) as (t1 & -> & Hok1 & Htx & Hl).
      cbn [bind].
      apply (IH t1 depth (fun x => if Buffer_eqb x key then None else content x));
        auto; [congruence|].
      intros x. rewrite Hl, Hc. destruct (Buffer_eqb x key); reflexivity.
    + unfold Tree_startTransaction. cbn [bind].
      apply (IH _ (S depth) content); auto.
      simpl. unfold startTransaction, transaction, transaction_enter.
      destruct (transactions (store t)) eqn:E; simpl; rewrite ?E; simpl;
        simpl in Hd; congruence.
    + destruct depth as [|depth']; [discriminate|].
      unfold Tree_commitTransaction, commitTransaction.
      destruct (transactions (store t)) as [|tx txs] eqn:E; [discriminate|].
      cbn [bind]. apply (IH _ depth' content); auto.
Qed.
End FacadeFacts.

(** ** From shapes back to nodes *)

Lemma ref_skel_height (r : Ref) (t : Skel) :
  (forall c, deref r = Some c -> forall t, skel c = Some t -> avl t ->
             true_height c = sheight t) ->
  ref_skel r = Some t -> avl t -> ref_height r = sheight t.
Proof. destruct r as [|c|c]; simpl; [discriminate| |]; intros IH H A; eauto. Qed.

Lemma true_height_skel (n : Node) :
  forall t, skel n = Some t -> avl t -> true_height n = sheight t.
Proof.
  induction n as [d|d l r IHl IHr] using Node_induction; intros t H A.
  - simpl in H. injection H as <-. reflexivity.
  - apply skel_Branch_inv in H as (tl & tr & Sl & Sr & ->).
    simpl in A. destruct A as (Hl & Hr & Hb & Al & Ar).
    change (true_height (Branch d l r)) with (1 + Z.max (ref_height l) (ref_height r)).
    rewrite (ref_skel_height l tl IHl Sl Al), (ref_skel_height r tr IHr Sr Ar).
    simpl. rewrite Hl, Hr. reflexivity.
Qed.

Lemma every_branch_Branch P d l r :
  every_branch P (Branch d l r)
  <-> P d l r
      /\ (forall c, deref l = Some c -> every_branch P c)
      /\ (forall c, deref r = Some c -> every_branch P c).
Proof.
  simpl. split.
  - intros (H & Hl & Hr). split; [exact H|].
    split; intros c E; [destruct l|destruct r]; simpl in E; try discriminate;
      injection E as <-; assumption.
  - intros (H & Hl & Hr). split; [exact H|].
    split; [destruct l|destruct r]; simpl; auto.
Qed.

Lemma balanced_skel (n : Node) :
  forall t, skel n = Some t -> avl t -> every_branch balanced_branch n.
Proof.
  induction n as [d|d l r IHl IHr] using Node_induction; intros t H A.
  - exact I.
  - apply skel_Branch_inv in H as (tl & tr & Sl & Sr & ->).
    simpl in A. destruct A as (Hl & Hr & Hb & Al & Ar).
    apply every_branch_Branch. split; [|split].
    + unfold balanced_branch.
      rewrite (ref_skel_height l tl (fun c _ => true_height_skel c) Sl Al).
      rewrite (ref_skel_height r tr (fun c _ => true_height_skel c) Sr Ar).
      repeat split; auto. lia.
    + intros c E. apply ref_skel_deref in Sl as (c' & E' & Sc).
      assert (c' = c) by congruence. subst c'. eapply IHl; eassumption.
    + intros c E. apply ref_skel_deref in Sr as (c' & E' & Sc).
      assert (c' = c) by congruence. subst c'. eapply IHr; eassumption.
Qed.

Lemma leaf_keys_skel (n : Node) : forall t, skel n = Some t -> leaf_keys n = skeys t.
Proof.
  induction n as [d|d l r IHl IHr] using Node_induction; intros t H.
  - simpl in H. injection H as <-. reflexivity.
  - apply skel_Branch_inv in H as (tl & tr & Sl & Sr & ->).
    simpl. f_equal.
    + destruct l as [|c|c]; simpl in Sl; try discriminate; apply (IHl c eq_refl _ Sl).
    + destruct r as [|c|c]; simpl in Sr; try discriminate; apply (IHr c eq_refl _ Sr).
Qed.

Lemma split_skel (n : Node) :
  forall t, skel n = Some t -> bst t -> every_branch split_branch n.
Proof.
  induction n as [d|d l r IHl IHr] using Node_induction; intros t H B.
  - exact I.
  - apply skel_Branch_inv in H as (tl & tr & Sl & Sr & ->).
    simpl in B. destruct B as (Hl & Hr & Hk & Bl & Br).
    apply ref_skel_deref in Sl as (cl & El & Scl).
    apply ref_skel_deref in Sr as (cr & Er & Scr).
    apply every_branch_Branch. split; [|split].
    + split.
      * destruct (skel_leftmost cr tr Scr) as (m & Hm & Hkm & (md & ->)).
        exists cr, md. split; [exact Er|]. split; [exact Hm|].
        split; [simpl in Hkm; congruence|].
        rewrite (leaf_keys_skel cr tr Scr). exact Hr.
      * exists cl. split; [exact El|].
        rewrite (leaf_keys_skel cl tl Scl). exact Hl.
    + intros c E. assert (cl = c) by congruence. subst c. eapply IHl; eassumption.
    + intros c E. assert (cr = c) by congruence. subst c. eapply IHr; eassumption.
Qed.

Section Sessions.
Variable digest : Buffer -> Buffer.
Variable T : Type.
Variable pack : T -> Buffer.
Variable unpack : Buffer -> T.
Variable falsy : T -> bool.

Lemma new_Tree_ok : Tree_ok digest new_Tree.
Proof. reflexivity. Qed.

Lemma accepted_firstn (ops : list (Op T)) :
  forall depth n,
    accepted T falsy depth ops = true ->
    accepted T falsy depth (firstn n ops) = true.
Proof.
  induction ops as [|op rest IH]; intros depth n H; destruct n as [|n]; auto.
  destruct op; simpl in *.
  - apply andb_true_iff in H as [H1 H2]. rewrite H1. simpl. auto.
  - auto.
  - auto.
  - destruct depth; [discriminate|]. auto.
Qed.

Lemma run_new_Tree (ops : list (Op T)) :
  accepted T falsy 0 ops = true ->
  exists t,
    run digest T pack falsy ops new_Tree = Ok t
    /\ Tree_ok digest t
    /\ forall x, Tree_lookup t x = option_map pack (last_write T ops x None).
Proof.
  intros H.
  apply (run_ok digest T pack falsy ops new_Tree 0 (fun _ => None)); auto.
  apply new_Tree_ok.
Qed.

Lemma root_stored (t : Tree) :
  Tree_ok digest t ->
  match root t with
  | Some r =>
      exists sk, skel r = Some sk /\ avl sk /\ bst sk
                 /\ merkle digest r /\ sealed r /\ rootHash t = node_hash r
                 /\ forall x, Tree_lookup t x = sfind sk x
  | None => forall x, Tree_lookup t x = None
  end.
Proof.
  intros Hok. pose proof (root_ok digest t Hok) as Hroot.
  unfold Tree_ok, Tree_lookup in *. destruct (persisted t) as [n|]; rewrite Hroot.
  - destruct Hok as (E & M & S & sk & Sk & A & B).
    destruct (materialize_stored digest n M S) as (Mm & Sm).
    exists sk. rewrite skel_materialize, node_hash_materialize, Sk. auto 10.
  - auto.
Qed.

Lemma Tree_get_lookup (key : Buffer) (t : Tree) :
  Tree_ok digest t ->
  Tree_get T unpack key t = Ok (option_map unpack (Tree_lookup t key))
  /\ Tree_has key t = Ok (isSome (Tree_lookup t key)).
Proof.
  intros Hok. pose proof (root_stored t Hok) as H.
  unfold Tree_get, Tree_has. destruct (root t) as [r|].
  - destruct H as (sk & Sk & _ & _ & _ & _ & _ & Hl).
    destruct (skel_find key r sk Sk) as (leaf & -> & Hv & _). cbn [bind].
    rewrite Hl, <- Hv. destruct leaf; auto.
  - rewrite H. auto.
Qed.
End Sessions.







(** ** Membership proofs *)

Lemma map_result_app {A B : Type} (f : A -> Result B) (l : list A) (a : A)
    (bs : list B) (b : B) :
  map_result f l = Ok bs -> f a = Ok b -> map_result f (l ++ [a]) = Ok (bs ++ [b]).
Proof.
  revert bs. induction l as [|x l IH]; intros bs Hl Ha; simpl in *.
  - injection Hl as <-. rewrite Ha. reflexivity.
  - destruct (f x) as [y|]; [|discriminate]. cbn [bind] in *.
    destruct (map_result f l) as [ys|]; [|discriminate]. cbn [bind] in *.
    injection Hl as <-. rewrite (IH ys eq_refl Ha). reflexivity.
Qed.

Section ProofFacts.
Variable digest : Buffer -> Buffer.

Lemma sha256_inj (a b c b' c' : Buffer) :
  (forall x y, digest x = digest y -> x = y) ->
  sha256 digest [a; b; c] = sha256 digest [a; b'; c'] ->
  b ++ c = b' ++ c'.
Proof.
  intros Hinj H. unfold sha256, Buffer_concat in H. apply Hinj in H.
  change (a ++ b ++ c ++ [] = a ++ b' ++ c' ++ []) in H.
  apply app_inv_head in H. rewrite !app_nil_r in H. exact H.
Qed.

Lemma verify_branches_app (bs : list ProofBranch) (b : ProofBranch) :
  forall h h',
    verify_branches digest bs h = Ok h' ->
    verify_branches digest (bs ++ [b]) h = verify_branches digest [b] h'.
Proof.
  induction bs as [|[[v l] r] bs IH]; intros h h' H.
  - simpl in H. injection H as <-. reflexivity.
  - cbn [app verify_branches] in *. destruct l as [l|]; [|destruct r as [r|]]; auto.
    discriminate.
Qed.

(** The path to the leaf that the search for [key] ends in, the branch
    entries of the proof, and the hash they lead to from a leaf hash. *)
Lemma findPath_spec (key : Buffer) (this : Node) :
  forall sk acc,
    merkle digest this -> sealed this -> skel this = Some sk ->
    exists d path branches v hd,
      findPath this key acc = Ok (acc ++ Leaf d :: path)
      /\ find this key
         = Ok (if Buffer_compare key (leaf_key d) =? 0 then Some d else None)
      /\ map_result (proof_branch key) path = Ok branches
      /\ leaf_version d = Some v
      /\ hd = sha256 digest [numberToBuffer v; leaf_key d; leaf_value d]
      /\ forall h,
           exists h',
             verify_branches digest branches h = Ok h'
             /\ (h = hd -> node_hash this = Some h')
             /\ ((forall a b, digest a = digest b -> a = b) ->
                 h <> hd -> node_hash this <> Some h').
Proof.
  induction this as [d|d l r IHl IHr] using Node_induction; intros sk acc M S Sk.
  - destruct M as (W & D). simpl in W, D. destruct W as (_ & W).
    destruct (W D) as (v & Hv & Hh).
    exists d, [], [], v, (sha256 digest [numberToBuffer v; leaf_key d; leaf_value d]).
    simpl. repeat split; auto.
    intros h. exists h. split; [reflexivity|]. split; [congruence|].
    intros _ N E. apply N. congruence.
  - destruct (merkle_children digest _ _ _ M) as (cl & cr & El & Er & Ml & Mr).
    destruct (sealed_children _ _ _ _ _ S El Er) as (Hl & Hr & Sl & Sr).
    apply skel_Branch_inv in Sk as (tl & tr & Skl & Skr & _).
    apply ref_skel_deref in Skl as (cl' & El' & Skl).
    apply ref_skel_deref in Skr as (cr' & Er' & Skr).
    assert (cl' = cl) by congruence. assert (cr' = cr) by congruence. subst cl' cr'.
    destruct M as (W & D). apply working_Branch in W as (_ & _ & _ & Hc).
    simpl in D. destruct (Hc D) as (bv & hl & hr & Ev & Ehl & Ehr & Eh & _ & _).
    unfold ref_hash in Ehl, Ehr. rewrite El in Ehl. rewrite Er in Ehr.
    simpl in Ehl, Ehr.
    assert (Efp : findPath (Branch d l r) key acc
                  = (path' <- (if Buffer_compare key (branch_key d) <? 0
                               then findPath cl key acc else findPath cr key acc) ;;
                     Ok (path' ++ [Branch d l r]))).
    { destruct l as [|x|x], r as [|y|y]; simpl in El, Er; try discriminate;
        injection El as ->; injection Er as ->; reflexivity. }
    assert (Efind : find (Branch d l r) key
                    = if Buffer_compare key (branch_key d) <? 0
                      then find cl key else find cr key).
    { destruct l as [|x|x], r as [|y|y]; simpl in El, Er; try discriminate;
        injection El as ->; injection Er as ->; reflexivity. }
    rewrite Efp, Efind. clear Efp Efind.
    destruct (Buffer_compare key (branch_key d) <? 0) eqn:Ecmp.
    + destruct (IHl cl El tl acc Ml Sl Skl)
        as (ld & path & branches & v & hd & Hfp & Hfind & Hmap & Hv & Hhd & Hchain).
      exists ld, (path ++ [Branch d l r]),
        (branches ++ [(numberToBuffer bv, None, rightHash d)]), v, hd.
      rewrite Hfp. cbn [bind]. split; [rewrite <- app_assoc; reflexivity|].
      split; [exact Hfind|]. split.
      { apply map_result_app; [exact Hmap|].
        unfold proof_branch. simpl. rewrite Ev, Ecmp. reflexivity. }
      split; [exact Hv|]. split; [exact Hhd|].
      intros h. destruct (Hchain h) as (h' & Hver & Heq & Hne).
      rewrite (verify_branches_app _ _ _ _ Hver). rewrite Hr, Ehr. simpl.
      eexists. split; [reflexivity|]. split.
      * intros E. specialize (Heq E). rewrite Eh. congruence.
      * intros Hinj N E. apply (Hne Hinj N). rewrite Eh in E.
        apply Ok_inj_Some in E. apply (sha256_inj _ _ _ _ _ Hinj) in E.
        apply app_inv_tail in E. congruence.
    + destruct (IHr cr Er tr acc Mr Sr Skr)
        as (ld & path & branches & v & hd & Hfp & Hfind & Hmap & Hv & Hhd & Hchain).
      exists ld, (path ++ [Branch d l r]),
        (branches ++ [(numberToBuffer bv, leftHash d, None)]), v, hd.
      rewrite Hfp. cbn [bind]. split; [rewrite <- app_assoc; reflexivity|].
      split; [exact Hfind|]. split.
      { apply map_result_app; [exact Hmap|].
        unfold proof_branch. simpl. rewrite Ev, Ecmp. reflexivity. }
      split; [exact Hv|]. split; [exact Hhd|].
      intros h. destruct (Hchain h) as (h' & Hver & Heq & Hne).
      rewrite (verify_branches_app _ _ _ _ Hver). rewrite Hl, Ehl. simpl.
      eexists. split; [reflexivity|]. split.
      * intros E. specialize (Heq E). rewrite Eh. congruence.
      * intros Hinj N E. apply (Hne Hinj N). rewrite Eh in E.
        apply Ok_inj_Some in E. apply (sha256_inj _ _ _ _ _ Hinj) in E.
        apply app_inv_head in E. congruence.
Qed.
End ProofFacts.

Section VerifyFacts.
Variable digest : Buffer -> Buffer.
Variable T : Type.
Variable pack : T -> Buffer.
Hypothesis digest_injective : forall a b, digest a = digest b -> a = b.

Lemma Buffer_compare_eq (a b : Buffer) : Buffer_compare a b = 0 <-> a = b.
Proof.
  split.
  - intros H. destruct (Buffer_compare_spec a b) as [(C & _) | [(_ & E) | (C & _)]];
      [congruence|exact E|congruence].
  - intros ->. apply Buffer_compare_refl.
Qed.

Lemma proof_iff_lookup (t : Tree) (key : Buffer) (value : T) :
  Tree_ok digest t ->
  (exists p, getProof key t = Ok p
             /\ verifyProof digest T pack p key value t = Ok tt)
  <-> Tree_lookup t key = Some (pack value).
Proof.
  intros Hok. pose proof (root_stored digest t Hok) as H.
  unfold getProof. destruct (root t) as [r|].
  - destruct H as (sk & Sk & _ & _ & M & S & Hroot & Hl).
    destruct (findPath_spec digest key r sk [] M S Sk)
      as (d & path & branches & v & hd & Hfp & Hfind & Hmap & Hv & Hhd & Hchain).
    destruct (skel_find key r sk Sk) as (leaf & Hfind' & Hval & _).
    rewrite Hfind in Hfind'. apply Ok_inj in Hfind'.
    rewrite Hl, <- Hval, <- Hfind'. clear Hval Hfind' leaf.
    rewrite Hfp. cbn [bind app]. rewrite Hv. cbn [bind defined]. rewrite Hmap.
    cbn [bind].
    destruct (Hchain (sha256 digest [numberToBuffer v; key; leaf_value d]))
      as (h' & Hver & Heq & Hne).
    assert (Everify :
              verifyProof digest T pack
                (numberToBuffer v, key, leaf_value d, branches) key value t
              = if negb (Buffer_compare (leaf_value d) (pack value) =? 0)
                then Throw (Error "Values do not match.")
                else match rootHash t with
                     | Some rh =>
                         if Buffer_compare rh h' =? 0 then Ok tt
                         else Throw (Error "Calculated root hash does not match.")
                     | None => Throw (Error "Calculated root hash does not match.")
                     end).
    { unfold verifyProof. rewrite Buffer_compare_refl. cbn [negb Z.eqb].
      destruct (negb _); [reflexivity|]. rewrite Hver. reflexivity. }
    destruct (Z.eqb_spec (Buffer_compare key (leaf_key d)) 0) as [Ek|Nk].
    + apply Buffer_compare_eq in Ek. subst key. specialize (Heq (eq_sym Hhd)).
      rewrite Hroot, Heq, Buffer_compare_refl in Everify. cbn [Z.eqb] in Everify.
      split.
      * intros (p & Hp & Hvp). apply Ok_inj in Hp. subst p. rewrite Everify in Hvp.
        simpl. f_equal. apply Buffer_compare_eq.
        destruct (Z.eqb_spec (Buffer_compare (leaf_value d) (pack value)) 0);
          [assumption|discriminate].
      * simpl. intros E. apply Ok_inj_Some in E. eexists. split; [reflexivity|].
        rewrite Everify, E, Buffer_compare_refl. reflexivity.
    + split; [|discriminate].
      intros (p & Hp & Hvp). apply Ok_inj in Hp. subst p. rewrite Everify in Hvp.
      exfalso.
      destruct (negb _); [discriminate|].
      assert (Hneq : sha256 digest [numberToBuffer v; key; leaf_value d] <> hd).
      { rewrite Hhd. intros E. apply (sha256_inj _ _ _ _ _ _ digest_injective) in E.
        apply app_inv_tail in E. apply Nk. subst key. apply Buffer_compare_refl. }
      specialize (Hne digest_injective Hneq).
      rewrite Hroot in Everify, Hvp.
      destruct (node_hash r) as [rh|]; [|discriminate].
      destruct (Z.eqb_spec (Buffer_compare rh h') 0) as [E|E]; [|discriminate].
      apply Buffer_compare_eq in E. congruence.
  - cbn [bind]. rewrite H. split; [|discriminate].
    intros (p & Hp & _). discriminate.
Qed.
End VerifyFacts.



(** ** Removing a key that is not there *)

Lemma sfind_complete (t : Skel) (x : Buffer) :
  bst t -> In x (skeys t) -> sfind t x <> None.
Proof.
  induction t as [k0 v0|k lh rh l IHl r IHr]; simpl.
  - intros _ [->|[]]. rewrite Buffer_compare_refl. discriminate.
  - intros (Hl & Hr & Hk & Bl & Br) Hin. apply in_app_or in Hin as [Hin|Hin].
    + rewrite Forall_forall in Hl. rewrite (Hl _ Hin). simpl. auto.
    + rewrite Forall_forall in Hr. specialize (Hr _ Hin).
      cmp x k; simpl; auto; lia.
Qed.

Lemma fresh_materialize (n : Node) :
  forall t, skel n = Some t -> fresh (materialize n).
Proof.
  induction n as [d|d l r IHl IHr] using Node_induction; intros t H.
  - exact I.
  - apply skel_Branch_inv in H as (tl & tr & Sl & Sr & _).
    destruct l as [|x|x]; simpl in Sl; try discriminate;
      destruct r as [|y|y]; simpl in Sr; try discriminate; simpl; split;
      solve [eapply (IHl x eq_refl); eassumption
            |eapply (IHr y eq_refl); eassumption].
Qed.

Lemma balance_balanced (d : BranchData) (l r : Ref) :
  -1 <= leftHeight d - rightHeight d <= 1 ->
  balance (Branch d l r) = Ok (Branch d l r).
Proof.
  intros H. unfold balance, balanceFactor.
  destruct (Z.eqb_spec (leftHeight d - rightHeight d) 2); [lia|].
  destruct (Z.eqb_spec (leftHeight d - rightHeight d) (-2)); [lia|reflexivity].
Qed.

Lemma hash_differs_same (h : option Buffer) : hash_differs h h = false.
Proof.
  destruct h as [h|]; simpl; [|reflexivity].
  unfold Buffer_eqb. rewrite Buffer_compare_refl. reflexivity.
Qed.

Section RemoveAbsent.
Variable digest : Buffer -> Buffer.

Lemma remove_absent (key : Buffer) (this : Node) :
  forall sk s v,
    merkle digest this -> sealed this -> fresh this ->
    skel this = Some sk -> avl sk -> bst sk -> sfind sk key = None ->
    exists n n',
      remove this key s = Ok (Some n, s)
      /\ persist digest n v s = Ok (node_hash this, n', s)
      /\ materialize n' = materialize this
      /\ node_isDirty n = false /\ node_hash n = node_hash this
      /\ node_height n = node_height this
      /\ node_hash n' = node_hash this.
Proof.
  induction this as [d|d l r IHl IHr] using Node_induction;
    intros sk s v M S F Sk A B Hf.
  - simpl in Sk. injection Sk as <-. simpl in Hf.
    destruct M as (_ & D). simpl in D.
    exists (Leaf d), (Leaf d). simpl.
    destruct (Buffer_compare key (leaf_key d) =? 0); [discriminate|].
    rewrite D. auto 10.
  - destruct l as [|cl|cl]; try (destruct F; fail).
    destruct r as [|cr|cr]; try (destruct F; fail).
    destruct F as (Fl & Fr).
    destruct (merkle_children digest _ _ _ M) as (cl' & cr' & El & Er & Ml & Mr).
    simpl in El, Er. injection El as <-. injection Er as <-.
    destruct (sealed_children _ _ _ _ _ S eq_refl eq_refl) as (Hl & Hr & Sl & Sr).
    simpl in Sk.
    destruct (skel cl) as [tl|] eqn:Skl; [|discriminate].
    destruct (skel cr) as [tr|] eqn:Skr; [|discriminate].
    injection Sk as <-.
    simpl in A. destruct A as (Hlh & Hrh & Hb & Al & Ar).
    simpl in B. destruct B as (Bl & Br & Hk & Bstl & Bstr).
    destruct M as (W & D). simpl in D.
    simpl in Hf. cbn [remove].
    assert (Hne : Buffer_compare key (branch_key d) <> 0).
    { intros E. apply Buffer_compare_eq in E. subst key.
      assert (Hin : In (branch_key d) (skeys tr))
        by (rewrite <- Hk; apply sleftkey_in).
      rewrite Forall_forall in Br. specialize (Br _ Hin).
      destruct (Buffer_compare (branch_key d) (branch_key d) <? 0) eqn:E;
        [rewrite Buffer_compare_refl in E; discriminate|].
      exact (sfind_complete tr _ Bstr Hin Hf). }
    destruct (Buffer_compare key (branch_key d) <? 0) eqn:Ecmp.
    + destruct (IHl cl eq_refl tl s None Ml Sl Fl Skl Al Bstl Hf)
        as (n & n' & Hrem & Hper & Hmat & Hd & Hh & Hht & Hh').
      rewrite Hrem. cbn [bind].
      assert (Hset : set_left (Branch d (Stored cl) (Stored cr)) n
                     = Branch (mkBranch (branch_key d) (branch_version d)
                                 (leftHeight d) (rightHeight d) None (rightHash d)
                                 (branch_hash d) false) (Cached n) (Stored cr)).
      { unfold set_left. rewrite Hd, D, Hh, Hl. unfold ref_hash. simpl.
        rewrite hash_differs_same, Hht, (skel_height _ _ Skl), <- Hlh. reflexivity. }
      rewrite Hset, balance_balanced by (simpl; lia). cbn [bind].
      eexists _, _. split; [reflexivity|].
      cbn [persist bind]. rewrite Hper. cbn [bind]. simpl.
      split; [reflexivity|]. split; [|auto].
      cbn [materialize branch_key branch_version leftHeight rightHeight leftHash
             rightHash branch_hash].
      rewrite Hmat. change (ref_hash (Stored cl)) with (node_hash cl) in Hl.
      rewrite <- Hl. reflexivity.
    + destruct (IHr cr eq_refl tr s None Mr Sr Fr Skr Ar Bstr Hf)
        as (n & n' & Hrem & Hper & Hmat & Hd & Hh & Hht & Hh').
      rewrite Hrem. cbn [bind].
      assert (Hgt : (Buffer_compare key (branch_key d) <? 1) = false).
      { cmp key (branch_key d); try discriminate; try reflexivity. congruence. }
      rewrite Hgt. cbn [bind].
      assert (Hset : set_right (Branch d (Stored cl) (Stored cr)) n
                     = Branch (mkBranch (branch_key d) (branch_version d)
                                 (leftHeight d) (rightHeight d) (leftHash d) None
                                 (branch_hash d) false) (Stored cl) (Cached n)).
      { unfold set_right. rewrite Hd, D, Hh, Hr. unfold ref_hash. simpl.
        rewrite hash_differs_same, Hht, (skel_height _ _ Skr), <- Hrh. reflexivity. }
      rewrite Hset, balance_balanced by (simpl; lia). cbn [bind].
      eexists _, _. split; [reflexivity|].
      cbn [persist bind]. rewrite Hper. cbn [bind]. simpl.
      split; [reflexivity|]. split; [|auto].
      cbn [materialize branch_key branch_version leftHeight rightHeight leftHash
             rightHash branch_hash].
      rewrite Hmat. change (ref_hash (Stored cr)) with (node_hash cr) in Hr.
      rewrite <- Hr. reflexivity.
Qed.
End RemoveAbsent.

Lemma Tree_has_lookup (digest : Buffer -> Buffer) (key : Buffer) (t : Tree) :
  Tree_ok digest t -> Tree_has key t = Ok (isSome (Tree_lookup t key)).
Proof.
  intros Hok. pose proof (root_stored digest t Hok) as H.
  unfold Tree_has. destruct (root t) as [r|].
  - destruct H as (sk & Sk & _ & _ & _ & _ & _ & Hl).
    destruct (skel_find key r sk Sk) as (leaf & -> & Hv & _). cbn [bind].
    rewrite Hl, <- Hv. destruct leaf; auto.
  - rewrite H. auto.
Qed.

Lemma materialize_idempotent (n : Node) :
  materialize (materialize n) = materialize n.
Proof.
  induction n as [d|d l r IHl IHr] using Node_induction.
  - simpl. unfold new_Leaf. simpl. destruct (leaf_hash d); reflexivity.
  - assert (El : match l with
                 | Unset => Unset
                 | Stored c => Stored (materialize (materialize c))
                 | Cached c => Stored (materialize (materialize c))
                 end
                 = match l with
                   | Unset => Unset
                   | Stored c => Stored (materialize c)
                   | Cached c => Stored (materialize c)
                   end)
      by (destruct l as [|c|c]; try reflexivity; f_equal; apply (IHl c eq_refl)).
    assert (Er : match r with
                 | Unset => Unset
                 | Stored c => Stored (materialize (materialize c))
                 | Cached c => Stored (materialize (materialize c))
                 end
                 = match r with
                   | Unset => Unset
                   | Stored c => Stored (materialize c)
                   | Cached c => Stored (materialize c)
                   end)
      by (destruct r as [|c|c]; try reflexivity; f_equal; apply (IHr c eq_refl)).
    destruct l as [|cl|cl], r as [|cr|cr]; simpl in *;
      rewrite ?El, ?Er; try injection El as ->; try injection Er as ->;
      destruct (branch_hash d); reflexivity.
Qed.

Lemma get_putSync {V : Type} (k : Z) (v : V) (t : list (Z * V)) :
  get number_compare k (putSync number_compare k v t) = Some v.
Proof.
  assert (R : number_compare k k = 0)
    by (unfold number_compare; rewrite Z.ltb_irrefl; reflexivity).
  induction t as [|[k' v'] t IH]; simpl.
  - rewrite R. reflexivity.
  - destruct (number_compare k k' <? 0); simpl; [rewrite R; reflexivity|].
    destruct (number_compare k k' =? 0) eqn:E; simpl; [rewrite R; reflexivity|].
    rewrite E. exact IH.
Qed.




(** C3, where the code departs from it: on the tree that holds the
    single key ["a"], [getProof("b")] does not throw; it returns the leaf
    of ["a"] under the key ["b"]. *)
Theorem getProof_of_absent_key :
  exists t,
    run demo_digest Buffer demo_pack demo_falsy [OpInsert [97] [49]] new_Tree = Ok t
    /\ Tree_has [98] t = Ok false
    /\ getProof [98] t = Ok (numberToBuffer 1, [98], demo_pack [49], []).
Proof.
  eexists. split; [vm_compute; reflexivity|].
  split; vm_compute; reflexivity.
Qed.

(** C8, where the code departs from it: on the tree that holds the single
    key ["a"], the non-existence proof of ["b"] has no neighbour at all;
    and on the tree of ["a"] and ["b"] the proof of ["aa"] lacks its left
    neighbour ["a"]. *)
Theorem no_neighbour_found :
  (exists t,
      run demo_digest Buffer demo_pack demo_falsy [OpInsert [97] [49]] new_Tree = Ok t
      /\ root t <> None
      /\ Tree_has [98] t = Ok false
      /\ getNonExistenceProof t [98] = Ok (mkNonExistenceProof [98] None None))
  /\ (exists t p,
         run demo_digest Buffer demo_pack demo_falsy
           [OpInsert [97] [49]; OpInsert [98] [50]] new_Tree = Ok t
         /\ Tree_has [97; 97] t = Ok false
         /\ getNonExistenceProof t [97; 97] = Ok p
         /\ nep_left p = None).
Proof.
  split.
  - eexists. split; [vm_compute; reflexivity|].
    split; [vm_compute; discriminate|].
    split; vm_compute; reflexivity.
  - eexists. eexists. split; [vm_compute; reflexivity|].
    split; [vm_compute; reflexivity|].
    split; [vm_compute; reflexivity|reflexivity].
Qed.

(** ** Version numbers as bytes *)

Lemma numberToBuffer_digits (n : Z) :
  0 <= n < 4294967296 ->
  exists b3 b2 b1 b0,
    numberToBuffer n = [b3; b2; b1; b0]
    /\ 0 <= b3 < 256 /\ 0 <= b2 < 256 /\ 0 <= b1 < 256 /\ 0 <= b0 < 256
    /\ n = ((b3 * 256 + b2) * 256 + b1) * 256 + b0.
Proof.
  intros H. unfold numberToBuffer.
  eexists _, _, _, _. split; [reflexivity|].
  Z.div_mod_to_equations. lia.
Qed.

Lemma numberfromBuffer_numberToBuffer (n : Z) :
  0 <= n < 4294967296 -> numberfromBuffer (numberToBuffer n) = n.
Proof.
  intros H. destruct (numberToBuffer_digits n H) as (b3 & b2 & b1 & b0 & -> & _ & _ & _ & _ & ->).
  unfold numberfromBuffer. simpl. lia.
Qed.

Lemma numberToBuffer_compare (t a : Z) (x y : Buffer) :
  0 <= t < 4294967296 -> 0 <= a < 4294967296 ->
  Buffer_compare (numberToBuffer t ++ x) (numberToBuffer a ++ y)
  = if t <? a then -1 else if a <? t then 1 else Buffer_compare x y.
Proof.
  intros Ht Ha.
  destruct (numberToBuffer_digits t Ht) as (t3 & t2 & t1 & t0 & -> & ? & ? & ? & ? & Et).
  destruct (numberToBuffer_digits a Ha) as (a3 & a2 & a1 & a0 & -> & ? & ? & ? & ? & Ea).
  cbn [app Buffer_compare].
  destruct (Z.ltb_spec t a), (Z.ltb_spec a t);
    destruct (Z.ltb_spec t3 a3), (Z.ltb_spec a3 t3); try lia; try reflexivity;
    destruct (Z.ltb_spec t2 a2), (Z.ltb_spec a2 t2); try lia; try reflexivity;
    destruct (Z.ltb_spec t1 a1), (Z.ltb_spec a1 t1); try lia; try reflexivity;
    destruct (Z.ltb_spec t0 a0), (Z.ltb_spec a0 t0); try lia; try reflexivity.
Qed.

Lemma numberToBuffer_length (n : Z) : length (numberToBuffer n) = 4%nat.
Proof. reflexivity. Qed.

Lemma orphanKey_fromVersion (t f : Z) (h : Buffer) :
  Buffer_slice (orphanKey t f h) 4 8 = numberToBuffer f.
Proof. reflexivity. Qed.

Lemma orphanKey_hash (t f : Z) (h : Buffer) :
  Buffer_slice_from (orphanKey t f h) 8 = h.
Proof. unfold orphanKey, Buffer_concat, Buffer_slice_from. simpl. apply app_nil_r. Qed.

Lemma orphanKey_compare (t f a : Z) (h : Buffer) :
  0 <= t < 4294967296 -> 0 <= a < 4294967296 ->
  Buffer_compare (orphanKey t f h) (numberToBuffer a)
  = if t <? a then -1 else 1.
Proof.
  intros Ht Ha. unfold orphanKey, Buffer_concat.
  change (concat [numberToBuffer t; numberToBuffer f; h])
    with (numberToBuffer t ++ numberToBuffer f ++ h ++ []).
  rewrite <- (app_nil_r (numberToBuffer a)).
  rewrite numberToBuffer_compare by assumption.
  destruct (t <? a); [reflexivity|]. destruct (a <? t); reflexivity.
Qed.

Lemma orphanKey_inj (t f t' f' : Z) (h h' : Buffer) :
  0 <= t < 4294967296 -> 0 <= f < 4294967296 ->
  0 <= t' < 4294967296 -> 0 <= f' < 4294967296 ->
  orphanKey t f h = orphanKey t' f' h' -> t = t' /\ f = f' /\ h = h'.
Proof.
  intros Ht Hf Ht' Hf' E.
  assert (E1 : firstn 4 (orphanKey t f h) = firstn 4 (orphanKey t' f' h'))
    by (rewrite E; reflexivity).
  assert (E2 : Buffer_slice (orphanKey t f h) 4 8 = Buffer_slice (orphanKey t' f' h') 4 8)
    by (rewrite E; reflexivity).
  assert (E3 : Buffer_slice_from (orphanKey t f h) 8
               = Buffer_slice_from (orphanKey t' f' h') 8)
    by (rewrite E; reflexivity).
  change (numberToBuffer t = numberToBuffer t') in E1.
  rewrite !orphanKey_fromVersion in E2. rewrite !orphanKey_hash in E3.
  apply (f_equal numberfromBuffer) in E1, E2.
  rewrite !numberfromBuffer_numberToBuffer in E1, E2 by assumption. auto.
Qed.

(** ** Tables *)

Section TableFacts.
Context {K V : Type}.
Variable cmp : K -> K -> Z.
Hypothesis cmp_eq : forall a b, cmp a b = 0 <-> a = b.

Lemma In_removeSync (k : K) (t : Table (K := K) (V := V)) (e : K * V) :
  In e (removeSync cmp k t) <-> In e t /\ fst e <> k.
Proof.
  unfold removeSync. rewrite filter_In.
  destruct (Z.eqb_spec (cmp k (fst e)) 0) as [E | E]; simpl.
  - apply cmp_eq in E. split; [intros (_ & F); discriminate | intros (_ & N); congruence].
  - split; intros (I & _); (split; [exact I|]); [|reflexivity].
    intros N. apply E, cmp_eq. symmetry. exact N.
Qed.

Lemma In_keys_removeSync (k : K) (t : Table (K := K) (V := V)) (x : K) :
  In x (map fst (removeSync cmp k t)) <-> In x (map fst t) /\ x <> k.
Proof.
  rewrite !in_map_iff. split.
  - intros (e & <- & I). apply In_removeSync in I. destruct I as (I & N).
    split; [exists e; auto | exact N].
  - intros ((e & <- & I) & N). exists e. split; [reflexivity|].
    apply In_removeSync. auto.
Qed.

Lemma In_keys_putSync (k : K) (v : V) (t : Table (K := K) (V := V)) (x : K) :
  In x (map fst (putSync cmp k v t)) <-> x = k \/ In x (map fst t).
Proof.
  induction t as [| [k' v'] t IH]; simpl.
  - intuition.
  - destruct (cmp k k' <? 0); [simpl; intuition|].
    destruct (Z.eqb_spec (cmp k k') 0) as [E | E]; simpl.
    + apply cmp_eq in E. subst k'. intuition.
    + rewrite IH. intuition.
Qed.

Lemma In_getKeys (a b : K) (t : Table (K := K) (V := V)) (x : K) :
  In x (getKeys cmp a b t)
  <-> In x (map fst t) /\ 0 <= cmp x a /\ cmp x b < 0.
Proof.
  unfold getKeys. rewrite !in_map_iff. split.
  - intros (e & <- & I). apply filter_In in I. destruct I as (I & C).
    apply andb_true_iff in C. destruct C as (C1 & C2).
    apply Z.leb_le in C1. apply Z.ltb_lt in C2.
    split; [exists e; auto | auto].
  - intros ((e & <- & I) & C1 & C2). exists e. split; [reflexivity|].
    apply filter_In. split; [exact I|].
    apply andb_true_iff. split; [apply Z.leb_le | apply Z.ltb_lt]; assumption.
Qed.
End TableFacts.

Lemma number_compare_eq (a b : Z) : number_compare a b = 0 <-> a = b.
Proof.
  unfold number_compare.
  destruct (Z.ltb_spec a b), (Z.ltb_spec b a); split; intros; try lia; discriminate.
Qed.

(** ** Pruning *)

Lemma prune_orphan_record (p : Z) (s : Store) (k : Buffer) (t f : Z) (h : Buffer) :
  orphan_record k t f h ->
  versionDB (prune_orphan p s k) = versionDB s
  /\ orphanDB (prune_orphan p s k)
     = (if p <? f then removeSync Buffer_compare k (orphanDB s)
        else putSync Buffer_compare (orphanKey p f h) true
               (removeSync Buffer_compare k (orphanDB s)))
  /\ nodeDB (prune_orphan p s k)
     = (if p <? f then removeSync Buffer_compare h (nodeDB s) else nodeDB s).
Proof.
  intros (Ht & Hf & ->). unfold prune_orphan.
  rewrite orphanKey_fromVersion, orphanKey_hash.
  rewrite numberfromBuffer_numberToBuffer by lia.
  destruct (Z.ltb_spec p f) as [L | L].
  - simpl. auto.
  - unfold putOrphan.
    destruct (Z.eqb_spec p 0) as [E | _]; [lia|].
    destruct (Z.ltb_spec p f) as [L' | _]; [lia|].
    simpl. auto.
Qed.

Lemma prune_orphans_versionDB (p : Z) (R : list Buffer) :
  orphans_wf R ->
  forall s, versionDB (fold_left (prune_orphan p) R s) = versionDB s.
Proof.
  induction 1 as [| k R (t & f & h & W) _ IH]; intros s; simpl; [reflexivity|].
  rewrite IH. apply (prune_orphan_record p s k t f h W).
Qed.

Lemma prune_orphans_nodeDB (p : Z) (R : list Buffer) :
  orphans_wf R ->
  forall s e,
    In e (nodeDB (fold_left (prune_orphan p) R s))
    <-> In e (nodeDB s)
        /\ ~ (exists t f, orphan_record (orphanKey t f (fst e)) t f (fst e)
                          /\ In (orphanKey t f (fst e)) R /\ p < f).
Proof.
  induction 1 as [| k R (t & f & h & W) _ IH]; intros s e; simpl.
  - split; [intros I; split; [exact I|] | tauto].
    intros (? & ? & _ & [] & _).
  - rewrite IH.
    destruct (prune_orphan_record p s k t f h W) as (_ & _ & ->).
    pose proof W as (Ht & Hf & ->).
    destruct (Z.ltb_spec p f) as [L | L].
    + rewrite (In_removeSync Buffer_compare Buffer_compare_eq). split.
      * intros ((I & N) & X). split; [exact I|].
        intros (t' & f' & W' & [E | I'] & L'); [|apply X; eauto].
        destruct W' as (Ht' & Hf' & _).
        apply orphanKey_inj in E; [|assumption || lia ..].
        destruct E as (_ & _ & E). congruence.
      * intros (I & X). split; [split; [exact I|]|].
        -- intros E. apply X. exists t, f. rewrite E.
           split; [split; [exact Ht | split; [exact Hf | reflexivity]]|]. auto.
        -- intros (t' & f' & W' & I' & L'). apply X. eauto 6.
    + split.
      * intros (I & X). split; [exact I|].
        intros (t' & f' & W' & [E | I'] & L'); [|apply X; eauto].
        destruct W' as (Ht' & Hf' & _).
        apply orphanKey_inj in E; [|assumption || lia ..]. lia.
      * intros (I & X). split; [exact I|].
        intros (t' & f' & W' & I' & L'). apply X. eauto 6.
Qed.

Lemma prune_orphans_orphanDB (p : Z) (R : list Buffer) :
  p < 4294967296 ->
  orphans_wf R ->
  forall s K,
    In K (map fst (orphanDB (fold_left (prune_orphan p) R s)))
    <-> (In K (map fst (orphanDB s)) /\ ~ In K R)
        \/ (exists t f h, orphan_record (orphanKey t f h) t f h
                          /\ In (orphanKey t f h) R /\ f <= p
                          /\ K = orphanKey p f h).
Proof.
  intros Hp. induction 1 as [| k R (t & f & h & W) WR IH]; intros s K; simpl.
  - split; [intros I; left; tauto | intros [(I & _) | (? & ? & ? & _ & [] & _)]; exact I].
  - rewrite IH.
    destruct (prune_orphan_record p s k t f h W) as (_ & -> & _).
    pose proof W as (Ht & Hf & ->).
    destruct (Z.ltb_spec p f) as [L | L].
    + rewrite (In_keys_removeSync Buffer_compare Buffer_compare_eq). split.
      * intros [((I & N) & X) | (t' & f' & h' & W' & I' & L' & E)].
        -- left. split; [exact I|]. intros [E | I']; [congruence | tauto].
        -- right. exists t', f', h'. auto.
      * intros [(I & X) | (t' & f' & h' & W' & [E | I'] & L' & E')].
        -- left. split; [split; [exact I|]|]; intros Y; apply X; auto.
        -- destruct W' as (Ht' & Hf' & _).
           apply orphanKey_inj in E; [|assumption || lia ..]. lia.
        -- right. exists t', f', h'. auto.
    + rewrite (In_keys_putSync Buffer_compare Buffer_compare_eq).
      rewrite (In_keys_removeSync Buffer_compare Buffer_compare_eq). split.
      * intros [([E | (I & N)] & X) | (t' & f' & h' & W' & I' & L' & E)].
        -- right. exists t, f, h. auto.
        -- left. split; [exact I|]. intros [E | I']; [congruence | tauto].
        -- right. exists t', f', h'. auto.
      * intros [(I & X) | (t' & f' & h' & W' & [E | I'] & L' & E')].
        -- left. split; [right; split; [exact I|]|]; intros Y; apply X; auto.
        -- destruct W' as (Ht' & Hf' & _).
           apply orphanKey_inj in E; [|assumption || lia ..].
           destruct E as (_ & <- & <-).
           destruct (In_dec (list_eq_dec Z.eq_dec) K R) as [I | I].
           ++ right. exists p, f, h. subst K.
              split; [split; [unfold u32; lia | split; [exact Hf | reflexivity]]|].
              auto.
           ++ left. auto.
        -- right. exists t', f', h'. auto.
Qed.

Lemma prune_versions (L : list Z) :
  forall s,
    let s' := fold_left
                (fun s v => set_versionDB s (removeSync number_compare v (versionDB s)))
                L s in
    nodeDB s' = nodeDB s /\ orphanDB s' = orphanDB s
    /\ forall e, In e (versionDB s') <-> In e (versionDB s) /\ ~ In (fst e) L.
Proof.
  induction L as [| v L IH]; intros s; simpl.
  - repeat split; tauto.
  - destruct (IH (set_versionDB s (removeSync number_compare v (versionDB s))))
      as (N & O & V).
    split; [exact N | split; [exact O|]].
    intros e. rewrite V. simpl.
    rewrite (In_removeSync number_compare number_compare_eq).
    intuition.
Qed.

Lemma StronglySorted_filter {A : Type} (R : A -> A -> Prop) (P : A -> bool)
    (l : list A) :
  StronglySorted R l -> StronglySorted R (filter P l).
Proof.
  induction 1 as [| a l S IH F]; simpl; [constructor|].
  destruct (P a); [|exact IH].
  constructor; [exact IH|].
  apply (incl_Forall (incl_filter P l) F).
Qed.

Lemma StronglySorted_last {A : Type} (R : A -> A -> Prop) (l : list A) (e : A) :
  StronglySorted R (l ++ [e]) -> Forall (fun x => R x e) l.
Proof.
  induction l as [| a l IH]; simpl; intros S; [constructor|].
  inversion S as [| ? ? S' F]; subst.
  constructor; [|exact (IH S')].
  rewrite Forall_forall in F. apply F, in_or_app. right. left. reflexivity.
Qed.

Lemma previousVersion_spec (fromVersion : Z) (s : Store) :
  StronglySorted (fun a b => fst a < fst b) (versionDB s) ->
  let p := previousVersion fromVersion s in
  (p = 0 /\ forall v, In v (map fst (versionDB s)) -> fromVersion <= v)
  \/ (In p (map fst (versionDB s)) /\ p < fromVersion
      /\ forall v, In v (map fst (versionDB s)) -> v < fromVersion -> v <= p).
Proof.
  intros S. unfold previousVersion, getKeys_reverse1.
  set (P := fun e : Z * Buffer => number_compare (fst e) (fromVersion - 1) <=? 0).
  assert (HP : forall e, P e = true <-> fst e < fromVersion).
  { intros e. unfold P, number_compare. rewrite Z.leb_le.
    destruct (Z.ltb_spec (fst e) (fromVersion - 1)),
      (Z.ltb_spec (fromVersion - 1) (fst e)); lia. }
  pose proof (StronglySorted_filter _ P _ S) as SF.
  destruct (rev (filter P (versionDB s))) as [| e r] eqn:E.
  - left. simpl. split; [reflexivity|].
    intros v I. apply in_map_iff in I. destruct I as (x & <- & I).
    destruct (Z.lt_ge_cases (fst x) fromVersion) as [L | L]; [|exact L].
    apply (f_equal (@rev _)) in E. rewrite rev_involutive in E. simpl in E.
    assert (I' : In x (filter P (versionDB s)))
      by (apply filter_In; split; [exact I | apply HP, L]).
    rewrite E in I'. destruct I'.
  - right. simpl.
    apply (f_equal (@rev _)) in E. rewrite rev_involutive in E. simpl in E.
    assert (Ie : In e (filter P (versionDB s)))
      by (rewrite E; apply in_or_app; right; left; reflexivity).
    apply filter_In in Ie. destruct Ie as (Ie & Pe).
    split; [apply in_map; exact Ie|]. split; [apply HP, Pe|].
    intros v I L. apply in_map_iff in I. destruct I as (x & <- & I).
    assert (I' : In x (filter P (versionDB s)))
      by (apply filter_In; split; [exact I | apply HP, L]).
    rewrite E in SF, I'. apply StronglySorted_last in SF.
    rewrite Forall_forall in SF.
    apply in_app_or in I'. destruct I' as [I' | [<- | []]]; [|lia].
    specialize (SF x I'). lia.
Qed.

Lemma prune_range_spec (toVersion fromVersion : Z) (s : Store) (t f : Z)
    (h : Buffer) :
  1 <= fromVersion <= toVersion -> toVersion < 4294967295 -> u32 t ->
  In (orphanKey t f h) (prune_range toVersion fromVersion s)
  <-> In (orphanKey t f h) (map fst (orphanDB s))
      /\ fromVersion - 1 <= t <= toVersion.
Proof.
  intros Hf Ht U. unfold prune_range. rewrite In_getKeys.
  unfold u32 in U. rewrite !orphanKey_compare by lia.
  destruct (Z.ltb_spec t (fromVersion - 1)), (Z.ltb_spec t (toVersion + 1));
    split; intros (I & C); (split; [exact I | lia]).
Qed.

Lemma prune_range_wf (toVersion fromVersion : Z) (s : Store) :
  orphans_wf (map fst (orphanDB s)) ->
  orphans_wf (prune_range toVersion fromVersion s).
Proof.
  unfold orphans_wf. rewrite !Forall_forall. intros W k I.
  apply In_getKeys in I. apply W, I.
Qed.

(** C5 (amended).  [prune(toVersion, fromVersion)] visits the orphan
    records whose [toVersion] lies in [fromVersion - 1 .. toVersion]: the
    scan starts at the four bytes of [fromVersion - 1], and every orphan
    key with that prefix is longer, hence inside the range.  With [prevV]
    the largest version below [fromVersion] in the versions table, or [0]:
    the orphan table afterwards holds the records outside that interval
    unchanged, and for each record inside it with [fromVersion-of-the-orphan
    <= prevV] the record rewritten with [toVersion = prevV]; a node stays
    in the nodes table unless a visited record for its hash has
    [prevV < fromVersion-of-the-orphan]; the versions table loses exactly
    its entries in [fromVersion .. toVersion]. *)
Theorem prune_scans_from_previous_version (s : Store) (toVersion fromVersion : Z) :
  1 <= fromVersion <= toVersion -> toVersion < 4294967295 ->
  StronglySorted (fun a b => fst a < fst b) (versionDB s) ->
  orphans_wf (map fst (orphanDB s)) ->
  let prevV := previousVersion fromVersion s in
  let s' := prune toVersion fromVersion s in
  ((prevV = 0 /\ forall v, In v (map fst (versionDB s)) -> fromVersion <= v)
   \/ (In prevV (map fst (versionDB s)) /\ prevV < fromVersion
       /\ forall v, In v (map fst (versionDB s)) -> v < fromVersion -> v <= prevV))
  /\ (forall key,
        In key (map fst (orphanDB s'))
        <-> exists t f h,
              orphaned s t f h
              /\ ((~ fromVersion - 1 <= t <= toVersion /\ key = orphanKey t f h)
                  \/ (fromVersion - 1 <= t <= toVersion /\ f <= prevV
                      /\ key = orphanKey prevV f h)))
  /\ (forall hash c,
        In (hash, c) (nodeDB s')
        <-> In (hash, c) (nodeDB s)
            /\ ~ (exists t f, orphaned s t f hash
                              /\ fromVersion - 1 <= t <= toVersion /\ prevV < f))
  /\ (forall v rootHash,
        In (v, rootHash) (versionDB s')
        <-> In (v, rootHash) (versionDB s) /\ ~ fromVersion <= v <= toVersion).
Proof.
  intros Hf Ht S W prevV s'.
  pose proof (previousVersion_spec fromVersion s S) as P. fold prevV in P.
  assert (Hp : prevV < 4294967296) by (destruct P as [(-> & _) | (_ & L & _)]; lia).
  pose proof (prune_range_wf toVersion fromVersion s W) as WR.
  unfold s', prune. fold prevV.
  set (s1 := fold_left (prune_orphan prevV) (prune_range toVersion fromVersion s) s).
  destruct (prune_versions
              (getKeys number_compare fromVersion (toVersion + 1) (versionDB s1)) s1)
    as (EN & EO & EV).
  cbv zeta in EN, EO, EV. rewrite EN, EO.
  assert (V1 : versionDB s1 = versionDB s) by (apply prune_orphans_versionDB, WR).
  split; [exact P|]. split; [|split].
  - intros key. unfold s1. rewrite (prune_orphans_orphanDB prevV _ Hp WR). split.
    + intros [(I & X) | (t & f & h & (U & F & _) & I & L & ->)].
      * unfold orphans_wf in W. rewrite Forall_forall in W.
        destruct (W key I) as (t & f & h & U & F & ->).
        exists t, f, h. split; [split; [exact U | split; [exact F | assumption || reflexivity]]|].
        left. split; [|reflexivity]. intros C. apply X.
        apply prune_range_spec; auto.
      * apply prune_range_spec in I; [|assumption ..]. destruct I as (I & C).
        exists t, f, h. split; [split; [exact U | split; [exact F | assumption || reflexivity]]|]. right. auto.
    + intros (t & f & h & (U & F & I) & [(C & ->) | (C & L & ->)]).
      * left. split; [exact I|]. intros X.
        apply prune_range_spec in X; [|assumption ..]. tauto.
      * right. exists t, f, h. split; [split; [exact U | split; [exact F | assumption || reflexivity]]|].
        split; [|auto]. apply prune_range_spec; auto.
  - intros hash c. unfold s1. rewrite (prune_orphans_nodeDB prevV _ WR). simpl.
    split; intros (I & X); (split; [exact I|]); intros (t & f & Y); apply X;
      exists t, f.
    + destruct Y as ((U & F & I') & C & L).
      split; [split; [exact U | split; [exact F | assumption || reflexivity]]|]. split; [|exact L].
      apply prune_range_spec; auto.
    + destruct Y as ((U & F & _) & I' & L).
      apply prune_range_spec in I'; [|assumption ..]. destruct I' as (I' & C).
      split; [split; [exact U | split; [exact F | assumption || reflexivity]]|]. auto.
  - intros v rootHash. rewrite EV, V1. simpl. rewrite In_getKeys.
    unfold number_compare. split; intros (I & X); (split; [exact I|]).
    + intros C. apply X. split; [apply in_map with (f := fst) in I; exact I|].
      destruct (Z.ltb_spec v fromVersion), (Z.ltb_spec fromVersion v),
        (Z.ltb_spec v (toVersion + 1)), (Z.ltb_spec (toVersion + 1) v); lia.
    + intros (_ & C). apply X.
      destruct (Z.ltb_spec v fromVersion), (Z.ltb_spec fromVersion v),
        (Z.ltb_spec v (toVersion + 1)), (Z.ltb_spec (toVersion + 1) v); lia.
Qed.

Lemma prune_scans_from_previous_version_witness :
  1 <= 3 <= 3 /\ 3 < 4294967295
  /\ StronglySorted (fun a b => fst a < fst b) (versionDB gap_store)
  /\ orphans_wf (map fst (orphanDB gap_store))
  /\ previousVersion 3 gap_store = 1
  /\ forall key,
       In key (map fst (orphanDB (prune 3 3 gap_store)))
       <-> exists t f h,
             orphaned gap_store t f h
             /\ ((~ 3 - 1 <= t <= 3 /\ key = orphanKey t f h)
                 \/ (3 - 1 <= t <= 3 /\ f <= previousVersion 3 gap_store
                     /\ key = orphanKey (previousVersion 3 gap_store) f h)).
Proof.
  assert (H1 : 1 <= 3 <= 3) by lia.
  assert (H2 : 3 < 4294967295) by lia.
  assert (H3 : StronglySorted (fun a b => fst a < fst b) (versionDB gap_store)).
  { let l := eval vm_compute in (versionDB gap_store) in
    change (versionDB gap_store) with l.
    repeat constructor. }
  assert (H4 : orphans_wf (map fst (orphanDB gap_store))).
  { let l := eval vm_compute in (map fst (orphanDB gap_store)) in
    change (map fst (orphanDB gap_store)) with l.
    constructor; [|constructor].
    exists 2, 1, gap_leaf. split; [unfold u32; lia|]. split; [lia | reflexivity]. }
  split; [exact H1|]. split; [exact H2|]. split; [exact H3|]. split; [exact H4|].
  split; [reflexivity|].
  exact (proj1 (proj2 (prune_scans_from_previous_version gap_store 3 3 H1 H2 H3 H4))).
Defined.

(** C5 as stated fails on the record just below the interval.  After
    [gap_ops] the versions table holds [1], [3] and [4], and the leaf of
    version [1] is an orphan with [toVersion = 2]; [prune(3, 3)] removes
    that record, whose [toVersion] is outside [3 .. 3], and writes it
    again with [toVersion = 1]. *)
Lemma prune_rewrites_orphan_below_range :
  exists t,
    run demo_digest Buffer demo_pack demo_falsy gap_ops new_Tree = Ok t
    /\ store t = gap_store
    /\ map fst (versionDB gap_store) = [1; 3; 4]
    /\ orphaned gap_store 2 1 gap_leaf
    /\ ~ 3 <= 2 <= 3
    /\ ~ In (orphanKey 2 1 gap_leaf) (map fst (orphanDB (prune 3 3 gap_store)))
    /\ In (orphanKey 1 1 gap_leaf) (map fst (orphanDB (prune 3 3 gap_store))).
Proof.
  eexists. split; [vm_compute; reflexivity|].
  split; [reflexivity|]. split; [reflexivity|].
  split; [split; [unfold u32; lia | split; [lia | vm_compute; auto]]|].
  split; [lia|].
  split; [vm_compute; intros [E | []]; discriminate | vm_compute; auto].
Qed.

(* ================================================================= *)
(** * Further properties of the code *)

(** ** Numbers and buffers ([util.ts]) *)

(** X1.  For a version number in the range of four bytes,
    [numberToBuffer] writes four bytes, each below 256, and
    [numberfromBuffer] reads the number back. *)
Theorem number_buffer_round_trip (n : Z) :
  0 <= n < 4294967296 ->
  length (numberToBuffer n) = 4%nat
  /\ Forall (fun b => 0 <= b < 256) (numberToBuffer n)
  /\ numberfromBuffer (numberToBuffer n) = n.
Proof.
  intros H. split; [reflexivity|]. split.
  - destruct (numberToBuffer_digits n H) as (b3 & b2 & b1 & b0 & -> & ? & ? & ? & ? & _).
    repeat constructor; lia.
  - apply numberfromBuffer_numberToBuffer, H.
Qed.

Lemma number_buffer_round_trip_witness :
  0 <= 305419896 < 4294967296
  /\ numberToBuffer 305419896 = [18; 52; 86; 120]
  /\ numberfromBuffer (numberToBuffer 305419896) = 305419896.
Proof.
  assert (H : 0 <= 305419896 < 4294967296) by lia.
  split; [exact H|]. split; [reflexivity|].
  exact (proj2 (proj2 (number_buffer_round_trip 305419896 H))).
Defined.

(** X2.  On version numbers in the range of four bytes, the byte order of
    the buffers [numberToBuffer] writes is the order of the numbers: the
    keys of the orphan table sort by [toVersion] first. *)
Theorem numberToBuffer_keeps_order (a b : Z) :
  0 <= a < 4294967296 -> 0 <= b < 4294967296 ->
  Buffer_compare (numberToBuffer a) (numberToBuffer b) = number_compare a b.
Proof.
  intros Ha Hb.
  rewrite <- (app_nil_r (numberToBuffer a)), <- (app_nil_r (numberToBuffer b)).
  rewrite numberToBuffer_compare by assumption. reflexivity.
Qed.

Lemma numberToBuffer_keeps_order_witness :
  0 <= 255 < 4294967296 /\ 0 <= 256 < 4294967296
  /\ Buffer_compare (numberToBuffer 255) (numberToBuffer 256) = -1.
Proof.
  assert (Ha : 0 <= 255 < 4294967296) by lia.
  assert (Hb : 0 <= 256 < 4294967296) by lia.
  split; [exact Ha|]. split; [exact Hb|].
  exact (numberToBuffer_keeps_order 255 256 Ha Hb).
Defined.

(** ** Lookups in the tables of the store ([store.ts]) *)

Section TableLookup.
Context {K V : Type}.
Variable cmp : K -> K -> Z.
Hypothesis cmp_eq : forall a b, cmp a b = 0 <-> a = b.

Lemma get_putSync_same (k : K) (v : V) (t : Table (K := K) (V := V)) :
  get cmp k (putSync cmp k v t) = Some v.
Proof.
  assert (R : cmp k k = 0) by (apply cmp_eq; reflexivity).
  induction t as [| [k' v'] t IH]; simpl.
  - rewrite R. reflexivity.
  - destruct (cmp k k' <? 0); simpl; [rewrite R; reflexivity|].
    destruct (cmp k k' =? 0) eqn:E; simpl; [rewrite R; reflexivity|].
    rewrite E. exact IH.
Qed.

Lemma get_putSync_other (k k0 : K) (v : V) (t : Table (K := K) (V := V)) :
  k0 <> k -> get cmp k0 (putSync cmp k v t) = get cmp k0 t.
Proof.
  intros N.
  assert (R : (cmp k0 k =? 0) = false).
  { apply Z.eqb_neq. intros E. apply N, cmp_eq, E. }
  induction t as [| [k' v'] t IH]; simpl.
  - rewrite R. reflexivity.
  - destruct (cmp k k' <? 0); simpl; [rewrite R; reflexivity|].
    destruct (Z.eqb_spec (cmp k k') 0) as [E | E]; simpl.
    + apply cmp_eq in E. subst k'. rewrite R. reflexivity.
    + rewrite IH. reflexivity.
Qed.

Lemma get_removeSync_same (k : K) (t : Table (K := K) (V := V)) :
  get cmp k (removeSync cmp k t) = None.
Proof.
  induction t as [| [k' v'] t IH]; simpl; [reflexivity|].
  destruct (cmp k k' =? 0) eqn:E; simpl; [exact IH|].
  rewrite E. exact IH.
Qed.

Lemma get_removeSync_other (k k0 : K) (t : Table (K := K) (V := V)) :
  k0 <> k -> get cmp k0 (removeSync cmp k t) = get cmp k0 t.
Proof.
  intros N. induction t as [| [k' v'] t IH]; simpl; [reflexivity|].
  destruct (Z.eqb_spec (cmp k k') 0) as [E | E]; simpl.
  - apply cmp_eq in E. subst k'.
    destruct (Z.eqb_spec (cmp k0 k) 0) as [E' | _]; [|exact IH].
    apply cmp_eq in E'. contradiction.
  - rewrite IH. reflexivity.
Qed.
End TableLookup.

(** X3.  [getVersion(v)] right after [putVersion(v, rootHash)] returns
    [rootHash]; a missing root hash, stored as the empty buffer, reads as
    absent, and so does an empty one.  The entry of every other version is
    what it was. *)
Theorem putVersion_getVersion (s : Store) (v : Z) (rootHash : option Buffer) :
  getVersion v (putVersion v rootHash s)
  = match rootHash with
    | Some [] => None
    | Some h => Some h
    | None => None
    end
  /\ forall v', v' <> v ->
       getVersion v' (putVersion v rootHash s) = getVersion v' s.
Proof.
  unfold getVersion, putVersion. simpl. split.
  - rewrite (get_putSync_same number_compare number_compare_eq).
    destruct rootHash as [[| x h] |]; reflexivity.
  - intros v' N.
    rewrite (get_putSync_other number_compare number_compare_eq) by exact N.
    reflexivity.
Qed.

(** X4.  [getNode(hash)] right after [putNode] stored a compact form
    under [hash] builds a clean node with that hash whose compact form is
    the one stored; a hash the nodes table does not have gives no node;
    and [putNode] changes the node under no other hash. *)
Theorem putNode_getNode (resolve : Buffer -> option Node) (s : Store)
    (hash : Buffer) (c : CompactNode) :
  (exists n,
      getNode resolve hash (putNode hash c s) = Some n
      /\ compact n = Some c /\ node_hash n = Some hash
      /\ node_isDirty n = false)
  /\ (forall hash', hash' <> hash ->
        getNode resolve hash' (putNode hash c s) = getNode resolve hash' s)
  /\ (forall hash', nodeDB_get hash' s = None -> getNode resolve hash' s = None).
Proof.
  unfold getNode, nodeDB_get, putNode. simpl. split; [|split].
  - rewrite (get_putSync_same Buffer_compare Buffer_compare_eq).
    destruct c; simpl; eexists; (split; [reflexivity|]); simpl; auto.
  - intros hash' N.
    rewrite (get_putSync_other Buffer_compare Buffer_compare_eq) by exact N.
    reflexivity.
  - intros hash' E. rewrite E. reflexivity.
Qed.

(** ** Walking the tree in order ([tree.ts]) *)

Lemma StronglySorted_app {A : Type} (R : A -> A -> Prop) (l1 l2 : list A) :
  StronglySorted R l1 -> StronglySorted R l2 ->
  (forall x y, In x l1 -> In y l2 -> R x y) ->
  StronglySorted R (l1 ++ l2).
Proof.
  induction 1 as [| a l1 S IH F]; simpl; intros S2 H; [exact S2|].
  constructor.
  - apply IH; [exact S2|]. intros x y Hx Hy. apply H; [right; exact Hx | exact Hy].
  - apply Forall_app. split; [exact F|].
    apply Forall_forall. intros y Hy. apply H; [left; reflexivity | exact Hy].
Qed.

Lemma skeys_sorted (t : Skel) :
  bst t -> StronglySorted (fun a b => Buffer_compare a b = -1) (skeys t).
Proof.
  induction t as [k v | k lh rh l IHl r IHr]; simpl.
  - intros _. repeat constructor.
  - intros (Fl & Fr & _ & Bl & Br).
    apply StronglySorted_app; [apply IHl, Bl | apply IHr, Br|].
    rewrite Forall_forall in Fl, Fr. intros x y Hx Hy.
    apply (Buffer_compare_lt_le_trans x k y); [apply Fl, Hx | apply Fr, Hy].
Qed.

Lemma sinorder_in (t : Skel) (x : Buffer) :
  bst t -> In x (sinorder t) -> In x (skeys t).
Proof.
  induction t as [k v | k lh rh l IHl r IHr]; simpl; [tauto|].
  intros (_ & _ & Hk & Bl & Br) I.
  apply in_or_app. apply in_app_or in I. destruct I as [I | [<- | I]].
  - left. apply IHl; assumption.
  - right. rewrite <- Hk. apply sleftkey_in.
  - right. apply IHr; assumption.
Qed.

Lemma sinorder_sorted (t : Skel) :
  bst t -> StronglySorted (fun a b => Buffer_compare a b <= 0) (sinorder t).
Proof.
  induction t as [k v | k lh rh l IHl r IHr]; simpl.
  - intros _. repeat constructor.
  - intros (Fl & Fr & Hk & Bl & Br).
    rewrite Forall_forall in Fl, Fr.
    assert (Hl : forall x, In x (sinorder l) -> Buffer_compare x k = -1)
      by (intros x I; apply Fl, sinorder_in; assumption).
    assert (Hr : forall y, In y (sinorder r) -> Buffer_compare k y <= 0)
      by (intros y I; apply Fr, sinorder_in; assumption).
    apply StronglySorted_app; [apply IHl, Bl | |].
    + constructor; [apply IHr, Br|]. apply Forall_forall. exact Hr.
    + intros x y Hx [<- | Hy]; [rewrite (Hl x Hx); lia|].
      rewrite (Buffer_compare_lt_le_trans x k y (Hl x Hx) (Hr y Hy)). lia.
Qed.

Lemma inOrderTraversal_skel (n : Node) :
  forall t, skel n = Some t -> map node_key (inOrderTraversal n) = sinorder t.
Proof.
  induction n as [d | d l r IHl IHr] using Node_induction; intros t H.
  - simpl in H. injection H as <-. reflexivity.
  - destruct (skel_Branch_inv d l r t H) as (tl & tr & Hl & Hr & ->).
    cbn [inOrderTraversal sinorder]. rewrite !map_app. cbn [map node_key].
    destruct l as [| cl | cl], r as [| cr | cr]; simpl in Hl, Hr; try discriminate;
      rewrite (IHl cl eq_refl tl Hl), (IHr cr eq_refl tr Hr); reflexivity.
Qed.

Lemma inOrderTraversal_leaves (n : Node) :
  map node_key (filter is_Leaf (inOrderTraversal n)) = leaf_keys n.
Proof.
  induction n as [d | d l r IHl IHr] using Node_induction; [reflexivity|].
  cbn [inOrderTraversal leaf_keys]. rewrite !filter_app, !map_app.
  cbn [filter is_Leaf map app].
  destruct l as [| cl | cl], r as [| cr | cr]; simpl;
    rewrite ?(IHl cl eq_refl), ?(IHr cr eq_refl); reflexivity.
Qed.



(** ** The height of a balanced tree ([node.ts]) *)

Lemma avl_leaves (t : Skel) :
  avl t -> 2 ^ (sheight t / 2) <= Z.of_nat (length (skeys t)).
Proof.
  induction t as [k v | k lh rh l IHl r IHr].
  - intros _. cbv. discriminate.
  - intros (Hlh & Hrh & Hb & Al & Ar). subst lh rh.
    specialize (IHl Al). specialize (IHr Ar).
    pose proof (avl_height_pos l Al) as Pl.
    pose proof (avl_height_pos r Ar) as Pr.
    cbn [sheight skeys]. rewrite length_app, Nat2Z.inj_add.
    set (a := sheight l) in *. set (b := sheight r) in *.
    assert (E : (1 + Z.max a b) / 2 <= Z.min a b / 2 + 1)
      by (Z.div_mod_to_equations; lia).
    assert (Ma : Z.min a b / 2 <= a / 2) by (Z.div_mod_to_equations; lia).
    assert (Mb : Z.min a b / 2 <= b / 2) by (Z.div_mod_to_equations; lia).
    assert (N : 0 <= Z.min a b / 2) by (Z.div_mod_to_equations; lia).
    pose proof (Z.pow_le_mono_r 2 _ _ ltac:(lia) E) as P1.
    pose proof (Z.pow_le_mono_r 2 _ _ ltac:(lia) Ma) as P2.
    pose proof (Z.pow_le_mono_r 2 _ _ ltac:(lia) Mb) as P3.
    rewrite Z.pow_add_r in P1 by lia.
    change (2 ^ 1) with 2 in P1. lia.
Qed.



(** ** Neighbours of a key ([ics23.ts]) *)

Lemma findLeftNeighbor_skel (key : Buffer) (n : Node) :
  forall t, skel n = Some t ->
    option_map node_key (findLeftNeighbor key n) = sleftN t key.
Proof.
  induction n as [d | d l r IHl IHr] using Node_induction; intros t H.
  - simpl in H. injection H as <-. reflexivity.
  - destruct (skel_Branch_inv d l r t H) as (tl & tr & Hl & Hr & ->).
    cbn [findLeftNeighbor sleftN].
    destruct l as [| cl | cl], r as [| cr | cr]; simpl in Hl, Hr; try discriminate;
      destruct (Buffer_compare key (branch_key d) =? 1);
      rewrite <- ?(IHl cl eq_refl tl Hl), <- ?(IHr cr eq_refl tr Hr);
      try reflexivity;
      destruct (findLeftNeighbor key cr); reflexivity.
Qed.

Lemma findRightNeighbor_skel (key : Buffer) (n : Node) :
  forall t, skel n = Some t ->
    option_map node_key (findRightNeighbor key n) = srightN t key.
Proof.
  induction n as [d | d l r IHl IHr] using Node_induction; intros t H.
  - simpl in H. injection H as <-. reflexivity.
  - destruct (skel_Branch_inv d l r t H) as (tl & tr & Hl & Hr & ->).
    cbn [findRightNeighbor srightN].
    destruct l as [| cl | cl], r as [| cr | cr]; simpl in Hl, Hr; try discriminate;
      destruct (Buffer_compare key (branch_key d) =? -1);
      rewrite <- ?(IHl cl eq_refl tl Hl), <- ?(IHr cr eq_refl tr Hr);
      try reflexivity;
      destruct (findRightNeighbor key cl); reflexivity.
Qed.

Lemma Buffer_compare_above (key k x : Buffer) :
  Buffer_compare key k <> 1 -> Buffer_compare k x <= 0 ->
  Buffer_compare x key = -1 -> False.
Proof.
  intros N L C.
  pose proof (Buffer_compare_le_lt_trans k x key L C) as C'.
  destruct (Buffer_compare_spec key k) as [(A & B & _) | [(A & ->) | (A & _)]].
  - congruence.
  - rewrite Buffer_compare_refl in C'. discriminate.
  - congruence.
Qed.

Lemma Buffer_compare_below (key k x : Buffer) :
  Buffer_compare key k <> -1 -> Buffer_compare x k = -1 ->
  Buffer_compare key x = -1 -> False.
Proof.
  intros N L C.
  pose proof (Buffer_compare_lt_trans key x k C L). congruence.
Qed.

Lemma sleftN_spec (key : Buffer) (t : Skel) :
  bst t ->
  match sleftN t key with
  | Some b =>
      In b (skeys t) /\ Buffer_compare b key = -1
      /\ forall x, In x (skeys t) -> Buffer_compare x key = -1 ->
                   Buffer_compare x b <= 0
  | None =>
      forall x, In x (skeys t) -> Buffer_compare x key = -1 -> x = sleftkey t
  end.
Proof.
  induction t as [k v | k lh rh l IHl r IHr]; simpl.
  - intros _ x [<- | []] _. reflexivity.
  - intros (Fl & Fr & Hk & Bl & Br).
    specialize (IHl Bl). specialize (IHr Br).
    rewrite Forall_forall in Fl, Fr.
    destruct (Z.eqb_spec (Buffer_compare key k) 1) as [C | C].
    + assert (C' : Buffer_compare k key = -1).
      { destruct (Buffer_compare_spec key k) as [(A & _) | [(A & _) | (_ & A & _)]];
          congruence. }
      destruct (sleftN r key) as [b|].
      * destruct IHr as (I & L & M). split; [apply in_or_app; right; exact I|].
        split; [exact L|]. intros x Hx Lx. apply in_app_or in Hx.
        destruct Hx as [Hx | Hx]; [|apply M; assumption].
        rewrite (Buffer_compare_lt_le_trans x k b (Fl x Hx) (Fr b I)). lia.
      * split; [apply in_or_app; right; rewrite <- Hk; apply sleftkey_in|].
        split; [exact C'|]. intros x Hx Lx. apply in_app_or in Hx.
        destruct Hx as [Hx | Hx]; [rewrite (Fl x Hx); lia|].
        rewrite (IHr x Hx Lx), Hk, Buffer_compare_refl. lia.
    + destruct (sleftN l key) as [b|].
      * destruct IHl as (I & L & M). split; [apply in_or_app; left; exact I|].
        split; [exact L|]. intros x Hx Lx. apply in_app_or in Hx.
        destruct Hx as [Hx | Hx]; [apply M; assumption|].
        destruct (Buffer_compare_above key k x C (Fr x Hx) Lx).
      * intros x Hx Lx. apply in_app_or in Hx.
        destruct Hx as [Hx | Hx]; [apply IHl; assumption|].
        destruct (Buffer_compare_above key k x C (Fr x Hx) Lx).
Qed.

Lemma srightN_spec (key : Buffer) (t : Skel) :
  bst t ->
  match srightN t key with
  | Some b =>
      In b (skeys t) /\ Buffer_compare key b = -1
      /\ forall x, In x (skeys t) -> Buffer_compare key x = -1 ->
                   x = sleftkey t \/ Buffer_compare b x <= 0
  | None =>
      forall x, In x (skeys t) -> Buffer_compare key x = -1 -> x = sleftkey t
  end.
Proof.
  induction t as [k v | k lh rh l IHl r IHr]; simpl.
  - intros _ x [<- | []] _. reflexivity.
  - intros (Fl & Fr & Hk & Bl & Br).
    specialize (IHl Bl). specialize (IHr Br).
    rewrite Forall_forall in Fl, Fr.
    destruct (Z.eqb_spec (Buffer_compare key k) (-1)) as [C | C].
    + destruct (srightN l key) as [b|].
      * destruct IHl as (I & L & M). split; [apply in_or_app; left; exact I|].
        split; [exact L|]. intros x Hx Lx. apply in_app_or in Hx.
        destruct Hx as [Hx | Hx]; [apply M; assumption|].
        right. rewrite (Buffer_compare_lt_le_trans b k x (Fl b I) (Fr x Hx)). lia.
      * split; [apply in_or_app; right; rewrite <- Hk; apply sleftkey_in|].
        split; [exact C|]. intros x Hx Lx. apply in_app_or in Hx.
        destruct Hx as [Hx | Hx]; [left; apply IHl; assumption|].
        right. apply Fr, Hx.
    + assert (R : forall x, In x (skeys r) -> Buffer_compare key x = -1 ->
                            x <> sleftkey r).
      { intros x Hx Lx E. rewrite E, Hk in Lx. contradiction. }
      destruct (srightN r key) as [b|].
      * destruct IHr as (I & L & M). split; [apply in_or_app; right; exact I|].
        split; [exact L|]. intros x Hx Lx. apply in_app_or in Hx.
        destruct Hx as [Hx | Hx];
          [destruct (Buffer_compare_below key k x C (Fl x Hx) Lx)|].
        destruct (M x Hx Lx) as [E | E]; [|right; exact E].
        destruct (R x Hx Lx E).
      * intros x Hx Lx. apply in_app_or in Hx.
        destruct Hx as [Hx | Hx];
          [destruct (Buffer_compare_below key k x C (Fl x Hx) Lx)|].
        destruct (R x Hx Lx (IHr x Hx Lx)).
Qed.

Lemma reachable_root (digest : Buffer -> Buffer) (t : Tree) (r : Node) :
  Tree_ok digest t -> root t = Some r ->
  exists sk,
    skel r = Some sk /\ avl sk /\ bst sk /\ merkle digest r /\ sealed r
    /\ rootHash t = node_hash r
    /\ forall x, (Tree_has x t = Ok true <-> In x (skeys sk))
                 /\ (Tree_has x t = Ok false <-> ~ In x (skeys sk)).
Proof.
  intros Hok Hr. pose proof (root_stored digest t Hok) as H. rewrite Hr in H.
  destruct H as (sk & Sk & A & B & M & S & Hh & Hl).
  exists sk. repeat (split; [assumption|]). intros x.
  rewrite (Tree_has_lookup digest x t Hok), Hl.
  destruct (sfind sk x) as [v|] eqn:E; simpl.
  - pose proof (sfind_in sk x v E) as I.
    split; split; intros; try reflexivity; try assumption; try discriminate.
    contradiction.
  - assert (N : ~ In x (skeys sk)).
    { intros I. apply (sfind_complete sk x B I E). }
    split; split; intros; try reflexivity; try assumption; try discriminate.
    contradiction.
Qed.

Lemma empty_root (digest : Buffer -> Buffer) (t : Tree) (x : Buffer) :
  Tree_ok digest t -> root t = None -> Tree_has x t = Ok false.
Proof.
  intros Hok Hr. pose proof (root_stored digest t Hok) as H. rewrite Hr in H.
  rewrite (Tree_has_lookup digest x t Hok), H. reflexivity.
Qed.





(** ** Proofs of a key ([tree.ts], [ics23.ts]) *)

Lemma getProof_returns (digest : Buffer -> Buffer) (t : Tree) (r : Node)
    (key : Buffer) :
  Tree_ok digest t -> root t = Some r ->
  exists d path branches v,
    findPath r key [] = Ok (Leaf d :: path)
    /\ find r key = Ok (if Buffer_compare key (leaf_key d) =? 0 then Some d else None)
    /\ leaf_version d = Some v
    /\ map_result (proof_branch key) path = Ok branches
    /\ getProof key t = Ok ((numberToBuffer v, key, leaf_value d), branches).
Proof.
  intros Hok Hr.
  destruct (reachable_root digest t r Hok Hr) as (sk & Sk & _ & _ & M & S & _).
  destruct (findPath_spec digest key r sk [] M S Sk)
    as (d & path & branches & v & hd & Hfp & Hfind & Hmap & Hv & _).
  exists d, path, branches, v. simpl in Hfp.
  repeat (split; [assumption|]).
  unfold getProof. rewrite Hr, Hfp. cbn [bind]. rewrite Hv. cbn [bind defined].
  rewrite Hmap. reflexivity.
Qed.

Lemma existence_of_returns (digest : Buffer -> Buffer) (t : Tree) (n : option Node) :
  Tree_ok digest t -> (n <> None -> root t <> None) ->
  exists e, existence_of t n = Ok e /\ option_map ep_key e = option_map node_key n.
Proof.
  intros Hok H. destruct n as [n|]; simpl; [|eexists; split; reflexivity].
  destruct (root t) as [r|] eqn:Hr; [|exfalso; apply H; [discriminate | reflexivity]].
  destruct (getProof_returns digest t r (node_key n) Hok Hr)
    as (d & path & branches & v & _ & _ & _ & _ & Hp).
  unfold getExistenceProof. rewrite Hp. cbn [bind].
  eexists. split; reflexivity.
Qed.



(** ** Versions of a session ([tree.ts], [store.ts]) *)

Lemma Tree_insert_store (digest : Buffer -> Buffer) (T : Type) (pack : T -> Buffer)
    (falsy : T -> bool) (key : Buffer) (value : T) (t t' : Tree) :
  Tree_insert digest T pack falsy key value t = Ok t' ->
  exists s1,
    same_session (transaction_enter (store t)) s1
    /\ store t' = putVersion (version s1) (rootHash t') s1.
Proof.
  unfold Tree_insert. destruct (falsy value); [discriminate|].
  destruct (match root t with
            | Some r => insert r key (pack value)
            | None => Ok (new_Leaf key (pack value) None None)
            end) as [node|]; cbn [bind]; [|discriminate].
  destruct (persist digest node None (transaction_enter (store t)))
    as [[[h n'] s1]|] eqn:P; cbn [bind]; [|discriminate].
  intros E. injection E as <-. exists s1.
  split; [eapply persist_session; exact P | reflexivity].
Qed.

Lemma Tree_remove_store (digest : Buffer -> Buffer) (key : Buffer) (t t' : Tree) :
  Tree_remove digest key t = Ok t' ->
  exists s2,
    same_session (transaction_enter (store t)) s2
    /\ store t' = putVersion (version s2) (rootHash t') s2.
Proof.
  unfold Tree_remove.
  destruct (match root t with
            | Some r => remove r key (transaction_enter (store t))
            | None => Ok (None, transaction_enter (store t))
            end) as [[node s1]|] eqn:R; cbn [bind]; [|discriminate].
  assert (S1 : same_session (transaction_enter (store t)) s1).
  { destruct (root t) as [r|].
    - eapply remove_session; exact R.
    - injection R as _ <-. apply same_session_refl. }
  destruct node as [r|].
  - destruct (persist digest r None s1) as [[[h r'] s2]|] eqn:P; cbn [bind];
      [|discriminate].
    intros E. injection E as <-. exists s2. split; [|reflexivity].
    eapply same_session_trans; [exact S1 | eapply persist_session; exact P].
  - cbn [bind]. intros E. injection E as <-. exists s1. split; [exact S1 | reflexivity].
Qed.

Lemma putSync_nonempty {V : Type} (k : Z) (v : V) (t : list (Z * V)) :
  putSync number_compare k v t <> [].
Proof.
  destruct t as [| [k' v'] t]; simpl; [discriminate|].
  destruct (number_compare k k' <? 0); [discriminate|].
  destruct (number_compare k k' =? 0); discriminate.
Qed.

Lemma getLatestVersion_cons (a : Z * Buffer) (t : list (Z * Buffer)) :
  t <> [] -> getLatestVersion (a :: t) = getLatestVersion t.
Proof.
  intros N. unfold getLatestVersion, getKeys_last1. simpl.
  destruct (rev t) as [| e r] eqn:E; [|reflexivity].
  exfalso. apply N. apply (f_equal (@rev _)) in E.
  rewrite rev_involutive in E. exact E.
Qed.

Lemma putSync_latest (k : Z) (v : Buffer) (t : list (Z * Buffer)) :
  StronglySorted Z.lt (map fst t) -> Forall (fun x => x <= k) (map fst t) ->
  StronglySorted Z.lt (map fst (putSync number_compare k v t))
  /\ Forall (fun x => x <= k) (map fst (putSync number_compare k v t))
  /\ getLatestVersion (putSync number_compare k v t) = k.
Proof.
  induction t as [| [k' v'] t IH]; intros S F.
  - simpl. split; [repeat constructor|]. split; [repeat constructor; lia | reflexivity].
  - simpl in S, F.
    inversion S as [| ? ? S' F']; subst. inversion F as [| ? ? Hk Ft]; subst.
    destruct (Z.lt_ge_cases k' k) as [L' | L'].
    + assert (E : putSync number_compare k v ((k', v') :: t)
                  = (k', v') :: putSync number_compare k v t).
      { simpl. unfold number_compare.
        destruct (Z.ltb_spec k k'); [lia|]. destruct (Z.ltb_spec k' k); [|lia].
        reflexivity. }
      rewrite E. destruct (IH S' Ft) as (S1 & F1 & E1).
      split; [|split].
      * simpl. constructor; [exact S1|]. apply Forall_forall. intros x I.
        apply (In_keys_putSync number_compare number_compare_eq k v t x) in I.
        destruct I as [-> | I]; [exact L'|].
        rewrite Forall_forall in F'. apply F', I.
      * simpl. constructor; [lia | exact F1].
      * rewrite getLatestVersion_cons by apply putSync_nonempty. exact E1.
    + assert (k' = k) by lia. subst k'.
      assert (t = []).
      { destruct t as [| [k2 v2] t]; [reflexivity|]. exfalso.
        inversion F' as [| ? ? H1 _]; subst. inversion Ft as [| ? ? H2 _]; subst.
        simpl in H1, H2. lia. }
      subst t. simpl. unfold number_compare. rewrite Z.ltb_irrefl. simpl.
      split; [repeat constructor|].
      split; [repeat constructor; lia | reflexivity].
Qed.

Lemma versions_ok_write (s s1 : Store) (h : option Buffer) :
  versions_ok s -> version s <= version s1 -> versionDB s1 = versionDB s ->
  versions_ok (putVersion (version s1) h s1)
  /\ getLatestVersion (versionDB (putVersion (version s1) h s1)) = version s1.
Proof.
  intros (S & F) L E. unfold versions_ok, putVersion. simpl. rewrite E.
  assert (F' : Forall (fun x => x <= version s1) (map fst (versionDB s))).
  { apply (Forall_impl _ (fun x (H : x <= version s) => Z.le_trans _ _ _ H L) F). }
  destruct (putSync_latest (version s1) (match h with Some b => b | None => [] end)
              (versionDB s) S F') as (S1 & F1 & E1).
  auto.
Qed.

Lemma versions_ok_grow (s s' : Store) :
  versions_ok s -> version s <= version s' -> versionDB s' = versionDB s ->
  versions_ok s'.
Proof.
  intros (S & F) L E. unfold versions_ok. rewrite E. split; [exact S|].
  apply (Forall_impl _ (fun x (H : x <= version s) => Z.le_trans _ _ _ H L) F).
Qed.

Lemma enter_depth (s s1 : Store) (depth : nat) :
  length (transactions s) = depth ->
  same_session (transaction_enter s) s1 ->
  transactions s1 = transactions s
  /\ versionDB s1 = versionDB s
  /\ version s1 = version s + match depth with O => 1 | S _ => 0 end.
Proof.
  intros Hd (V & X & D). unfold transaction_enter in *.
  destruct (transactions s) as [| tx txs] eqn:E; simpl in *; subst depth; simpl.
  - rewrite X, D. simpl. auto.
  - rewrite X, D, E. split; [reflexivity|]. split; [reflexivity | lia].
Qed.

Section VersionFacts.
Variable digest : Buffer -> Buffer.
Variable T : Type.
Variable pack : T -> Buffer.
Variable falsy : T -> bool.

Lemma run_versions (ops : list (Op T)) :
  forall t depth,
    Tree_ok digest t ->
    length (transactions (store t)) = depth ->
    accepted T falsy depth ops = true ->
    versions_ok (store t) ->
    exists t',
      run digest T pack falsy ops t = Ok t'
      /\ Tree_ok digest t'
      /\ versions_ok (store t')
      /\ Tree_version t' = Tree_version t + outer_calls depth ops.
Proof.
  induction ops as [| op ops IH]; intros t depth Hok Hd Hacc Hv.
  - exists t. split; [reflexivity|]. split; [exact Hok|]. split; [exact Hv|].
    cbn [outer_calls]. lia.
  - destruct op as [key value | key | |]; simpl in Hacc; cbn [run apply_op outer_calls].
    + apply andb_true_iff in Hacc as [Hf Hacc]. apply negb_true_iff in Hf.
      destruct (Tree_insert_ok digest T pack falsy key value t Hok Hf)
        as (t1 & E1 & Hok1 & Htx & _).
      destruct (Tree_insert_store digest T pack falsy key value t t1 E1)
        as (s1 & Ss & Es).
      destruct (enter_depth _ _ depth Hd Ss) as (_ & Ev & En).
      rewrite E1. cbn [bind].
      assert (Hv1 : versions_ok (store t1)).
      { rewrite Es.
        apply (versions_ok_write (store t)); [exact Hv | destruct depth; lia | exact Ev]. }
      destruct (IH t1 depth Hok1 ltac:(congruence) Hacc Hv1)
        as (t' & Hrun & Hok' & Hv' & Hn).
      exists t'. repeat (split; [assumption|]).
      rewrite Hn. unfold Tree_version. rewrite Es. simpl. rewrite En.
      destruct depth; lia.
    + destruct (Tree_remove_ok digest key t Hok) as (t1 & E1 & Hok1 & Htx & _).
      destruct (Tree_remove_store digest key t t1 E1) as (s1 & Ss & Es).
      destruct (enter_depth _ _ depth Hd Ss) as (_ & Ev & En).
      rewrite E1. cbn [bind].
      assert (Hv1 : versions_ok (store t1)).
      { rewrite Es.
        apply (versions_ok_write (store t)); [exact Hv | destruct depth; lia | exact Ev]. }
      destruct (IH t1 depth Hok1 ltac:(congruence) Hacc Hv1)
        as (t' & Hrun & Hok' & Hv' & Hn).
      exists t'. repeat (split; [assumption|]).
      rewrite Hn. unfold Tree_version. rewrite Es. simpl. rewrite En.
      destruct depth; lia.
    + unfold Tree_startTransaction. cbn [bind].
      assert (Es : transactions (startTransaction (store t))
                   = mkTransaction :: transactions (store t)
                   /\ versionDB (startTransaction (store t)) = versionDB (store t)
                   /\ version (startTransaction (store t))
                      = version (store t) + match depth with O => 1 | S _ => 0 end).
      { unfold startTransaction, transaction, transaction_enter.
        destruct (transactions (store t)) as [| tx txs] eqn:E; simpl in Hd;
          subst depth; simpl; rewrite ?E; repeat split; lia. }
      destruct Es as (Et & Ev & En).
      set (t1 := mkTree (startTransaction (store t)) (rootHash t) (persisted t)).
      assert (Hv1 : versions_ok (store t1)).
      { apply (versions_ok_grow (store t)); [exact Hv | | exact Ev].
        unfold t1. cbn [store]. rewrite En. destruct depth; lia. }
      assert (Hd1 : length (transactions (store t1)) = S depth)
        by (unfold t1; cbn [store]; rewrite Et; simpl; congruence).
      destruct (IH t1 (S depth) Hok Hd1 Hacc Hv1) as (t' & Hrun & Hok' & Hv' & Hn).
      exists t'. repeat (split; [assumption|]).
      rewrite Hn. unfold Tree_version, t1. cbn [store]. rewrite En.
      destruct depth; lia.
    + destruct depth as [| depth']; [discriminate|].
      unfold Tree_commitTransaction, commitTransaction.
      destruct (transactions (store t)) as [| tx txs] eqn:E; [discriminate|].
      cbn [bind].
      set (t1 := mkTree (set_transactions (store t) txs) (rootHash t) (persisted t)).
      assert (Hv1 : versions_ok (store t1)).
      { apply (versions_ok_grow (store t)); [exact Hv | simpl; lia | reflexivity]. }
      destruct (IH t1 depth' Hok ltac:(simpl in *; congruence) Hacc Hv1)
        as (t' & Hrun & Hok' & Hv' & Hn).
      exists t'. repeat (split; [assumption|]). rewrite Hn. reflexivity.
Qed.
End VersionFacts.

Lemma merkle_digest (digest : Buffer -> Buffer) (n : Node) :
  merkle digest n -> exists b, node_hash n = Some (digest b).
Proof.
  intros (W & D). destruct n as [d | d l r].
  - simpl in W, D. destruct W as (_ & W). destruct (W D) as (v & _ & Hh).
    simpl. rewrite Hh. unfold sha256. eauto.
  - apply working_Branch in W as (_ & _ & _ & W). simpl in D.
    destruct (W D) as (v & hl & hr & _ & _ & _ & Hh & _).
    simpl. rewrite Hh. unfold sha256. eauto.
Qed.

Lemma rootHash_nonempty (digest : Buffer -> Buffer) (t : Tree) :
  (forall b, digest b <> []) -> Tree_ok digest t ->
  match rootHash t with
  | Some (_ :: _) => True
  | Some [] => False
  | None => True
  end.
Proof.
  intros Hne Hok. unfold Tree_ok in Hok. destruct (persisted t) as [n|].
  - destruct Hok as (E & M & _). destruct (merkle_digest digest n M) as (b & Hb).
    rewrite E, Hb. specialize (Hne b). destruct (digest b); [contradiction | exact I].
  - rewrite Hok. exact I.
Qed.

Lemma new_Tree_versions_ok : versions_ok (store new_Tree).
Proof. split; constructor. Qed.

Lemma write_version (digest : Buffer -> Buffer) (t t' : Tree) (s1 : Store) :
  (forall b, digest b <> []) ->
  Tree_ok digest t' -> versions_ok (store t) ->
  same_session (transaction_enter (store t)) s1 ->
  store t' = putVersion (version s1) (rootHash t') s1 ->
  getVersion (Tree_version t') (store t') = rootHash t'
  /\ getLatestVersion (versionDB (store t')) = Tree_version t'
  /\ forall v, v <> Tree_version t' ->
               getVersion v (store t') = getVersion v (store t).
Proof.
  intros Hne Hok' Hv Ss Es.
  destruct (enter_depth _ _ _ eq_refl Ss) as (_ & Ev & En).
  assert (Hle : version (store t) <= version s1)
    by (destruct (length (transactions (store t))); lia).
  destruct (versions_ok_write (store t) s1 (rootHash t') Hv Hle Ev) as (_ & El).
  pose proof (rootHash_nonempty digest t' Hne Hok') as Hr.
  unfold Tree_version. rewrite Es. split; [|split].
  - unfold getVersion, putVersion. simpl.
    rewrite (get_putSync_same number_compare number_compare_eq).
    destruct (rootHash t') as [[| x h] |]; simpl; [contradiction | reflexivity | reflexivity].
  - exact El.
  - intros v N. unfold getVersion, putVersion. simpl. simpl in N.
    rewrite (get_putSync_other number_compare number_compare_eq) by exact N.
    rewrite Ev. reflexivity.
Qed.





Section ProofShape.
Variable digest : Buffer -> Buffer.

Lemma findPath_shape (key : Buffer) (this : Node) :
  forall acc,
    merkle digest this -> sealed this ->
    exists d path branches,
      findPath this key acc = Ok (acc ++ Leaf d :: path)
      /\ map_result (proof_branch key) path = Ok branches
      /\ Z.of_nat (length branches) < true_height this
      /\ Forall one_sibling branches.
Proof.
  induction this as [d | d l r IHl IHr] using Node_induction; intros acc M S.
  - exists d, [], []. simpl.
    split; [reflexivity|]. split; [reflexivity|]. split; [lia | constructor].
  - destruct (merkle_children digest _ _ _ M) as (cl & cr & El & Er & Ml & Mr).
    destruct (sealed_children _ _ _ _ _ S El Er) as (Hl & Hr & Sl & Sr).
    destruct (merkle_hash digest cl Ml) as (hl & _ & Ehl & _).
    destruct (merkle_hash digest cr Mr) as (hr & _ & Ehr & _).
    destruct (merkle_hash digest _ M) as (_ & bv & _ & Ev). simpl in Ev.
    assert (Efp : findPath (Branch d l r) key acc
                  = (path' <- (if Buffer_compare key (branch_key d) <? 0
                               then findPath cl key acc else findPath cr key acc) ;;
                     Ok (path' ++ [Branch d l r]))).
    { destruct l as [|x|x], r as [|y|y]; simpl in El, Er; try discriminate;
        injection El as ->; injection Er as ->; reflexivity. }
    assert (Eh : true_height (Branch d l r)
                 = 1 + Z.max (true_height cl) (true_height cr)).
    { destruct l as [|x|x], r as [|y|y]; simpl in El, Er; try discriminate;
        injection El as ->; injection Er as ->; reflexivity. }
    rewrite Efp, Eh. clear Efp Eh.
    destruct (Buffer_compare key (branch_key d) <? 0) eqn:Ecmp.
    + destruct (IHl cl El acc Ml Sl) as (ld & path & branches & Hfp & Hmap & Hlen & Hone).
      exists ld, (path ++ [Branch d l r]),
        (branches ++ [(numberToBuffer bv, None, rightHash d)]).
      rewrite Hfp. cbn [bind]. split; [rewrite <- app_assoc; reflexivity|].
      split.
      { apply map_result_app; [exact Hmap|].
        unfold proof_branch. simpl. rewrite Ev, Ecmp. reflexivity. }
      split; [rewrite length_app; simpl; lia|].
      apply Forall_app. split; [exact Hone|]. constructor; [|constructor].
      split; [reflexivity|]. left. split; [reflexivity|]. congruence.
    + destruct (IHr cr Er acc Mr Sr) as (ld & path & branches & Hfp & Hmap & Hlen & Hone).
      exists ld, (path ++ [Branch d l r]),
        (branches ++ [(numberToBuffer bv, leftHash d, None)]).
      rewrite Hfp. cbn [bind]. split; [rewrite <- app_assoc; reflexivity|].
      split.
      { apply map_result_app; [exact Hmap|].
        unfold proof_branch. simpl. rewrite Ev, Ecmp. reflexivity. }
      split; [rewrite length_app; simpl; lia|].
      apply Forall_app. split; [exact Hone|]. constructor; [|constructor].
      split; [reflexivity|]. right. split; [congruence | reflexivity].
Qed.

Lemma existence_chain (branches : list ProofBranch) :
  Forall one_sibling branches ->
  forall h h',
    verify_branches digest branches h = Ok h' ->
    fold_left (fun h step => digest (fst step ++ h ++ snd step))
      (map (fun '(v, leftHash, rightHash) =>
              (match leftHash with
               | Some l => Buffer_concat [v; l]
               | None => v
               end,
               match rightHash with
               | Some r => r
               | None => []
               end)) branches) h
    = h'.
Proof.
  induction 1 as [| [[v l] r] branches (_ & Hone) _ IH]; intros h h' H.
  - simpl in H. injection H as <-. reflexivity.
  - cbn [map fold_left fst snd]. cbn [verify_branches] in H.
    destruct Hone as [(-> & Nr) | (Nl & ->)].
    + destruct r as [r|]; [|contradiction]. apply IH.
      unfold sha256, Buffer_concat in H. simpl in H.
      rewrite app_nil_r in H. exact H.
    + destruct l as [l|]; [|contradiction]. apply IH.
      unfold sha256, Buffer_concat in *. simpl in *.
      rewrite !app_nil_r. rewrite app_nil_r in H. rewrite <- app_assoc. exact H.
Qed.
End ProofShape.





(** ** Chunks of a snapshot ([chunk.ts]) *)

Lemma packed_bytes_app (l : list Buffer) (b : Buffer) :
  packed_bytes (l ++ [b]) = packed_bytes l + Z.of_nat (length b).
Proof.
  unfold packed_bytes. induction l as [| a l IH]; simpl; [lia|].
  rewrite IH. lia.
Qed.

(** X14.  On a chunk whose [size] is the number of bytes of its packed
    nodes and is within [maxSize], [addNode] throws when the packed node
    alone is larger than [maxSize]; returns [false] and leaves the chunk
    alone when the node would take the chunk beyond [maxSize]; and
    otherwise returns [true] with the packed node added last, the size
    again the number of bytes held and within [maxSize]. *)
Theorem addNode_keeps_size (packNode : CompactNode -> Buffer) (c : CompactNode)
    (maxSize : Z) (this : Chunk) :
  chunk_size this = packed_bytes (packedNodes this) ->
  chunk_size this <= maxSize ->
  match addNode packNode c maxSize this with
  | inl _ => maxSize < Z.of_nat (length (packNode c))
  | inr (false, this') =>
      this' = this
      /\ Z.of_nat (length (packNode c)) <= maxSize
         < chunk_size this + Z.of_nat (length (packNode c))
  | inr (true, this') =>
      packedNodes this' = packedNodes this ++ [packNode c]
      /\ chunk_size this' = packed_bytes (packedNodes this')
      /\ chunk_size this' <= maxSize
  end.
Proof.
  intros Hs Hm. unfold addNode.
  destruct (Z.ltb_spec maxSize (Z.of_nat (length (packNode c)))) as [L | L];
    [exact L|].
  destruct (Z.ltb_spec maxSize (chunk_size this + Z.of_nat (length (packNode c))))
    as [L' | L'].
  - split; [reflexivity | lia].
  - simpl. split; [reflexivity|]. rewrite packed_bytes_app, <- Hs. split; lia.
Qed.

Lemma addNode_keeps_size_witness :
  chunk_size (mkChunk 3 [[1; 2; 3]]) = packed_bytes (packedNodes (mkChunk 3 [[1; 2; 3]]))
  /\ chunk_size (mkChunk 3 [[1; 2; 3]]) <= 8
  /\ match addNode (fun _ => [4; 5; 6; 7]) (CompactLeaf [97] [49] 1) 8
             (mkChunk 3 [[1; 2; 3]]) with
     | inl _ => 8 < 4
     | inr (false, this') =>
         this' = mkChunk 3 [[1; 2; 3]] /\ 4 <= 8 < 3 + 4
     | inr (true, this') =>
         packedNodes this' = [[1; 2; 3]; [4; 5; 6; 7]]
         /\ chunk_size this' = packed_bytes (packedNodes this')
         /\ chunk_size this' <= 8
     end.
Proof.
  assert (H1 : chunk_size (mkChunk 3 [[1; 2; 3]])
               = packed_bytes (packedNodes (mkChunk 3 [[1; 2; 3]]))) by reflexivity.
  assert (H2 : chunk_size (mkChunk 3 [[1; 2; 3]]) <= 8) by (simpl; lia).
  split; [exact H1|]. split; [exact H2|].
  exact (addNode_keeps_size (fun _ => [4; 5; 6; 7]) (CompactLeaf [97] [49] 1) 8
           (mkChunk 3 [[1; 2; 3]]) H1 H2).
Defined.

Section RestoreFacts.
Variable digest : Buffer -> Buffer.
Variable packNode : CompactNode -> Buffer.
Variable unpackNode : Buffer -> option CompactNode.

Lemma restoreNode_stored (n : Node) :
  merkle digest n -> sealed n ->
  exists h c,
    node_entry n = Some (h, c)
    /\ (unpackNode (packNode c) = Some c ->
        forall resolve s,
          restoreNode digest unpackNode resolve s (packNode c) = Ok (putNode h c s)).
Proof.
  intros M S. destruct n as [d | d l r].
  - destruct M as (W & D). simpl in W, D. destruct W as (_ & W).
    destruct (W D) as (v & Hv & Hh).
    eexists _, _. unfold node_entry. simpl. rewrite Hv, Hh.
    split; [reflexivity|]. intros Hc resolve s.
    unfold restoreNode. rewrite Hc. reflexivity.
  - destruct (merkle_children digest _ _ _ M) as (cl & cr & El & Er & Ml & Mr).
    destruct (sealed_children _ _ _ _ _ S El Er) as (Hl & Hr & _ & _).
    destruct M as (W & D). apply working_Branch in W as (_ & _ & _ & W).
    simpl in D. destruct (W D) as (v & hl & hr & Hv & Ehl & Ehr & Hh & _).
    unfold ref_hash in Ehl, Ehr. rewrite El in Ehl. rewrite Er in Ehr.
    simpl in Ehl, Ehr. rewrite <- Hl in Ehl. rewrite <- Hr in Ehr.
    eexists _, _. unfold node_entry. simpl. rewrite Hv, Hh.
    split; [reflexivity|]. intros Hc resolve s.
    unfold restoreNode. rewrite Hc. rewrite Ehl, Ehr.
    unfold fromCompact, new_Branch, weak_ref.
    destruct (resolve hl), (resolve hr); reflexivity.
Qed.

Lemma inOrderTraversal_merkle (n : Node) :
  merkle digest n -> sealed n ->
  Forall (fun x => merkle digest x /\ sealed x) (inOrderTraversal n).
Proof.
  induction n as [d | d l r IHl IHr] using Node_induction; intros M S.
  - cbn [inOrderTraversal]. constructor; [split; assumption | constructor].
  - destruct (merkle_children digest _ _ _ M) as (cl & cr & El & Er & Ml & Mr).
    destruct (sealed_children _ _ _ _ _ S El Er) as (_ & _ & Sl & Sr).
    cbn [inOrderTraversal].
    assert (Tl : match l with
                 | Unset => []
                 | Stored c => inOrderTraversal c
                 | Cached c => inOrderTraversal c
                 end = inOrderTraversal cl)
      by (destruct l; simpl in El; try discriminate; injection El as ->; reflexivity).
    assert (Tr : match r with
                 | Unset => []
                 | Stored c => inOrderTraversal c
                 | Cached c => inOrderTraversal c
                 end = inOrderTraversal cr)
      by (destruct r; simpl in Er; try discriminate; injection Er as ->; reflexivity).
    rewrite Tl, Tr. apply Forall_app. split; [apply (IHl cl El Ml Sl)|].
    constructor; [split; assumption | apply (IHr cr Er Mr Sr)].
Qed.

Lemma restoreNodes_stored (ns : list Node) :
  Forall (fun x => merkle digest x /\ sealed x) ns ->
  (forall n c, In n ns -> compact n = Some c -> unpackNode (packNode c) = Some c) ->
  exists entries,
    map node_entry ns = map Some entries
    /\ forall resolve s,
         restoreNodes digest unpackNode resolve
           (map (fun e => packNode (snd e)) entries) s
         = Ok (fold_left (fun s e => putNode (fst e) (snd e) s) entries s).
Proof.
  induction 1 as [| n ns (M & S) _ IH]; intros Hc.
  - exists []. split; reflexivity.
  - destruct (restoreNode_stored n M S) as (h & c & He & Hr).
    destruct IH as (entries & Hm & Hrest);
      [intros n' c' I; apply Hc; right; exact I|].
    exists ((h, c) :: entries). split; [simpl; rewrite He, Hm; reflexivity|].
    intros resolve s. cbn [map restoreNodes fold_left fst snd].
    rewrite Hr; [cbn [bind]; apply Hrest|].
    apply (Hc n c); [left; reflexivity|].
    unfold node_entry in He. destruct (node_hash n); [|discriminate].
    destruct (compact n); [|discriminate]. congruence.
Qed.
End RestoreFacts.



(** ** The orphans a session records ([node.ts], [store.ts]) *)

Lemma orphans_past_grow (v v' : Z) (keys : list Buffer) :
  v <= v' -> orphans_past v keys -> orphans_past v' keys.
Proof.
  intros L. apply Forall_impl. intros k (t & f & h & R & B).
  exists t, f, h. split; [exact R | lia].
Qed.

Lemma orphans_past_wf (v : Z) (keys : list Buffer) :
  orphans_past v keys -> orphans_wf keys.
Proof.
  apply Forall_impl. intros k (t & f & h & R & _). eauto.
Qed.

Lemma putOrphan_past (h : Buffer) (f : Z) (s : Store) :
  1 <= f -> version s <= 4294967296 ->
  orphans_past (version s) (map fst (orphanDB s)) ->
  orphans_past (version s) (map fst (orphanDB (putOrphan h f None s))).
Proof.
  intros Hf Hv Ho. unfold putOrphan.
  destruct (Z.ltb_spec (version s - 1) f) as [L | L]; [exact Ho|].
  simpl. unfold orphans_past in *. rewrite Forall_forall in *. intros k I.
  apply (In_keys_putSync Buffer_compare Buffer_compare_eq) in I.
  destruct I as [-> | I]; [|apply Ho, I].
  exists (version s - 1), f, h.
  split; [split; [unfold u32; lia | split; [lia | reflexivity]] | lia].
Qed.

Lemma putOrphan_node_past (h : option Buffer) (f : option Z) (s s' : Store) :
  match f with Some x => 1 <= x | None => True end ->
  version s <= 4294967296 ->
  putOrphan_node h f s = Ok s' ->
  orphans_past (version s) (map fst (orphanDB s)) ->
  orphans_past (version s) (map fst (orphanDB s')).
Proof.
  intros Hf Hv H Ho. unfold putOrphan_node in H.
  destruct h as [h|]; [|discriminate]. destruct f as [f|]; [|discriminate].
  simpl in H. injection H as <-. apply putOrphan_past; assumption.
Qed.

Lemma born_set_left (this node : Node) :
  born this -> born node -> born (set_left this node).
Proof. destruct this as [d | d l r]; simpl; tauto. Qed.

Lemma born_set_right (this node : Node) :
  born this -> born node -> born (set_right this node).
Proof. destruct this as [d | d l r]; simpl; tauto. Qed.

Lemma born_set_key (this : Node) (key : Buffer) :
  born this -> born (set_key this key).
Proof. destruct this as [d | d l r]; simpl; tauto. Qed.

Lemma born_deref (r : Ref) (c : Node) :
  match r with Unset => True | Stored c => born c | Cached c => born c end ->
  deref r = Some c -> born c.
Proof. destruct r; simpl; intros B E; try discriminate; injection E as <-; exact B. Qed.

Lemma born_leftRotation (this n : Node) :
  born this -> leftRotation this = Ok n -> born n.
Proof.
  destruct this as [d | d l r]; [discriminate|]. unfold leftRotation.
  destruct (deref r) as [[rd | rd rl rr] |] eqn:E; try discriminate.
  intros (Bv & Bl & Br) H. apply Ok_inj in H. subst n.
  pose proof (born_deref r _ Br E) as (Bv' & Bl' & Br').
  apply born_set_left; [simpl; tauto|].
  destruct rl as [| c | c]; try (simpl; tauto);
    apply born_set_right; simpl; tauto.
Qed.

Lemma born_rightRotation (this n : Node) :
  born this -> rightRotation this = Ok n -> born n.
Proof.
  destruct this as [d | d l r]; [discriminate|]. unfold rightRotation.
  destruct (deref l) as [[rd | rd rl rr] |] eqn:E; try discriminate.
  intros (Bv & Bl & Br) H. apply Ok_inj in H. subst n.
  pose proof (born_deref l _ Bl E) as (Bv' & Bl' & Br').
  apply born_set_right; [simpl; tauto|].
  destruct rr as [| c | c]; try (simpl; tauto);
    apply born_set_left; simpl; tauto.
Qed.

Lemma born_balance (this n : Node) :
  born this -> balance this = Ok n -> born n.
Proof.
  destruct this as [d | d l r]; [discriminate|]. unfold balance.
  intros B H. pose proof B as (Bv & Bl & Br).
  destruct (balanceFactor d =? 2).
  - destruct (deref l) as [[bd | bd bl br] |] eqn:E; try discriminate.
    pose proof (born_deref l _ Bl E) as Bc.
    destruct (balanceFactor bd <? 0).
    + destruct (leftRotation (Branch bd bl br)) as [rotated|] eqn:R;
        cbn [bind] in H; [|discriminate].
      apply (born_rightRotation _ _ (born_set_left _ _ B (born_leftRotation _ _ Bc R)) H).
    + cbn [bind] in H. apply (born_rightRotation _ _ B H).
  - destruct (balanceFactor d =? -2).
    + destruct (deref r) as [[bd | bd bl br] |] eqn:E; try discriminate.
      pose proof (born_deref r _ Br E) as Bc.
      destruct (0 <? balanceFactor bd).
      * destruct (rightRotation (Branch bd bl br)) as [rotated|] eqn:R;
          cbn [bind] in H; [|discriminate].
        apply (born_leftRotation _ _
                 (born_set_right _ _ B (born_rightRotation _ _ Bc R)) H).
      * cbn [bind] in H. apply (born_leftRotation _ _ B H).
    + apply Ok_inj in H. subst n. exact B.
Qed.

Lemma born_insert (key value : Buffer) (this : Node) :
  forall n, born this -> insert this key value = Ok n -> born n.
Proof.
  induction this as [d | d l r IHl IHr] using Node_induction; intros n B H.
  - simpl in H.
    destruct (Buffer_compare key (leaf_key d) =? -1);
      [|destruct (Buffer_compare key (leaf_key d) =? 1)];
      apply Ok_inj in H; subst n; simpl in *; tauto.
  - cbn [insert] in H. pose proof B as (Bv & Bl & Br).
    destruct (Buffer_compare key (branch_key d) =? -1).
    + destruct l as [| c | c]; try discriminate;
        (destruct (insert c key value) as [c'|] eqn:Ec; cbn [bind] in H;
         [|discriminate];
         apply (born_balance _ _
                  (born_set_left _ _ B (IHl c eq_refl c' Bl Ec)) H)).
    + destruct r as [| c | c]; try discriminate;
        (destruct (insert c key value) as [c'|] eqn:Ec; cbn [bind] in H;
         [|discriminate];
         apply (born_balance _ _
                  (born_set_right _ _ B (IHr c eq_refl c' Br Ec)) H)).
Qed.

Lemma born_materialize (n : Node) : born n -> born (materialize n).
Proof.
  induction n as [d | d l r IHl IHr] using Node_induction; [simpl; tauto|].
  intros (Bv & Bl & Br). cbn [materialize born branch_version].
  split; [exact Bv|].
  split; [destruct l as [| c | c] | destruct r as [| c | c]];
    try exact I; first [apply (IHl c eq_refl) | apply (IHr c eq_refl)]; assumption.
Qed.

Lemma successor_key_cases (c : bool) (n x this' : Node) :
  (if c then (m <- leftmost x ;; Ok (set_key n (node_key m))) else Ok n)
  = Ok this' ->
  this' = n \/ exists k, this' = set_key n k.
Proof.
  destruct c; [destruct (leftmost x) as [m|]; cbn [bind]; [|discriminate] |];
    intros E; apply Ok_inj in E; subst; eauto.
Qed.

Lemma past_session (s s' : Store) (keys : list Buffer) :
  same_session s s' ->
  orphans_past (version s) keys -> orphans_past (version s') keys.
Proof. intros (V & _). rewrite V. tauto. Qed.

Lemma remove_past (key : Buffer) (this : Node) :
  forall s res s',
    born this -> version s <= 4294967296 ->
    orphans_past (version s) (map fst (orphanDB s)) ->
    remove this key s = Ok (res, s') ->
    orphans_past (version s) (map fst (orphanDB s'))
    /\ match res with Some n => born n | None => True end.
Proof.
  induction this as [d | d l r IHl IHr] using Node_induction;
    intros s res s' B Hv Ho H.
  - simpl in H. destruct (_ =? 0).
    + destruct (putOrphan_node _ _ s) as [s1|] eqn:E; [|discriminate].
      simpl in H. injection H as <- <-. split; [|exact I].
      apply (putOrphan_node_past _ _ s s1 B Hv E Ho).
    + injection H as <- <-. split; assumption.
  - pose proof B as (Bv & Bl & Br). cbn [remove] in H. destruct (_ <? 0).
    + destruct l as [| cl | cl]; [discriminate | |];
        (destruct (remove cl key s) as [[[x|] s1]|] eqn:Hrem; cbn [bind] in H;
         try discriminate;
         destruct (IHl cl eq_refl _ _ _ Bl Hv Ho Hrem) as (Ho1 & Bx);
         pose proof (remove_session _ _ _ _ _ Hrem) as F;
         [ destruct (balance _) as [b|] eqn:Eb; cbn [bind] in H; [|discriminate];
           injection H as <- <-; split; [exact Ho1|];
           apply (born_balance _ _ (born_set_left _ _ B Bx) Eb)
         | destruct (putOrphan_node _ _ s1) as [s2|] eqn:E; cbn [bind] in H;
           [|discriminate];
           destruct r as [| cr | cr]; try discriminate; injection H as <- <-;
           (split; [|exact Br]);
           destruct F as (V & _); rewrite <- V;
           (eapply putOrphan_node_past; [exact Bv | | exact E |]; rewrite ?V; assumption) ]).
    + destruct r as [| cr | cr]; [discriminate | |];
        (destruct (remove cr key s) as [[[x|] s1]|] eqn:Hrem; cbn [bind] in H;
         try discriminate;
         destruct (IHr cr eq_refl _ _ _ Br Hv Ho Hrem) as (Ho1 & Bx);
         pose proof (remove_session _ _ _ _ _ Hrem) as F;
         [ destruct (if _ <? 1 then _ else _) as [this'|] eqn:Et; cbn [bind] in H;
           [|discriminate];
           destruct (balance _) as [b|] eqn:Eb; cbn [bind] in H; [|discriminate];
           injection H as <- <-; split; [exact Ho1|];
           refine (born_balance _ _ _ Eb);
           (destruct (successor_key_cases _ _ _ _ Et) as [-> | (k & ->)];
            [apply born_set_right | apply born_set_key, born_set_right];
            assumption)
         | destruct (putOrphan_node _ _ s1) as [s2|] eqn:E; cbn [bind] in H;
           [|discriminate];
           destruct l as [| cl | cl]; try discriminate; injection H as <- <-;
           (split; [|exact Bl]);
           destruct F as (V & _); rewrite <- V;
           (eapply putOrphan_node_past; [exact Bv | | exact E |]; rewrite ?V; assumption) ]).
Qed.

Lemma orphan_previous_past (h : option Buffer) (f : option Z) (s s' : Store) :
  match f with Some x => 1 <= x | None => True end ->
  version s <= 4294967296 ->
  orphan_previous h f s = Ok s' ->
  orphans_past (version s) (map fst (orphanDB s)) ->
  orphans_past (version s) (map fst (orphanDB s'))
  /\ version s' = version s.
Proof.
  intros Hf Hv H Ho. unfold orphan_previous in H. destruct h as [h|].
  - split; [apply (putOrphan_node_past _ _ s s' Hf Hv H Ho)|].
    apply (putOrphan_node_session _ _ _ _ H).
  - injection H as <-. auto.
Qed.

Lemma persist_past (digest : Buffer -> Buffer) (this : Node) :
  forall v s h n s',
    born this -> 1 <= version s <= 4294967296 ->
    match v with Some x => 1 <= x | None => True end ->
    orphans_past (version s) (map fst (orphanDB s)) ->
    persist digest this v s = Ok (h, n, s') ->
    orphans_past (version s) (map fst (orphanDB s')) /\ born n.
Proof.
  induction this as [d | d l r IHl IHr] using Node_induction;
    intros v s h n s' B Hv Hx Ho H.
  - simpl in H. destruct (leaf_isDirty d).
    + destruct (orphan_previous _ _ s) as [s1|] eqn:E; cbn [bind] in H;
        [|discriminate].
      injection H as <- <- <-.
      destruct (orphan_previous_past _ _ _ _ B (proj2 Hv) E Ho) as (Ho1 & _).
      split; [exact Ho1|]. simpl. destruct v; lia.
    + injection H as <- <- <-. split; assumption.
  - pose proof B as (Bv & Bl & Br). cbn [persist] in H.
    destruct (match l with
              | Cached c =>
                  '(h, c', s') <- persist digest c None s ;; Ok (h, Cached c', s')
              | _ => Ok (leftHash d, l, s)
              end) as [[[lh l'] s1]|] eqn:HL; cbn [bind] in H; [|discriminate].
    assert (F1 : orphans_past (version s) (map fst (orphanDB s1))
                 /\ version s1 = version s
                 /\ match l' with
                    | Unset => True
                    | Stored c => born c
                    | Cached c => born c
                    end).
    { destruct l as [| c | c]; try (injection HL as <- <- <-; auto).
      destruct (persist digest c None s) as [[[h0 c0] s0]|] eqn:Hc; cbn [bind] in HL;
        [|discriminate].
      injection HL as <- <- <-.
      destruct (IHl c eq_refl None _ _ _ _ Bl Hv I Ho Hc) as (Ho1 & Bc).
      destruct (persist_session _ _ _ _ _ _ _ Hc) as (V & _). auto. }
    destruct F1 as (Ho1 & V1 & Bl').
    destruct (match r with
              | Cached c =>
                  '(h, c', s') <- persist digest c None s1 ;; Ok (h, Cached c', s')
              | _ => Ok (rightHash d, r, s1)
              end) as [[[rh r'] s2]|] eqn:HR; cbn [bind] in H; [|discriminate].
    assert (F2 : orphans_past (version s) (map fst (orphanDB s2))
                 /\ version s2 = version s
                 /\ match r' with
                    | Unset => True
                    | Stored c => born c
                    | Cached c => born c
                    end).
    { destruct r as [| c | c]; try (injection HR as <- <- <-; auto).
      destruct (persist digest c None s1) as [[[h0 c0] s0]|] eqn:Hc; cbn [bind] in HR;
        [|discriminate].
      injection HR as <- <- <-. rewrite <- V1 in Ho1, Hv.
      destruct (IHr c eq_refl None _ _ _ _ Br Hv I Ho1 Hc) as (Ho2 & Bc).
      destruct (persist_session _ _ _ _ _ _ _ Hc) as (V & _).
      rewrite V1 in Ho2. split; [exact Ho2|]. split; [congruence | exact Bc]. }
    destruct F2 as (Ho2 & V2 & Br').
    destruct (branch_isDirty d).
    + destruct (orphan_previous _ _ s2) as [s3|] eqn:E; cbn [bind] in H;
        [|discriminate].
      destruct lh as [lh|]; cbn [bind defined] in H; [|discriminate].
      destruct rh as [rh|]; cbn [bind defined] in H; [|discriminate].
      injection H as <- <- <-. rewrite <- V2 in Ho2.
      assert (Hv2 : version s2 <= 4294967296) by lia.
      destruct (orphan_previous_past _ _ _ _ Bv Hv2 E Ho2) as (Ho3 & _).
      rewrite V2 in Ho3. split; [exact Ho3|].
      cbn [born branch_version]. split; [destruct v; lia|]. auto.
    + injection H as <- <- <-. split; [exact Ho2|].
      cbn [born branch_version]. auto.
Qed.

Lemma enter_past (s : Store) :
  orphans_past (version s) (map fst (orphanDB s)) ->
  0 <= version s -> (transactions s <> [] -> 1 <= version s) ->
  version s < 4294967296 ->
  orphans_past (version (transaction_enter s))
    (map fst (orphanDB (transaction_enter s)))
  /\ 1 <= version (transaction_enter s) <= 4294967296.
Proof.
  intros Ho H0 H1 Hb. unfold transaction_enter.
  destruct (transactions s) as [| tx txs]; simpl.
  - split; [|lia]. apply (orphans_past_grow (version s)); [lia | exact Ho].
  - split; [exact Ho|]. specialize (H1 ltac:(discriminate)). lia.
Qed.

Lemma root_born (t : Tree) :
  match persisted t with Some n => born n | None => True end ->
  match root t with Some r => born r | None => True end.
Proof.
  unfold root. destruct (rootHash t); [|tauto].
  destruct (persisted t) as [n|]; simpl; [apply born_materialize | tauto].
Qed.

Section PastFacts.
Variable digest : Buffer -> Buffer.
Variable T : Type.
Variable pack : T -> Buffer.
Variable falsy : T -> bool.

Lemma Tree_insert_past (key : Buffer) (value : T) (t t' : Tree) :
  Tree_past t -> version (store t) < 4294967296 ->
  Tree_insert digest T pack falsy key value t = Ok t' ->
  Tree_past t' /\ version (store t') <= version (store t) + 1.
Proof.
  intros (Bp & Ho & H0 & H1) Hb H.
  destruct (enter_past _ Ho H0 H1 Hb) as (Ho' & Hv').
  pose proof (root_born t Bp) as Br.
  destruct (Tree_insert_store digest T pack falsy key value t t' H) as (s1 & Ss & Es).
  destruct (same_session_enter _ _ Ss) as (Et & Ev).
  unfold Tree_insert in H. destruct (falsy value); [discriminate|].
  destruct (match root t with
            | Some r => insert r key (pack value)
            | None => Ok (new_Leaf key (pack value) None None)
            end) as [node|] eqn:En; cbn [bind] in H; [|discriminate].
  assert (Bn : born node).
  { destruct (root t) as [r|].
    - apply (born_insert key (pack value) r node Br En).
    - apply Ok_inj in En. subst node. exact I. }
  destruct (persist digest node None (transaction_enter (store t)))
    as [[[h n'] s2]|] eqn:P; cbn [bind] in H; [|discriminate].
  destruct (persist_past digest node None _ _ _ _ Bn Hv' I Ho' P) as (Ho2 & Bn').
  destruct (persist_session _ _ _ _ _ _ _ P) as (V & X & _).
  injection H as <-. unfold Tree_past. simpl. rewrite V, X.
  split; [split; [exact Bn'|]|].
  - split; [exact Ho2|]. split; [lia|]. intros _. lia.
  - unfold transaction_enter. destruct (transactions (store t)); simpl; lia.
Qed.

Lemma Tree_remove_past (key : Buffer) (t t' : Tree) :
  Tree_past t -> version (store t) < 4294967296 ->
  Tree_remove digest key t = Ok t' ->
  Tree_past t' /\ version (store t') <= version (store t) + 1.
Proof.
  intros (Bp & Ho & H0 & H1) Hb H.
  destruct (enter_past _ Ho H0 H1 Hb) as (Ho' & Hv').
  pose proof (root_born t Bp) as Br.
  unfold Tree_remove in H.
  destruct (match root t with
            | Some r => remove r key (transaction_enter (store t))
            | None => Ok (None, transaction_enter (store t))
            end) as [[node s1]|] eqn:R; cbn [bind] in H; [|discriminate].
  assert (F1 : orphans_past (version (transaction_enter (store t)))
                 (map fst (orphanDB s1))
               /\ match node with Some n => born n | None => True end
               /\ same_session (transaction_enter (store t)) s1).
  { destruct (root t) as [r|].
    - destruct (remove_past key r _ _ _ Br (proj2 Hv') Ho' R) as (A & B).
      split; [exact A|]. split; [exact B|]. eapply remove_session; exact R.
    - injection R as <- <-. split; [exact Ho'|]. split; [exact I|].
      apply same_session_refl. }
  destruct F1 as (Ho1 & Bn & (V1 & X1 & _)).
  assert (Hle : version (transaction_enter (store t)) <= version (store t) + 1)
    by (unfold transaction_enter; destruct (transactions (store t)); simpl; lia).
  destruct node as [r|].
  - destruct (persist digest r None s1) as [[[h r'] s2]|] eqn:P; cbn [bind] in H;
      [|discriminate].
    rewrite <- V1 in Ho1, Hv'.
    destruct (persist_past digest r None _ _ _ _ Bn Hv' I Ho1 P) as (Ho2 & Bn').
    destruct (persist_session _ _ _ _ _ _ _ P) as (V & X & _).
    injection H as <-. unfold Tree_past. simpl. rewrite V.
    split; [split; [exact Bn'|]|lia].
    split; [exact Ho2|]. split; [lia|]. intros _. lia.
  - cbn [bind] in H. injection H as <-. unfold Tree_past. simpl. rewrite V1.
    split; [split; [exact I|]|lia].
    split; [exact Ho1|]. split; [lia|]. intros _. lia.
Qed.

Lemma run_past (ops : list (Op T)) :
  forall t t',
    Tree_past t ->
    version (store t) + Z.of_nat (length ops) <= 4294967296 ->
    run digest T pack falsy ops t = Ok t' ->
    Tree_past t'.
Proof.
  induction ops as [| op ops IH]; intros t t' Hp Hb H.
  - simpl in H. injection H as <-. exact Hp.
  - cbn [run] in H. cbn [length] in Hb. rewrite Nat2Z.inj_succ in Hb.
    destruct (apply_op digest T pack falsy op t) as [t1|] eqn:E; cbn [bind] in H;
      [|discriminate].
    apply (IH t1 t'); [| |exact H];
      destruct op as [key value | key | |]; cbn [apply_op] in E.
    + apply (Tree_insert_past key value t t1 Hp ltac:(lia) E).
    + apply (Tree_remove_past key t t1 Hp ltac:(lia) E).
    + unfold Tree_startTransaction in E. injection E as <-.
      destruct Hp as (Bp & Ho & H0 & H1).
      destruct (enter_past _ Ho H0 H1 ltac:(lia)) as (Ho' & Hv').
      unfold Tree_past, startTransaction, transaction. simpl.
      split; [exact Bp|]. split; [exact Ho'|]. split; [lia|]. intros _. lia.
    + unfold Tree_commitTransaction, commitTransaction in E.
      destruct Hp as (Bp & Ho & H0 & H1).
      destruct (transactions (store t)) as [| tx txs]; [discriminate|].
      injection E as <-.
      specialize (H1 ltac:(discriminate)).
      unfold Tree_past. simpl. split; [exact Bp|]. split; [exact Ho|].
      split; [lia|]. intros _. lia.
    + destruct (Tree_insert_past key value t t1 Hp ltac:(lia) E) as (_ & L). lia.
    + destruct (Tree_remove_past key t t1 Hp ltac:(lia) E) as (_ & L). lia.
    + unfold Tree_startTransaction in E. injection E as <-.
      unfold startTransaction, transaction, transaction_enter. simpl.
      destruct (transactions (store t)); simpl; lia.
    + unfold Tree_commitTransaction, commitTransaction in E.
      destruct (transactions (store t)) as [| tx txs]; [discriminate|].
      injection E as <-. simpl. lia.
Qed.
End PastFacts.

Lemma StronglySorted_fst (l : list (Z * Buffer)) :
  StronglySorted Z.lt (map fst l) ->
  StronglySorted (fun a b => fst a < fst b) l.
Proof.
  induction l as [| a l IH]; simpl; intros S; [constructor|].
  inversion S as [| ? ? S' F]; subst. constructor; [apply IH, S'|].
  rewrite Forall_forall in *. intros x I. apply F, in_map, I.
Qed.

Lemma new_Tree_past : Tree_past new_Tree.
Proof.
  unfold Tree_past. simpl. split; [exact I|]. split; [constructor|].
  split; [vm_compute; discriminate|]. intros N. contradiction.
Qed.



(** ** Nodes of earlier versions ([node.ts], [store.ts]) *)

Lemma aged_grow (v v' : Z) (n : Node) : v <= v' -> aged v n -> aged v' n.
Proof.
  intros L. induction n as [d | d l r IHl IHr] using Node_induction.
  - simpl. destruct (leaf_version d); [lia | tauto].
  - intros (Bv & Bl & Br). cbn [aged]. split; [destruct (branch_version d); [lia | tauto]|].
    split; [destruct l as [| c | c] | destruct r as [| c | c]];
      try exact I; first [apply (IHl c eq_refl) | apply (IHr c eq_refl)]; assumption.
Qed.

Lemma aged_set_left (v : Z) (this node : Node) :
  aged v this -> aged v node -> aged v (set_left this node).
Proof. destruct this as [d | d l r]; simpl; tauto. Qed.

Lemma aged_set_right (v : Z) (this node : Node) :
  aged v this -> aged v node -> aged v (set_right this node).
Proof. destruct this as [d | d l r]; simpl; tauto. Qed.

Lemma aged_set_key (v : Z) (this : Node) (key : Buffer) :
  aged v this -> aged v (set_key this key).
Proof. destruct this as [d | d l r]; simpl; tauto. Qed.

Lemma aged_deref (v : Z) (r : Ref) (c : Node) :
  match r with Unset => True | Stored c => aged v c | Cached c => aged v c end ->
  deref r = Some c -> aged v c.
Proof. destruct r; simpl; intros B E; try discriminate; injection E as <-; exact B. Qed.

Lemma aged_leftRotation (v : Z) (this n : Node) :
  aged v this -> leftRotation this = Ok n -> aged v n.
Proof.
  destruct this as [d | d l r]; [discriminate|]. unfold leftRotation.
  destruct (deref r) as [[rd | rd rl rr] |] eqn:E; try discriminate.
  intros (Bv & Bl & Br) H. apply Ok_inj in H. subst n.
  pose proof (aged_deref v r _ Br E) as (Bv' & Bl' & Br').
  apply aged_set_left; [simpl; tauto|].
  destruct rl as [| c | c]; try (simpl; tauto);
    apply aged_set_right; simpl; tauto.
Qed.

Lemma aged_rightRotation (v : Z) (this n : Node) :
  aged v this -> rightRotation this = Ok n -> aged v n.
Proof.
  destruct this as [d | d l r]; [discriminate|]. unfold rightRotation.
  destruct (deref l) as [[rd | rd rl rr] |] eqn:E; try discriminate.
  intros (Bv & Bl & Br) H. apply Ok_inj in H. subst n.
  pose proof (aged_deref v l _ Bl E) as (Bv' & Bl' & Br').
  apply aged_set_right; [simpl; tauto|].
  destruct rr as [| c | c]; try (simpl; tauto);
    apply aged_set_left; simpl; tauto.
Qed.

Lemma aged_balance (v : Z) (this n : Node) :
  aged v this -> balance this = Ok n -> aged v n.
Proof.
  destruct this as [d | d l r]; [discriminate|]. unfold balance.
  intros B H. pose proof B as (Bv & Bl & Br).
  destruct (balanceFactor d =? 2).
  - destruct (deref l) as [[bd | bd bl br] |] eqn:E; try discriminate.
    pose proof (aged_deref v l _ Bl E) as Bc.
    destruct (balanceFactor bd <? 0).
    + destruct (leftRotation (Branch bd bl br)) as [rotated|] eqn:R;
        cbn [bind] in H; [|discriminate].
      apply (aged_rightRotation v _ _
               (aged_set_left v _ _ B (aged_leftRotation v _ _ Bc R)) H).
    + cbn [bind] in H. apply (aged_rightRotation v _ _ B H).
  - destruct (balanceFactor d =? -2).
    + destruct (deref r) as [[bd | bd bl br] |] eqn:E; try discriminate.
      pose proof (aged_deref v r _ Br E) as Bc.
      destruct (0 <? balanceFactor bd).
      * destruct (rightRotation (Branch bd bl br)) as [rotated|] eqn:R;
          cbn [bind] in H; [|discriminate].
        apply (aged_leftRotation v _ _
                 (aged_set_right v _ _ B (aged_rightRotation v _ _ Bc R)) H).
      * cbn [bind] in H. apply (aged_leftRotation v _ _ B H).
    + apply Ok_inj in H. subst n. exact B.
Qed.

Lemma aged_insert (v : Z) (key value : Buffer) (this : Node) :
  forall n, aged v this -> insert this key value = Ok n -> aged v n.
Proof.
  induction this as [d | d l r IHl IHr] using Node_induction; intros n B H.
  - simpl in H.
    destruct (Buffer_compare key (leaf_key d) =? -1);
      [|destruct (Buffer_compare key (leaf_key d) =? 1)];
      apply Ok_inj in H; subst n; simpl in *; tauto.
  - cbn [insert] in H. pose proof B as (Bv & Bl & Br).
    destruct (Buffer_compare key (branch_key d) =? -1).
    + destruct l as [| c | c]; try discriminate;
        (destruct (insert c key value) as [c'|] eqn:Ec; cbn [bind] in H;
         [|discriminate];
         apply (aged_balance v _ _
                  (aged_set_left v _ _ B (IHl c eq_refl c' Bl Ec)) H)).
    + destruct r as [| c | c]; try discriminate;
        (destruct (insert c key value) as [c'|] eqn:Ec; cbn [bind] in H;
         [|discriminate];
         apply (aged_balance v _ _
                  (aged_set_right v _ _ B (IHr c eq_refl c' Br Ec)) H)).
Qed.

Lemma aged_materialize (v : Z) (n : Node) : aged v n -> aged v (materialize n).
Proof.
  induction n as [d | d l r IHl IHr] using Node_induction; [simpl; tauto|].
  intros (Bv & Bl & Br). cbn [materialize aged branch_version].
  split; [exact Bv|].
  split; [destruct l as [| c | c] | destruct r as [| c | c]];
    try exact I; first [apply (IHl c eq_refl) | apply (IHr c eq_refl)]; assumption.
Qed.

Lemma putOrphan_node_kept (h : option Buffer) (f : option Z) (s s' : Store) :
  match f with Some x => x <= version s - 1 | None => True end ->
  putOrphan_node h f s = Ok s' -> nodeDB s' = nodeDB s.
Proof.
  intros Hf H. unfold putOrphan_node in H.
  destruct h as [h|]; [|discriminate]. destruct f as [f|]; [|discriminate].
  simpl in H. injection H as <-. unfold putOrphan.
  destruct (Z.ltb_spec (version s - 1) f); [lia | reflexivity].
Qed.

Lemma remove_kept (key : Buffer) (this : Node) :
  forall s res s',
    aged (version s - 1) this ->
    remove this key s = Ok (res, s') ->
    nodeDB s' = nodeDB s
    /\ match res with Some n => aged (version s - 1) n | None => True end.
Proof.
  induction this as [d | d l r IHl IHr] using Node_induction;
    intros s res s' B H.
  - simpl in H. destruct (_ =? 0).
    + destruct (putOrphan_node _ _ s) as [s1|] eqn:E; [|discriminate].
      simpl in H. injection H as <- <-. split; [|exact I].
      apply (putOrphan_node_kept _ _ s s1 B E).
    + injection H as <- <-. split; [reflexivity | exact B].
  - pose proof B as (Bv & Bl & Br). cbn [remove] in H. destruct (_ <? 0).
    + destruct l as [| cl | cl]; [discriminate | |];
        (destruct (remove cl key s) as [[[x|] s1]|] eqn:Hrem; cbn [bind] in H;
         try discriminate;
         destruct (IHl cl eq_refl _ _ _ Bl Hrem) as (N1 & Bx);
         destruct (remove_session _ _ _ _ _ Hrem) as (V & _);
         [ destruct (balance _) as [b|] eqn:Eb; cbn [bind] in H; [|discriminate];
           injection H as <- <-; split; [exact N1|];
           apply (aged_balance _ _ _ (aged_set_left _ _ _ B Bx) Eb)
         | destruct (putOrphan_node _ _ s1) as [s2|] eqn:E; cbn [bind] in H;
           [|discriminate];
           destruct r as [| cr | cr]; try discriminate; injection H as <- <-;
           (split; [|exact Br]); rewrite <- N1;
           (eapply putOrphan_node_kept; [|exact E]; rewrite V; exact Bv) ]).
    + destruct r as [| cr | cr]; [discriminate | |];
        (destruct (remove cr key s) as [[[x|] s1]|] eqn:Hrem; cbn [bind] in H;
         try discriminate;
         destruct (IHr cr eq_refl _ _ _ Br Hrem) as (N1 & Bx);
         destruct (remove_session _ _ _ _ _ Hrem) as (V & _);
         [ destruct (if _ <? 1 then _ else _) as [this'|] eqn:Et; cbn [bind] in H;
           [|discriminate];
           destruct (balance _) as [b|] eqn:Eb; cbn [bind] in H; [|discriminate];
           injection H as <- <-; split; [exact N1|];
           refine (aged_balance _ _ _ _ Eb);
           (destruct (successor_key_cases _ _ _ _ Et) as [-> | (k & ->)];
            [apply aged_set_right | apply aged_set_key, aged_set_right];
            assumption)
         | destruct (putOrphan_node _ _ s1) as [s2|] eqn:E; cbn [bind] in H;
           [|discriminate];
           destruct l as [| cl | cl]; try discriminate; injection H as <- <-;
           (split; [|exact Bl]); rewrite <- N1;
           (eapply putOrphan_node_kept; [|exact E]; rewrite V; exact Bv) ]).
Qed.

Lemma nodes_kept_refl (s : Store) : nodes_kept s s.
Proof. intros h I. exact I. Qed.

Lemma nodes_kept_trans (s1 s2 s3 : Store) :
  nodes_kept s1 s2 -> nodes_kept s2 s3 -> nodes_kept s1 s3.
Proof. intros A B h I. apply B, A, I. Qed.

Lemma nodes_kept_eq (s s' : Store) : nodeDB s' = nodeDB s -> nodes_kept s s'.
Proof. intros E h I. rewrite E. exact I. Qed.

Lemma putNode_kept (h : Buffer) (c : CompactNode) (s : Store) :
  nodes_kept s (putNode h c s).
Proof.
  intros x I. unfold putNode. simpl.
  apply (In_keys_putSync Buffer_compare Buffer_compare_eq). right. exact I.
Qed.

Lemma orphan_previous_kept (h : option Buffer) (f : option Z) (s s' : Store) :
  match f with Some x => x <= version s - 1 | None => True end ->
  orphan_previous h f s = Ok s' -> nodeDB s' = nodeDB s.
Proof.
  intros Hf H. unfold orphan_previous in H. destruct h as [h|].
  - apply (putOrphan_node_kept _ _ s s' Hf H).
  - injection H as <-. reflexivity.
Qed.

Lemma persist_kept (digest : Buffer -> Buffer) (this : Node) :
  forall v s h n s',
    aged (version s - 1) this ->
    persist digest this v s = Ok (h, n, s') ->
    nodes_kept s s'.
Proof.
  induction this as [d | d l r IHl IHr] using Node_induction;
    intros v s h n s' B H.
  - simpl in H. destruct (leaf_isDirty d).
    + destruct (orphan_previous _ _ s) as [s1|] eqn:E; cbn [bind] in H;
        [|discriminate].
      injection H as <- <- <-.
      eapply nodes_kept_trans; [|apply putNode_kept].
      apply nodes_kept_eq, (orphan_previous_kept _ _ _ _ B E).
    + injection H as <- <- <-. apply nodes_kept_refl.
  - pose proof B as (Bv & Bl & Br). cbn [persist] in H.
    destruct (match l with
              | Cached c =>
                  '(h, c', s') <- persist digest c None s ;; Ok (h, Cached c', s')
              | _ => Ok (leftHash d, l, s)
              end) as [[[lh l'] s1]|] eqn:HL; cbn [bind] in H; [|discriminate].
    assert (F1 : nodes_kept s s1 /\ version s1 = version s).
    { destruct l as [| c | c];
        try (injection HL as <- <- <-; split; [apply nodes_kept_refl | reflexivity]).
      destruct (persist digest c None s) as [[[h0 c0] s0]|] eqn:Hc; cbn [bind] in HL;
        [|discriminate].
      injection HL as <- <- <-.
      split; [apply (IHl c eq_refl _ _ _ _ _ Bl Hc)|].
      apply (persist_session _ _ _ _ _ _ _ Hc). }
    destruct F1 as (K1 & V1).
    destruct (match r with
              | Cached c =>
                  '(h, c', s') <- persist digest c None s1 ;; Ok (h, Cached c', s')
              | _ => Ok (rightHash d, r, s1)
              end) as [[[rh r'] s2]|] eqn:HR; cbn [bind] in H; [|discriminate].
    assert (F2 : nodes_kept s1 s2 /\ version s2 = version s).
    { destruct r as [| c | c];
        try (injection HR as <- <- <-; split; [apply nodes_kept_refl | exact V1]).
      destruct (persist digest c None s1) as [[[h0 c0] s0]|] eqn:Hc; cbn [bind] in HR;
        [|discriminate].
      injection HR as <- <- <-. rewrite <- V1 in Br.
      split; [apply (IHr c eq_refl _ _ _ _ _ Br Hc)|].
      destruct (persist_session _ _ _ _ _ _ _ Hc) as (V & _). congruence. }
    destruct F2 as (K2 & V2).
    eapply nodes_kept_trans; [exact K1|]. eapply nodes_kept_trans; [exact K2|].
    destruct (branch_isDirty d).
    + destruct (orphan_previous _ _ s2) as [s3|] eqn:E; cbn [bind] in H;
        [|discriminate].
      destruct lh as [lh|]; cbn [bind defined] in H; [|discriminate].
      destruct rh as [rh|]; cbn [bind defined] in H; [|discriminate].
      injection H as <- <- <-.
      eapply nodes_kept_trans; [|apply putNode_kept].
      apply nodes_kept_eq. rewrite <- V2 in Bv.
      apply (orphan_previous_kept _ _ _ _ Bv E).
    + injection H as <- <- <-. apply nodes_kept_refl.
Qed.

Lemma persist_aged (digest : Buffer -> Buffer) (this : Node) :
  forall s h n s',
    aged (version s) this ->
    persist digest this None s = Ok (h, n, s') ->
    aged (version s) n.
Proof.
  induction this as [d | d l r IHl IHr] using Node_induction;
    intros s h n s' B H.
  - simpl in H. destruct (leaf_isDirty d).
    + destruct (orphan_previous _ _ s) as [s1|] eqn:E; cbn [bind] in H;
        [|discriminate].
      injection H as <- <- <-. simpl. lia.
    + injection H as <- <- <-. exact B.
  - pose proof B as (Bv & Bl & Br). cbn [persist] in H.
    destruct (match l with
              | Cached c =>
                  '(h, c', s') <- persist digest c None s ;; Ok (h, Cached c', s')
              | _ => Ok (leftHash d, l, s)
              end) as [[[lh l'] s1]|] eqn:HL; cbn [bind] in H; [|discriminate].
    assert (F1 : version s1 = version s
                 /\ match l' with
                    | Unset => True
                    | Stored c => aged (version s) c
                    | Cached c => aged (version s) c
                    end).
    { destruct l as [| c | c]; try (injection HL as <- <- <-; auto).
      destruct (persist digest c None s) as [[[h0 c0] s0]|] eqn:Hc; cbn [bind] in HL;
        [|discriminate].
      injection HL as <- <- <-.
      split; [apply (persist_session _ _ _ _ _ _ _ Hc)|].
      apply (IHl c eq_refl _ _ _ _ Bl Hc). }
    destruct F1 as (V1 & Bl').
    destruct (match r with
              | Cached c =>
                  '(h, c', s') <- persist digest c None s1 ;; Ok (h, Cached c', s')
              | _ => Ok (rightHash d, r, s1)
              end) as [[[rh r'] s2]|] eqn:HR; cbn [bind] in H; [|discriminate].
    assert (F2 : match r' with
                 | Unset => True
                 | Stored c => aged (version s) c
                 | Cached c => aged (version s) c
                 end).
    { destruct r as [| c | c]; try (injection HR as <- <- <-; auto).
      destruct (persist digest c None s1) as [[[h0 c0] s0]|] eqn:Hc; cbn [bind] in HR;
        [|discriminate].
      injection HR as <- <- <-. rewrite <- V1 in Br |- *.
      apply (IHr c eq_refl _ _ _ _ Br Hc). }
    destruct (branch_isDirty d).
    + destruct (orphan_previous _ _ s2) as [s3|] eqn:E; cbn [bind] in H;
        [|discriminate].
      destruct lh as [lh|]; cbn [bind defined] in H; [|discriminate].
      destruct rh as [rh|]; cbn [bind defined] in H; [|discriminate].
      injection H as <- <- <-. cbn [aged branch_version]. split; [lia|]. auto.
    + injection H as <- <- <-. cbn [aged branch_version]. auto.
Qed.

Lemma remove_aged (v : Z) (key : Buffer) (this : Node) :
  forall s res s',
    aged v this -> remove this key s = Ok (res, s') ->
    match res with Some n => aged v n | None => True end.
Proof.
  induction this as [d | d l r IHl IHr] using Node_induction;
    intros s res s' B H.
  - simpl in H. destruct (_ =? 0).
    + destruct (putOrphan_node _ _ s) as [s1|] eqn:E; [|discriminate].
      simpl in H. injection H as <- <-. exact I.
    + injection H as <- <-. exact B.
  - pose proof B as (Bv & Bl & Br). cbn [remove] in H. destruct (_ <? 0).
    + destruct l as [| cl | cl]; [discriminate | |];
        (destruct (remove cl key s) as [[[x|] s1]|] eqn:Hrem; cbn [bind] in H;
         try discriminate;
         pose proof (IHl cl eq_refl _ _ _ Bl Hrem) as Bx;
         [ destruct (balance _) as [b|] eqn:Eb; cbn [bind] in H; [|discriminate];
           injection H as <- <-;
           apply (aged_balance _ _ _ (aged_set_left _ _ _ B Bx) Eb)
         | destruct (putOrphan_node _ _ s1) as [s2|] eqn:E; cbn [bind] in H;
           [|discriminate];
           destruct r as [| cr | cr]; try discriminate; injection H as <- <-;
           exact Br ]).
    + destruct r as [| cr | cr]; [discriminate | |];
        (destruct (remove cr key s) as [[[x|] s1]|] eqn:Hrem; cbn [bind] in H;
         try discriminate;
         pose proof (IHr cr eq_refl _ _ _ Br Hrem) as Bx;
         [ destruct (if _ <? 1 then _ else _) as [this'|] eqn:Et; cbn [bind] in H;
           [|discriminate];
           destruct (balance _) as [b|] eqn:Eb; cbn [bind] in H; [|discriminate];
           injection H as <- <-;
           refine (aged_balance _ _ _ _ Eb);
           (destruct (successor_key_cases _ _ _ _ Et) as [-> | (k & ->)];
            [apply aged_set_right | apply aged_set_key, aged_set_right];
            assumption)
         | destruct (putOrphan_node _ _ s1) as [s2|] eqn:E; cbn [bind] in H;
           [|discriminate];
           destruct l as [| cl | cl]; try discriminate; injection H as <- <-;
           exact Bl ]).
Qed.

Lemma root_aged (v : Z) (t : Tree) :
  match persisted t with Some n => aged v n | None => True end ->
  match root t with Some r => aged v r | None => True end.
Proof.
  unfold root. destruct (rootHash t); [|tauto].
  destruct (persisted t) as [n|]; simpl; [apply aged_materialize | tauto].
Qed.

Lemma enter_version (s : Store) :
  version s <= version (transaction_enter s)
  /\ (transactions s = [] -> version (transaction_enter s) - 1 = version s).
Proof.
  unfold transaction_enter. destruct (transactions s); simpl; split; try lia.
  discriminate.
Qed.

Section AgedFacts.
Variable digest : Buffer -> Buffer.
Variable T : Type.
Variable pack : T -> Buffer.
Variable falsy : T -> bool.

Lemma Tree_insert_aged (key : Buffer) (value : T) (t t' : Tree) :
  Tree_aged t ->
  Tree_insert digest T pack falsy key value t = Ok t' ->
  Tree_aged t'
  /\ (transactions (store t) = [] -> nodes_kept (store t) (store t')).
Proof.
  intros Ha H. unfold Tree_aged in Ha.
  destruct (enter_version (store t)) as (Hle & Heq).
  unfold Tree_insert in H. destruct (falsy value); [discriminate|].
  destruct (match root t with
            | Some r => insert r key (pack value)
            | None => Ok (new_Leaf key (pack value) None None)
            end) as [node|] eqn:En; cbn [bind] in H; [|discriminate].
  assert (Bn : forall v, match persisted t with Some n => aged v n | None => True end ->
                         aged v node).
  { intros v Hv. pose proof (root_aged v t Hv) as Br. destruct (root t) as [r|].
    - apply (aged_insert v key (pack value) r node Br En).
    - apply Ok_inj in En. subst node. exact I. }
  destruct (persist digest node None (transaction_enter (store t)))
    as [[[h n'] s2]|] eqn:P; cbn [bind] in H; [|discriminate].
  destruct (persist_session _ _ _ _ _ _ _ P) as (V & _).
  injection H as <-. unfold Tree_aged. simpl. split.
  - rewrite V. apply (persist_aged digest node _ _ _ _) with (2 := P).
    apply Bn. destruct (persisted t); [|exact I].
    apply (aged_grow (version (store t))); assumption.
  - intros Etx. eapply nodes_kept_trans;
      [|apply nodes_kept_eq; reflexivity].
    eapply nodes_kept_trans; [apply nodes_kept_eq|].
    2: { apply (persist_kept digest node _ _ _ _ _) with (2 := P).
         rewrite (Heq Etx). apply Bn. exact Ha. }
    unfold transaction_enter. destruct (transactions (store t)); reflexivity.
Qed.

Lemma Tree_remove_aged (key : Buffer) (t t' : Tree) :
  Tree_aged t ->
  Tree_remove digest key t = Ok t' ->
  Tree_aged t'
  /\ (transactions (store t) = [] -> nodes_kept (store t) (store t')).
Proof.
  intros Ha H. unfold Tree_aged in Ha.
  destruct (enter_version (store t)) as (Hle & Heq).
  assert (N0 : nodeDB (transaction_enter (store t)) = nodeDB (store t))
    by (unfold transaction_enter; destruct (transactions (store t)); reflexivity).
  unfold Tree_remove in H.
  destruct (match root t with
            | Some r => remove r key (transaction_enter (store t))
            | None => Ok (None, transaction_enter (store t))
            end) as [[node s1]|] eqn:R; cbn [bind] in H; [|discriminate].
  assert (V1 : version s1 = version (transaction_enter (store t))).
  { destruct (root t) as [r|].
    - apply (remove_session _ _ _ _ _ R).
    - injection R as _ <-. reflexivity. }
  assert (Bn : forall v, match persisted t with Some n => aged v n | None => True end ->
                         match node with Some n => aged v n | None => True end).
  { intros v Hv. pose proof (root_aged v t Hv) as Br. destruct (root t) as [r|].
    - apply (remove_aged v key r _ _ _ Br R).
    - injection R as <- _. exact I. }
  assert (K1 : transactions (store t) = [] -> nodeDB s1 = nodeDB (store t)).
  { intros Etx. pose proof (root_aged _ t Ha) as Br. destruct (root t) as [r|].
    - rewrite <- N0. apply (remove_kept key r _ _ _) with (2 := R).
      rewrite (Heq Etx). exact Br.
    - injection R as _ <-. exact N0. }
  assert (Ha' : match persisted t with
                | Some n => aged (version s1) n
                | None => True
                end).
  { destruct (persisted t); [|exact I]. rewrite V1.
    apply (aged_grow (version (store t))); assumption. }
  destruct node as [r|].
  - destruct (persist digest r None s1) as [[[h r'] s2]|] eqn:P; cbn [bind] in H;
      [|discriminate].
    destruct (persist_session _ _ _ _ _ _ _ P) as (V & _).
    injection H as <-. unfold Tree_aged. simpl. split.
    + rewrite V. apply (persist_aged digest r _ _ _ _) with (2 := P).
      apply (Bn _ Ha').
    + intros Etx. eapply nodes_kept_trans; [apply nodes_kept_eq, (K1 Etx)|].
      apply (persist_kept digest r _ _ _ _ _) with (2 := P).
      rewrite V1, (Heq Etx). apply (Bn _ Ha).
  - cbn [bind] in H. injection H as <-. unfold Tree_aged. simpl.
    split; [exact I|]. intros Etx. apply nodes_kept_eq, (K1 Etx).
Qed.

Lemma run_aged (ops : list (Op T)) :
  forall t t',
    Tree_aged t -> run digest T pack falsy ops t = Ok t' -> Tree_aged t'.
Proof.
  induction ops as [| op ops IH]; intros t t' Ha H.
  - simpl in H. injection H as <-. exact Ha.
  - cbn [run] in H.
    destruct (apply_op digest T pack falsy op t) as [t1|] eqn:E; cbn [bind] in H;
      [|discriminate].
    apply (IH t1 t'); [|exact H].
    destruct op as [key value | key | |]; cbn [apply_op] in E.
    + apply (Tree_insert_aged key value t t1 Ha E).
    + apply (Tree_remove_aged key t t1 Ha E).
    + unfold Tree_startTransaction in E. injection E as <-.
      unfold Tree_aged in *. simpl. destruct (persisted t); [|exact I].
      apply (aged_grow (version (store t))); [|exact Ha].
      unfold startTransaction, transaction, transaction_enter.
      destruct (transactions (store t)); simpl; lia.
    + unfold Tree_commitTransaction, commitTransaction in E.
      destruct (transactions (store t)) as [| tx txs]; [discriminate|].
      injection E as <-. exact Ha.
Qed.
End AgedFacts.



(** ** Pruning again ([store.ts]) *)

Lemma removeSync_versions_sorted (L : list Z) :
  forall s,
    StronglySorted (fun a b => fst a < fst b) (versionDB s) ->
    StronglySorted (fun a b => fst a < fst b)
      (versionDB
         (fold_left
            (fun s v => set_versionDB s (removeSync number_compare v (versionDB s)))
            L s)).
Proof.
  induction L as [| v L IH]; intros s S; simpl; [exact S|].
  apply IH. simpl. apply StronglySorted_filter, S.
Qed.

Lemma prune_frame (L : list Z) (R : list Buffer) (p : Z) :
  forall s,
    let s' := fold_left
                (fun s v => set_versionDB s (removeSync number_compare v (versionDB s)))
                L (fold_left (prune_orphan p) R s) in
    version s' = version s /\ transactions s' = transactions s.
Proof.
  assert (A : forall s,
             version (fold_left (prune_orphan p) R s) = version s
             /\ transactions (fold_left (prune_orphan p) R s) = transactions s).
  { induction R as [| k R IH]; intros s; simpl; [auto|].
    destruct (IH (prune_orphan p s k)) as (-> & ->).
    unfold prune_orphan, putOrphan.
    destruct (p <? _); simpl; [auto|].
    destruct (_ <? _); simpl; auto. }
  assert (B : forall s,
             version (fold_left
                        (fun s v => set_versionDB s
                                      (removeSync number_compare v (versionDB s)))
                        L s) = version s
             /\ transactions (fold_left
                                (fun s v => set_versionDB s
                                              (removeSync number_compare v (versionDB s)))
                                L s) = transactions s).
  { induction L as [| v L IH]; intros s; simpl; [auto|].
    destruct (IH (set_versionDB s (removeSync number_compare v (versionDB s))))
      as (-> & ->). auto. }
  intros s. simpl. destruct (B (fold_left (prune_orphan p) R s)) as (-> & ->).
  apply A.
Qed.

(** X18.  [prune(toVersion, fromVersion)], for
    [1 <= fromVersion <= toVersion < 2^32 - 1], on a store whose versions
    table is in key order and whose orphan keys are keys of orphan
    records, leaves the version counter and the open transactions alone
    and returns a store of the same kind: it can be pruned again. *)
Theorem prune_keeps_well_formed (s : Store) (toVersion fromVersion : Z) :
  1 <= fromVersion <= toVersion -> toVersion < 4294967295 ->
  StronglySorted (fun a b => fst a < fst b) (versionDB s) ->
  orphans_wf (map fst (orphanDB s)) ->
  let s' := prune toVersion fromVersion s in
  version s' = version s
  /\ transactions s' = transactions s
  /\ StronglySorted (fun a b => fst a < fst b) (versionDB s')
  /\ orphans_wf (map fst (orphanDB s')).
Proof.
  intros Hf Ht S W s'.
  pose proof (previousVersion_spec fromVersion s S) as P.
  set (prevV := previousVersion fromVersion s) in *.
  assert (Hp : prevV < 4294967296) by (destruct P as [(-> & _) | (_ & L & _)]; lia).
  pose proof (prune_range_wf toVersion fromVersion s W) as WR.
  unfold s', prune. fold prevV.
  set (s1 := fold_left (prune_orphan prevV) (prune_range toVersion fromVersion s) s).
  destruct (prune_frame
              (getKeys number_compare fromVersion (toVersion + 1) (versionDB s1))
              (prune_range toVersion fromVersion s) prevV s) as (Ev & Et).
  fold s1 in Ev, Et. cbv zeta in Ev, Et.
  split; [exact Ev|]. split; [exact Et|]. split.
  - apply removeSync_versions_sorted. unfold s1.
    rewrite (prune_orphans_versionDB prevV _ WR). exact S.
  - destruct (prune_versions
                (getKeys number_compare fromVersion (toVersion + 1) (versionDB s1)) s1)
      as (_ & EO & _).
    cbv zeta in EO. rewrite EO. unfold orphans_wf. rewrite Forall_forall.
    intros key I. unfold s1 in I.
    apply (prune_orphans_orphanDB prevV _ Hp WR) in I.
    unfold orphans_wf in W. rewrite Forall_forall in W.
    destruct I as [(I & _) | (t & f & h & (U & F & _) & _ & L & ->)];
      [apply W, I|].
    exists prevV, f, h. split; [unfold u32; lia|]. split; [exact F | reflexivity].
Qed.

Lemma prune_keeps_well_formed_witness :
  1 <= 3 <= 3 /\ 3 < 4294967295
  /\ StronglySorted (fun a b => fst a < fst b) (versionDB gap_store)
  /\ orphans_wf (map fst (orphanDB gap_store))
  /\ version (prune 3 3 gap_store) = version gap_store
  /\ transactions (prune 3 3 gap_store) = transactions gap_store
  /\ StronglySorted (fun a b => fst a < fst b) (versionDB (prune 3 3 gap_store))
  /\ orphans_wf (map fst (orphanDB (prune 3 3 gap_store))).
Proof.
  assert (H1 : 1 <= 3 <= 3) by lia.
  assert (H2 : 3 < 4294967295) by lia.
  assert (H3 : StronglySorted (fun a b => fst a < fst b) (versionDB gap_store)).
  { let l := eval vm_compute in (versionDB gap_store) in
    change (versionDB gap_store) with l.
    repeat constructor. }
  assert (H4 : orphans_wf (map fst (orphanDB gap_store))).
  { let l := eval vm_compute in (map fst (orphanDB gap_store)) in
    change (map fst (orphanDB gap_store)) with l.
    constructor; [|constructor].
    exists 2, 1, gap_leaf. split; [unfold u32; lia|]. split; [lia | reflexivity]. }
  split; [exact H1|]. split; [exact H2|]. split; [exact H3|]. split; [exact H4|].
  exact (prune_keeps_well_formed gap_store 3 3 H1 H2 H3 H4).
Defined.

(** ** Orphan records ([store.ts]) *)

(** X19.  [putOrphan(hash, fromVersion)] at a version counter and for a
    [fromVersion] in the range of four bytes: when the node was born in
    the current version ([fromVersion > version - 1]) it is removed from
    the nodes table and no orphan is recorded; otherwise the nodes table
    is left alone and one key is added to the orphan table, from which
    the loop of [prune] reads [fromVersion] and [hash] back (and the
    first four bytes give [version - 1]). *)
Theorem putOrphan_records_or_deletes (s : Store) (hash : Buffer) (fromVersion : Z) :
  1 <= version s <= 4294967296 -> 1 <= fromVersion < 4294967296 ->
  let s' := putOrphan hash fromVersion None s in
  if version s - 1 <? fromVersion
  then orphanDB s' = orphanDB s
       /\ nodeDB_get hash s' = None
       /\ forall hash', hash' <> hash -> nodeDB_get hash' s' = nodeDB_get hash' s
  else nodeDB s' = nodeDB s
       /\ exists key,
            (forall k, In k (map fst (orphanDB s'))
                       <-> k = key \/ In k (map fst (orphanDB s)))
            /\ numberfromBuffer (Buffer_slice key 0 4) = version s - 1
            /\ numberfromBuffer (Buffer_slice key 4 8) = fromVersion
            /\ Buffer_slice_from key 8 = hash.
Proof.
  intros Hv Hf s'. unfold s', putOrphan.
  destruct (Z.ltb_spec (version s - 1) fromVersion) as [L | L]; simpl.
  - split; [reflexivity|]. unfold nodeDB_get. simpl. split.
    + apply (get_removeSync_same Buffer_compare).
    + intros hash' N.
      apply (get_removeSync_other Buffer_compare Buffer_compare_eq). exact N.
  - split; [reflexivity|]. exists (orphanKey (version s - 1) fromVersion hash).
    split; [intros k; apply (In_keys_putSync Buffer_compare Buffer_compare_eq)|].
    split; [|split].
    + change (Buffer_slice (orphanKey (version s - 1) fromVersion hash) 0 4)
        with (numberToBuffer (version s - 1)).
      apply numberfromBuffer_numberToBuffer. lia.
    + rewrite orphanKey_fromVersion. apply numberfromBuffer_numberToBuffer. lia.
    + exact (orphanKey_hash (version s - 1) fromVersion hash).
Qed.

Lemma putOrphan_records_or_deletes_witness :
  1 <= version gap_store <= 4294967296 /\ 1 <= 3 < 4294967296
  /\ version gap_store = 4
  /\ if version gap_store - 1 <? 3
     then orphanDB (putOrphan [7] 3 None gap_store) = orphanDB gap_store
          /\ nodeDB_get [7] (putOrphan [7] 3 None gap_store) = None
          /\ forall hash', hash' <> [7] ->
               nodeDB_get hash' (putOrphan [7] 3 None gap_store)
               = nodeDB_get hash' gap_store
     else nodeDB (putOrphan [7] 3 None gap_store) = nodeDB gap_store
          /\ exists key,
               (forall k, In k (map fst (orphanDB (putOrphan [7] 3 None gap_store)))
                          <-> k = key \/ In k (map fst (orphanDB gap_store)))
               /\ numberfromBuffer (Buffer_slice key 0 4) = version gap_store - 1
               /\ numberfromBuffer (Buffer_slice key 4 8) = 3
               /\ Buffer_slice_from key 8 = [7].
Proof.
  assert (H1 : 1 <= version gap_store <= 4294967296) by (vm_compute; split; discriminate).
  assert (H2 : 1 <= 3 < 4294967296) by lia.
  split; [exact H1|]. split; [exact H2|]. split; [reflexivity|].
  exact (putOrphan_records_or_deletes gap_store [7] 3 H1 H2).
Defined.

(** ** The tree as a Merkle tree ([node.ts]) *)

Lemma merkle_hashed (digest : Buffer -> Buffer) (n : Node) :
  merkle digest n -> sealed n -> node_isDirty n = false /\ hashed digest n.
Proof.
  intros M S. split; [apply M|]. destruct n as [d | d l r].
  - destruct M as (W & D). simpl in W, D. destruct W as (_ & W).
    destruct (W D) as (v & Hv & Hh). exists v. auto.
  - destruct (merkle_children digest _ _ _ M) as (cl & cr & El & Er & Ml & Mr).
    destruct (sealed_children _ _ _ _ _ S El Er) as (Hl & Hr & _ & _).
    destruct M as (W & D). apply working_Branch in W as (_ & _ & _ & W).
    simpl in D. destruct (W D) as (v & hl & hr & Hv & Ehl & Ehr & Hh & _).
    unfold ref_hash in Ehl, Ehr. rewrite El in Ehl. rewrite Er in Ehr.
    simpl in Ehl, Ehr.
    exists v, cl, cr, hl, hr. repeat (split; [assumption|]).
    split; [congruence|]. split; [congruence | exact Hh].
Qed.

Lemma inOrderTraversal_aged (v : Z) (n : Node) :
  aged v n ->
  Forall (fun x => match node_version x with Some f => f <= v | None => True end)
    (inOrderTraversal n).
Proof.
  induction n as [d | d l r IHl IHr] using Node_induction.
  - intros B. cbn [inOrderTraversal]. constructor; [exact B | constructor].
  - intros (Bv & Bl & Br). cbn [inOrderTraversal].
    apply Forall_app. split.
    + destruct l as [| c | c]; [constructor | |]; apply (IHl c eq_refl Bl).
    + constructor; [exact Bv|].
      destruct r as [| c | c]; [constructor | |]; apply (IHr c eq_refl Br).
Qed.


